(** * simsoptpp tracing: a shallow embedding of [tracing.cpp]

    The driver [solve], the helper [get_phi], the coordinate charts, the
    right-hand side classes and the entry points of
    [src/simsoptpp/tracing.cpp], with the properties of their trajectories
    and event lists.

    How the C++ is read:
    - a [double] is a real number and its arithmetic is exact; [M_PI] is
      [PI]; the libm functions are the real functions of the same name;
    - [std::array<double, N>] and [std::vector<double>] are [list R], and
      [v[i]] is checked: reading past the end fails with [OutOfBounds];
    - a thrown exception ends the call with [Err]; the [assert] at 731 is
      taken as compiled in (lemma [crossed_plane_between_in_range] shows it
      holds as long as the [int] of line 729 does not overflow);
    - an [int] has 32 bits: a value stored in one, and the result of its
      arithmetic, is taken modulo [2^32] into [-2^31, 2^31) ([to_int]);
    - the Boost collaborators, the dense-output Dormand-Prince stepper of
      odeint and the TOMS 748 root solver, are a record [Boost] of operations
      that [solve] is parameterised by, and the field evaluators are records
      of functions;
    - a local that is declared without a value holds an arbitrary real that
      the caller of the model supplies ([Indeterminate]);
    - the [do ... while] loop runs for at most [fuel] passes; [OutOfFuel]
      marks a run cut short by that bound ([solve_finishes] gives a bound
      that is enough). *)

From Stdlib Require Import Reals Lra Lia ZArith List Bool.
From Stdlib Require String.
Import String.StringSyntax.
Delimit Scope string_scope with string.
Import ListNotations.

Open Scope R_scope.

(** ** Numeric prelude: the libm functions the source calls *)

Definition Rltb (x y : R) : bool := if Rlt_dec x y then true else false.
Definition Rleb (x y : R) : bool := if Rle_dec x y then true else false.
Definition Reqb (x y : R) : bool := if Req_dec_T x y then true else false.

(** [std::floor], [std::round] (halves away from zero) and the truncation of
    a [double] to [int], as integers. *)
Definition floor (x : R) : Z := Zfloor x.

Definition round (x : R) : Z :=
  if Rle_dec 0 x then Zfloor (x + / 2) else Zceil (x - / 2).

Definition trunc (x : R) : Z :=
  if Rle_dec 0 x then Zfloor x else Zceil x.

(** The value an [int] holds when [z] is stored in it: 32 bits, two's
    complement.  C++ leaves a conversion that does not fit and a signed
    overflow undefined; the low 32 bits are what is kept here. *)
Definition to_int (z : Z) : Z := ((z + 2 ^ 31) mod 2 ^ 32 - 2 ^ 31)%Z.

(** [std::fmod(x, y)]: the remainder of the truncated quotient. *)
Definition fmod (x y : R) : R := x - IZR (trunc (x / y)) * y.

(** [std::log2]. *)
Definition log2 (x : R) : R := ln x / ln 2.

(** [std::atan2(y, x)], with values in (-PI, PI]. *)
Definition atan2 (y x : R) : R :=
  if Rlt_dec 0 x then atan (y / x)
  else if Rlt_dec x 0 then
    if Rle_dec 0 y then atan (y / x) + PI else atan (y / x) - PI
  else if Rlt_dec 0 y then PI / 2
  else if Rlt_dec y 0 then - (PI / 2)
  else 0.

(** ** [get_phi] (tracing.cpp, 603-621) *)

Definition get_phi (x y phi_near : R) : R :=
  let phi := atan2 y x in
  let phi := if Rlt_dec phi 0 then phi + 2 * PI else phi in
  let phi_near_mod := fmod phi_near (2 * PI) in
  let nearest_multiple := IZR (round (phi_near / (2 * PI))) * 2 * PI in
  let opt1 := nearest_multiple - 2 * PI + phi in
  let opt2 := nearest_multiple + phi in
  let opt3 := nearest_multiple + 2 * PI + phi in
  let dist1 := Rabs (opt1 - phi_near) in
  let dist2 := Rabs (opt2 - phi_near) in
  let dist3 := Rabs (opt3 - phi_near) in
  if Rle_dec dist1 (Rmin dist2 dist3) then opt1
  else if Rle_dec dist2 (Rmin dist1 dist3) then opt2
  else opt3.

(** The angle [get_phi] lifts: [atan2(y, x)] shifted into [0, 2 PI). *)
Definition phi0 (x y : R) : R :=
  let phi := atan2 y x in
  if Rlt_dec phi 0 then phi + 2 * PI else phi.

(** ** Coordinate charts

    [to_canonical] is the branch on [axis] at the head of the Boozer
    right-hand sides (GuidingCenterVacuumBoozerRHS::operator(), 111-122) and
    in [solve]; [from_canonical] is the construction of the initial state in
    [particle_guiding_center_boozer_tracing] (886-892). *)

Definition to_canonical (axis : Z) (y0 y1 : R) : R * R :=
  if (axis =? 1)%Z then (y0 ^ 2 + y1 ^ 2, atan2 y1 y0)
  else if (axis =? 2)%Z then (sqrt (y0 ^ 2 + y1 ^ 2), atan2 y1 y0)
  else (y0, y1).

Definition from_canonical (axis : Z) (s theta : R) : R * R :=
  if (axis =? 1)%Z then (sqrt s * cos theta, sqrt s * sin theta)
  else if (axis =? 2)%Z then (s * cos theta, s * sin theta)
  else (s, theta).

(** ** Errors

    A C++ exception, or a read outside an array, ends the call with no
    result.  [OutOfFuel] is not a C++ outcome: it marks a run of the model
    whose bound on the number of steps was too small. *)

Inductive error : Type :=
| OutOfBounds
| LogicError (what : String.string)
| RootError
| AssertionFailed
| OutOfFuel.

Inductive result (A : Type) : Type :=
| Ok (a : A)
| Err (e : error).

Arguments Ok {A} a.
Arguments Err {A} e.

Definition bind {A B : Type} (c : result A) (k : A -> result B) : result B :=
  match c with
  | Ok a => k a
  | Err e => Err e
  end.

Notation "x <- c ;; k" := (bind c (fun x => k))
  (at level 61, c at next level, right associativity).

(** ** Data model *)

(** [std::array<double, Size>], indexed with a check. *)
Definition State := list R.

Definition idx (v : list R) (i : nat) : result R :=
  match nth_error v i with
  | Some x => Ok x
  | None => Err OutOfBounds
  end.

Definition set_idx (v : list R) (i : nat) (x : R) : result (list R) :=
  if (i <? length v)%nat then Ok (firstn i v ++ x :: skipn (S i) v)
  else Err OutOfBounds.

(** [join<m, n>(a, b)]: the array [a] followed by [b]. *)
Definition join (a b : list R) : list R := a ++ b.

(** [StoppingCriterion::operator()(iter, dt, t, x, y, z, vpar)]; a null
    [shared_ptr] in the vector is [None]. *)
Definition StoppingCriterion : Type := Z -> R -> R -> R -> R -> R -> R -> bool.

(** The field evaluators (magneticfield.h, boozermagneticfield.h), as the
    values they give back at the point last set; [modB()] and [G()] give
    the values of [modB_ref()] and [G_ref()]. *)
Record MagneticField : Type := {
  B_cyl : R -> R -> R -> R * R * R;
  GradAbsB_cyl : R -> R -> R -> R * R * R;
  AbsB_cyl : R -> R -> R -> R;
  AbsB_xyz : R -> R -> R -> R
}.

Record BoozerMagneticField : Type := {
  psi0 : R;
  modB_ref : R -> R -> R -> R;
  G_ref : R -> R -> R -> R;
  I_ref : R -> R -> R -> R;
  K_ref : R -> R -> R -> R;
  iota_ref : R -> R -> R -> R;
  dGds_ref : R -> R -> R -> R;
  dIds_ref : R -> R -> R -> R;
  diotads_ref : R -> R -> R -> R;
  modB_derivs_ref : R -> R -> R -> R * R * R;
  K_derivs_ref : R -> R -> R -> R * R
}.

(** ** The right-hand sides

    The template parameter [RHS] of [solve] ranges over the eight classes
    below; [solve] itself reads only [Size] and [axis] and hands the object
    to the stepper. *)

Inductive RHS : Type :=
| GuidingCenterVacuumRHS (field : MagneticField) (m q mu : R)
| GuidingCenterVacuumBoozerRHS (field : BoozerMagneticField) (m q mu : R)
    (axis : Z)
| GuidingCenterVacuumBoozerPerturbedRHS (field : BoozerMagneticField)
    (m q mu Phihat omega : R) (Phim Phin : Z) (phase : R) (axis : Z)
| GuidingCenterNoKBoozerPerturbedRHS (field : BoozerMagneticField)
    (m q mu Phihat omega : R) (Phim Phin : Z) (phase : R) (axis : Z)
| GuidingCenterNoKBoozerRHS (field : BoozerMagneticField) (m q mu : R)
    (axis : Z)
| GuidingCenterBoozerRHS (field : BoozerMagneticField) (m q mu : R) (axis : Z)
| FullorbitRHS (field : MagneticField) (m q : R)
| FieldlineRHS (field : MagneticField).

Definition Size (rhs : RHS) : nat :=
  match rhs with
  | GuidingCenterVacuumRHS _ _ _ _ => 4
  | GuidingCenterVacuumBoozerRHS _ _ _ _ _ => 4
  | GuidingCenterVacuumBoozerPerturbedRHS _ _ _ _ _ _ _ _ _ _ => 5
  | GuidingCenterNoKBoozerPerturbedRHS _ _ _ _ _ _ _ _ _ _ => 5
  | GuidingCenterNoKBoozerRHS _ _ _ _ _ => 4
  | GuidingCenterBoozerRHS _ _ _ _ _ => 4
  | FullorbitRHS _ _ _ => 6
  | FieldlineRHS _ => 3
  end.

(** [rhs.axis]: the [int] member of the Boozer classes, and the constant
    [false] of the Cartesian ones. *)
Definition axis (rhs : RHS) : Z :=
  match rhs with
  | GuidingCenterVacuumRHS _ _ _ _ => 0
  | GuidingCenterVacuumBoozerRHS _ _ _ _ a => a
  | GuidingCenterVacuumBoozerPerturbedRHS _ _ _ _ _ _ _ _ _ a => a
  | GuidingCenterNoKBoozerPerturbedRHS _ _ _ _ _ _ _ _ _ a => a
  | GuidingCenterNoKBoozerRHS _ _ _ _ a => a
  | GuidingCenterBoozerRHS _ _ _ _ a => a
  | FullorbitRHS _ _ _ => 0
  | FieldlineRHS _ => 0
  end.

(** The cylindrical point the Cartesian classes set the field at. *)
Definition rphiz (x y z : R) : R * R * R :=
  let phi := atan2 y x in
  (sqrt (x * x + y * y), (if Rlt_dec phi 0 then phi + 2 * PI else phi), z).

(** [FieldlineRHS::operator()] (585-600). *)
Definition FieldlineRHS_call (field : MagneticField) (ys : State)
  : result State :=
  x <- idx ys 0 ;;
  y <- idx ys 1 ;;
  z <- idx ys 2 ;;
  let '(r, phi, z') := rphiz x y z in
  let '(B0, B1, B2) := B_cyl field r phi z' in
  Ok [B0; B1; B2].

(** [GuidingCenterVacuumRHS::operator()] (50-77). *)
Definition GuidingCenterVacuumRHS_call (field : MagneticField) (m q mu : R)
    (ys : State) : result State :=
  x <- idx ys 0 ;;
  y <- idx ys 1 ;;
  z <- idx ys 2 ;;
  v_par <- idx ys 3 ;;
  let '(r, phi, z') := rphiz x y z in
  let '(G0, G1, G2) := GradAbsB_cyl field r phi z' in
  let '(B0, B1, B2) := B_cyl field r phi z' in
  let AbsB := AbsB_cyl field r phi z' in
  let BcrossGradAbsB0 := B1 * G2 - B2 * G1 in
  let BcrossGradAbsB1 := B2 * G0 - B0 * G2 in
  let BcrossGradAbsB2 := B0 * G1 - B1 * G0 in
  let v_perp2 := 2 * mu * AbsB in
  let fak1 := v_par / AbsB in
  let fak2 := (m / (q * AbsB ^ 3)) * (/ 2 * v_perp2 + v_par * v_par) in
  Ok [fak1 * B0 + fak2 * BcrossGradAbsB0;
      fak1 * B1 + fak2 * BcrossGradAbsB1;
      fak1 * B2 + fak2 * BcrossGradAbsB2;
      - mu * (B0 * G0 + B1 * G1 + B2 * G2) / AbsB].

(** [GuidingCenterVacuumBoozerRHS::operator()] (109-154). *)
Definition GuidingCenterVacuumBoozerRHS_call (field : BoozerMagneticField)
    (m q mu : R) (axis : Z) (ys : State) : result State :=
  v_par <- idx ys 3 ;;
  ys0 <- idx ys 0 ;;
  ys1 <- idx ys 1 ;;
  ys2 <- idx ys 2 ;;
  let '(s, theta) := to_canonical axis ys0 ys1 in
  let psi0 := psi0 field in
  let modB := modB_ref field s theta ys2 in
  let G := G_ref field s theta ys2 in
  let iota := iota_ref field s theta ys2 in
  let '(dmodBds, dmodBdtheta, dmodBdzeta) :=
    modB_derivs_ref field s theta ys2 in
  let v_perp2 := 2 * mu * modB in
  let fak1 := m * v_par * v_par / modB + m * mu in
  let sdot := - dmodBdtheta * fak1 / (q * psi0) in
  let tdot := dmodBds * fak1 / (q * psi0) + iota * v_par * modB / G in
  let '(d0, d1) :=
    if (axis =? 1)%Z then
      (sdot * cos theta / (2 * sqrt s) - sqrt s * sin theta * tdot,
       sdot * sin theta / (2 * sqrt s) + sqrt s * cos theta * tdot)
    else if (axis =? 2)%Z then
      (sdot * cos theta - s * sin theta * tdot,
       sdot * sin theta + s * cos theta * tdot)
    else (sdot, tdot) in
  Ok [d0; d1; v_par * modB / G;
      - (iota * dmodBdtheta + dmodBdzeta) * mu * modB / G].

(** ** The Boost collaborators

    [dense] is the dense-output stepper object ([make_dense_output],
    [initialize], [do_step], [current_time], [current_state], [calc_state]);
    [do_step] gives back the object after the step and the pair
    [(t_prev, t_curr)].  [toms748_solve] is the bracketing root solver, [None]
    when it raises; its function argument may itself fail. *)

Record Boost : Type := {
  dense : Type;
  make_dense_output : R -> R -> R -> dense;
  initialize : dense -> State -> R -> R -> dense;
  do_step : RHS -> dense -> dense * (R * R);
  current_time : dense -> R;
  current_state : dense -> State;
  calc_state : dense -> R -> State;
  toms748_solve :
    (R -> result R) -> R -> R -> R -> R -> Z -> N -> option (R * R)
}.

(** The locals [vpar_current] and [t_current] of [solve] are declared without
    an initial value (663); these are the values they hold before their
    first assignment. *)
Record Indeterminate : Type := {
  vpar_current_0 : R;
  t_current_0 : R
}.

(** ** [solve] (637-796) *)

(** The two vectors [solve] builds and its flag [stop]. *)
Record out : Type := mkOut {
  res : list (list R);
  res_phi_hits : list (list R);
  stop : bool
}.

Definition push_res (o : out) (row : list R) : out :=
  mkOut (res o ++ [row]) (res_phi_hits o) (stop o).

Definition push_hit (o : out) (row : list R) : out :=
  mkOut (res o) (res_phi_hits o ++ [row]) (stop o).

Definition set_stop (o : out) : out :=
  mkOut (res o) (res_phi_hits o) true.

(** The locals of [solve] that live across iterations of its loop. *)
Record locals (B : Boost) : Type := mkLocals {
  out_ : out;
  dense_ : dense B;
  t_ : R;
  y_ : State;
  dt_ : R;
  iter_ : Z;
  phi_last_ : R;
  vpar_last_ : R;
  t_last_ : R;
  vpar_current_ : R;
  t_current_ : R
}.

Arguments mkLocals {B}.
Arguments out_ {B}.
Arguments dense_ {B}.
Arguments t_ {B}.
Arguments y_ {B}.
Arguments dt_ {B}.
Arguments iter_ {B}.
Arguments phi_last_ {B}.
Arguments vpar_last_ {B}.
Arguments t_last_ {B}.
Arguments vpar_current_ {B}.
Arguments t_current_ {B}.

(** The sign test written out at 696. *)
Definition sgn (x : R) : Z :=
  if Rlt_dec 0 x then 1 else if Rlt_dec x 0 then -1 else 0.

Definition crossed (vpar_last vpar_current vpar : R) : bool :=
  negb (Reqb (vpar_last - vpar) 0)
  && negb (Reqb (vpar_current - vpar) 0)
  && negb (sgn (vpar_last - vpar) =? sgn (vpar_current - vpar))%Z.

(** The test for a crossed (phi - omega t) plane at 728. *)
Definition plane_crossed (t_last phase_last phase_current phi : R) : bool :=
  negb (Reqb t_last 0)
  && negb (floor ((phase_last - phi) / (2 * PI))
           =? floor ((phase_current - phi) / (2 * PI)))%Z.

(** [fak] and [phase_shift] (729-730): the copy of the plane next to the
    mean of the two phases.  [fak] is an [int], and [fak*2] is a product of
    [int]s, taken before the product with [M_PI]. *)
Definition phase_shift (phase_last phase_current phi : R) : R :=
  let fak :=
    to_int (round (((phase_last + phase_current) / 2 - phi) / (2 * PI))) in
  IZR (to_int (fak * 2)) * PI + phi.

(** The condition of the [assert] at 731. *)
Definition between (phase_last phase_shift phase_current : R) : bool :=
  (Rleb phase_last phase_shift && Rleb phase_shift phase_current)
  || (Rleb phase_current phase_shift && Rleb phase_shift phase_last).

Section Solve.

Variable B : Boost.
Variable U : Indeterminate.
Variable rhs : RHS.
Variable y : State.
Variables tmax dt dtmax abstol reltol : R.
Variables phis omegas : list R.
Variable stopping_criteria : list (option StoppingCriterion).
Variable vpars : list R.
Variables phis_stop vpars_stop flux forget_exact_path : bool.

(** [ykeep = y] followed by the branch on [rhs.axis] (669-676, 706-713,
    746-753, 764-771, 785-792). *)
Definition canonical (y : State) : result State :=
  if ((axis rhs =? 1) || (axis rhs =? 2))%Z then
    y0 <- idx y 0 ;;
    y1 <- idx y 1 ;;
    let '(s, theta) := to_canonical (axis rhs) y0 y1 in
    ykeep <- set_idx y 0 s ;;
    set_idx ykeep 1 theta
  else Ok y.

(** [roottol] and [rootmaxit] (664-665). *)
Definition roottol : Z := (- trunc (log2 abstol))%Z.
Definition rootmaxit : N := 200%N.

(** The refinement of a crossing (701-713 and 741-753): the bracket of the
    root, the end of it where the function is smaller, and the dense output
    there in canonical coordinates. *)
Definition refine_root (d : dense B) (rootfun : R -> result R)
    (tlast tcurrent fa fb : R) : result (R * State) :=
  root <- match toms748_solve B rootfun tlast tcurrent fa fb roottol
                  rootmaxit with
          | Some root => Ok root
          | None => Err RootError
          end ;;
  f0 <- rootfun (fst root) ;;
  f1 <- rootfun (snd root) ;;
  let troot := if Rlt_dec (Rabs f0) (Rabs f1) then fst root else snd root in
  let temp := calc_state B d troot in
  ykeep <- canonical temp ;;
  Ok (troot, ykeep).

(** The loop over the vpar planes (694-721), from index [i] on. *)
Fixpoint scan_vpars (d : dense B) (tlast tcurrent vpar_last vpar_current : R)
    (i : nat) (vs : list R) (o : out) : result out :=
  match vs with
  | [] => Ok o
  | vpar :: vs' =>
    if crossed vpar_last vpar_current vpar then
      let rootfun := fun t =>
        temp3 <- idx (calc_state B d t) 3 ;;
        Ok (temp3 - vpar) in
      r <- refine_root d rootfun tlast tcurrent
             (vpar_last - vpar) (vpar_current - vpar) ;;
      let '(troot, ykeep) := r in
      let o := push_hit o (join [troot; INR i + INR (length phis)] ykeep) in
      if vpars_stop then
        Ok (set_stop (push_res o (join [troot] ykeep)))
      else scan_vpars d tlast tcurrent vpar_last vpar_current (S i) vs' o
    else scan_vpars d tlast tcurrent vpar_last vpar_current (S i) vs' o
  end.

(** The loop over the (phi - omega t) planes (723-761), from index [i]. *)
Fixpoint scan_phis (d : dense B)
    (tlast tcurrent phi_last phi_current t_last t_current : R)
    (i : nat) (ps : list R) (o : out) : result out :=
  match ps with
  | [] => Ok o
  | phi :: ps' =>
    omega <- idx omegas i ;;
    let phase_last := phi_last - omega * t_last in
    let phase_current := phi_current - omega * t_current in
    if plane_crossed t_last phase_last phase_current phi then
      let phase_shift := phase_shift phase_last phase_current phi in
      if between phase_last phase_shift phase_current then
        let rootfun := fun t =>
          let temp := calc_state B d t in
          if flux then
            temp2 <- idx temp 2 ;;
            Ok (temp2 - omega * t - phase_shift)
          else
            temp0 <- idx temp 0 ;;
            temp1 <- idx temp 1 ;;
            Ok (get_phi temp0 temp1 phi_last - omega * t - phase_shift) in
        r <- refine_root d rootfun tlast tcurrent
               (phase_last - phase_shift) (phase_current - phase_shift) ;;
        let '(troot, ykeep) := r in
        let o := push_hit o (join [troot; INR i] ykeep) in
        if phis_stop then
          Ok (set_stop (push_res o (join [troot] ykeep)))
        else
          scan_phis d tlast tcurrent phi_last phi_current t_last t_current
            (S i) ps' o
      else Err AssertionFailed
    else
      scan_phis d tlast tcurrent phi_last phi_current t_last t_current
        (S i) ps' o
  end.

(** The loop over the stopping criteria (763-778), from index [i]. *)
Fixpoint scan_criteria (iter : Z) (dt t : R) (y : State)
    (i : nat) (cs : list (option StoppingCriterion)) (o : out)
  : result out :=
  match cs with
  | [] => Ok o
  | c :: cs' =>
    ykeep <- canonical y ;;
    match c with
    | None => scan_criteria iter dt t y (S i) cs' o
    | Some criterion =>
      k0 <- idx ykeep 0 ;;
      k1 <- idx ykeep 1 ;;
      k2 <- idx ykeep 2 ;;
      k3 <- idx ykeep 3 ;;
      if criterion iter dt t k0 k1 k2 k3 then
        Ok (push_hit (push_res (set_stop o) (join [t] ykeep))
              (join [t; -1 - INR i] ykeep))
      else scan_criteria iter dt t y (S i) cs' o
    end
  end.

(** The head of a pass through the [do ... while]: the sample of the
    current state (668-678). *)
Definition push_head (v : locals B) : result out :=
  if negb forget_exact_path || Reqb (t_ v) 0 then
    ykeep <- canonical (y_ v) ;;
    Ok (push_res (out_ v) (join [t_ v] ykeep))
  else Ok (out_ v).

(** The rest of the pass: one step of the stepper and the three scans
    (679-781); [o] is the output so far. *)
Definition advance (v : locals B) (o : out) : result (locals B) :=
  let '(d, (tlast, tcurrent)) := do_step B rhs (dense_ v) in
  let iter := (iter_ v + 1)%Z in
  let t := current_time B d in
  let y := current_state B d in
  cur <- (if flux then
            y2 <- idx y 2 ;;
            y3 <- idx y 3 ;;
            Ok (t, y2, y3)
          else
            y0 <- idx y 0 ;;
            y1 <- idx y 1 ;;
            Ok (t_current_ v, get_phi y0 y1 (phi_last_ v), vpar_current_ v)) ;;
  let '(t_current, phi_current, vpar_current) := cur in
  let dt := tcurrent - tlast in
  o <- scan_vpars d tlast tcurrent (vpar_last_ v) vpar_current 0 vpars o ;;
  o <- scan_phis d tlast tcurrent (phi_last_ v) phi_current
         (t_last_ v) t_current 0 phis o ;;
  o <- scan_criteria iter dt t y 0 stopping_criteria o ;;
  Ok (mkLocals o d t y dt iter phi_current vpar_current t_current
        vpar_current t_current).

Definition body (v : locals B) : result (locals B) :=
  o <- push_head v ;;
  advance v o.

(** The [do ... while (t < tmax && !stop)], for at most [fuel] passes. *)
Fixpoint loop (fuel : nat) (v : locals B) : result (locals B) :=
  match fuel with
  | O => Err OutOfFuel
  | S fuel' =>
    v' <- body v ;;
    if Rltb (t_ v') tmax && negb (stop (out_ v')) then loop fuel' v'
    else Ok v'
  end.

(** The locals when the loop is entered (643-666). *)
Definition enter : result (locals B) :=
  let dense := make_dense_output B abstol reltol dtmax in
  let t := 0 in
  let dense := initialize B dense y t dt in
  last <- (if flux then
             y2 <- idx y 2 ;;
             y3 <- idx y 3 ;;
             Ok (y2, y3)
           else
             y0 <- idx y 0 ;;
             y1 <- idx y 1 ;;
             Ok (get_phi y0 y1 PI, 0)) ;;
  let '(phi_last, vpar_last) := last in
  Ok (mkLocals (mkOut [] [] false) dense t y dt 0%Z phi_last vpar_last 0
        (vpar_current_0 U) (t_current_0 U)).

(** After the loop (783-795). *)
Definition leave (v : locals B) : result (list (list R) * list (list R)) :=
  if negb (stop (out_ v)) then
    let y := calc_state B (dense_ v) tmax in
    ykeep <- canonical y ;;
    Ok (res (out_ v) ++ [join [tmax] ykeep], res_phi_hits (out_ v))
  else Ok (res (out_ v), res_phi_hits (out_ v)).

(** The run of the loop alone, and [solve]. *)
Definition run (fuel : nat) : result (locals B) :=
  v <- enter ;;
  loop fuel v.

Definition solve (fuel : nat)
  : result (list (list R) * list (list R)) :=
  v <- run fuel ;;
  leave v.

End Solve.

(** ** The entry points (800-971) *)

Section EntryPoints.

Variable B : Boost.
Variable U : Indeterminate.

Definition particle_guiding_center_tracing (field : MagneticField)
    (xyz_init : R * R * R) (m q vtotal vtang tmax abstol reltol : R)
    (vacuum : bool) (phis omegas : list R)
    (stopping_criteria : list (option StoppingCriterion)) (fuel : nat)
  : result (list (list R) * list (list R)) :=
  let '(x0, y0, z0) := xyz_init in
  let AbsB := AbsB_xyz field x0 y0 z0 in
  let vperp2 := vtotal * vtotal - vtang * vtang in
  let mu := vperp2 / (2 * AbsB) in
  let y := [x0; y0; z0; vtang] in
  let r0 := sqrt (x0 * x0 + y0 * y0) in
  let dtmax := r0 * / 2 * PI / vtotal in
  let dt := / 1000 * dtmax in
  if vacuum then
    let rhs_class := GuidingCenterVacuumRHS field m q mu in
    solve B U rhs_class y tmax dt dtmax abstol reltol phis omegas
      stopping_criteria [] false false false false fuel
  else
    Err (LogicError
      "Guiding center right hand side currently only implemented for vacuum fields."%string).

Definition particle_guiding_center_boozer_perturbed_tracing
    (field : BoozerMagneticField) (stz_init : R * R * R)
    (m q vtotal vtang mu tmax abstol reltol : R) (vacuum noK : bool)
    (zetas omegas : list R)
    (stopping_criteria : list (option StoppingCriterion)) (vpars : list R)
    (phis_stop vpars_stop : bool) (Phihat omega : R) (Phim Phin : Z)
    (phase : R) (forget_exact_path : bool) (axis : Z) (fuel : nat)
  : result (list (list R) * list (list R)) :=
  let '(s0, theta0, zeta0) := stz_init in
  let modB := modB_ref field s0 theta0 zeta0 in
  let G0 := Rabs (G_ref field s0 theta0 zeta0) in
  let r0 := G0 / modB in
  let dtmax := r0 * / 2 * PI / vtotal in
  let dt := / 1000 * dtmax in
  let '(y0, y1) := from_canonical axis s0 theta0 in
  let y := [y0; y1; zeta0; vtang; 0] in
  if vacuum then
    let rhs_class :=
      GuidingCenterVacuumBoozerPerturbedRHS field m q mu Phihat omega
        Phim Phin phase axis in
    solve B U rhs_class y tmax dt dtmax abstol reltol zetas omegas
      stopping_criteria vpars phis_stop vpars_stop true forget_exact_path
      fuel
  else
    let rhs_class :=
      GuidingCenterNoKBoozerPerturbedRHS field m q mu Phihat omega
        Phim Phin phase axis in
    solve B U rhs_class y tmax dt dtmax abstol reltol zetas omegas
      stopping_criteria vpars phis_stop vpars_stop true forget_exact_path
      fuel.

Definition particle_guiding_center_boozer_tracing
    (field : BoozerMagneticField) (stz_init : R * R * R)
    (m q vtotal vtang tmax abstol reltol : R) (vacuum noK : bool)
    (zetas omegas : list R)
    (stopping_criteria : list (option StoppingCriterion)) (vpars : list R)
    (phis_stop vpars_stop forget_exact_path : bool) (axis : Z) (fuel : nat)
  : result (list (list R) * list (list R)) :=
  let '(s0, theta0, zeta0) := stz_init in
  let modB := modB_ref field s0 theta0 zeta0 in
  let vperp2 := vtotal * vtotal - vtang * vtang in
  let mu := vperp2 / (2 * modB) in
  let G0 := Rabs (G_ref field s0 theta0 zeta0) in
  let r0 := G0 / modB in
  let dtmax := r0 * / 2 * PI / vtotal in
  let dt := / 1000 * dtmax in
  let '(y0, y1) := from_canonical axis s0 theta0 in
  let y := [y0; y1; zeta0; vtang] in
  if vacuum then
    let rhs_class := GuidingCenterVacuumBoozerRHS field m q mu axis in
    solve B U rhs_class y tmax dt dtmax abstol reltol zetas omegas
      stopping_criteria vpars phis_stop vpars_stop true forget_exact_path
      fuel
  else if noK then
    let rhs_class := GuidingCenterNoKBoozerRHS field m q mu axis in
    solve B U rhs_class y tmax dt dtmax abstol reltol zetas omegas
      stopping_criteria vpars phis_stop vpars_stop true forget_exact_path
      fuel
  else
    let rhs_class := GuidingCenterBoozerRHS field m q mu axis in
    solve B U rhs_class y tmax dt dtmax abstol reltol zetas omegas
      stopping_criteria vpars phis_stop vpars_stop true forget_exact_path
      fuel.

Definition particle_fullorbit_tracing (field : MagneticField)
    (xyz_init v_init : R * R * R) (m q tmax abstol reltol : R)
    (phis : list R) (stopping_criteria : list (option StoppingCriterion))
    (fuel : nat) : result (list (list R) * list (list R)) :=
  let '(x0, y0, z0) := xyz_init in
  let '(vx, vy, vz) := v_init in
  let rhs_class := FullorbitRHS field m q in
  let y := [x0; y0; z0; vx; vy; vz] in
  let vtotal := sqrt (vx ^ 2 + vy ^ 2 + vz ^ 2) in
  let r0 := sqrt (x0 * x0 + y0 * y0) in
  let dtmax := r0 * / 2 * PI / vtotal in
  let dt := / 1000 * dtmax in
  let omegas := repeat 0 (length phis) in
  solve B U rhs_class y tmax dt dtmax abstol reltol phis omegas
    stopping_criteria [] false false false false fuel.

Definition fieldline_tracing (field : MagneticField) (xyz_init : R * R * R)
    (tmax abstol reltol : R) (phis : list R)
    (stopping_criteria : list (option StoppingCriterion)) (fuel : nat)
  : result (list (list R) * list (list R)) :=
  let '(x0, y0, z0) := xyz_init in
  let rhs_class := FieldlineRHS field in
  let r0 := sqrt (x0 * x0 + y0 * y0) in
  let AbsB := AbsB_xyz field x0 y0 z0 in
  let dtmax := r0 * / 2 * PI / AbsB in
  let dt := / 100000 * dtmax in
  let omegas := repeat 0 (length phis) in
  solve B U rhs_class [x0; y0; z0] tmax dt dtmax abstol reltol phis omegas
    stopping_criteria [] false false false false fuel.

End EntryPoints.

(** ** Concrete collaborators, for the examples

    [curve_stepper h traj] follows the curve [traj] exactly in steps of
    length [h]; [midpoint_solver] answers with the middle of the bracket. *)

Definition midpoint_solver (f : R -> result R) (a b fa fb : R) (tol : Z)
    (maxit : N) : option (R * R) :=
  let m := (a + b) / 2 in
  Some (m, m).

Definition curve_stepper (h : R) (traj : R -> State) : Boost := {|
  dense := R;
  make_dense_output := fun _ _ _ => 0;
  initialize := fun _ _ t _ => t;
  do_step := fun _ d => (d + h, (d, d + h));
  current_time := fun d => d;
  current_state := fun d => traj d;
  calc_state := fun _ t => traj t;
  toms748_solve := midpoint_solver
|}.

Definition unit_boozer_field : BoozerMagneticField := {|
  psi0 := 1;
  modB_ref := fun _ _ _ => 1;
  G_ref := fun _ _ _ => 1;
  I_ref := fun _ _ _ => 0;
  K_ref := fun _ _ _ => 0;
  iota_ref := fun _ _ _ => 1;
  dGds_ref := fun _ _ _ => 0;
  dIds_ref := fun _ _ _ => 0;
  diotads_ref := fun _ _ _ => 0;
  modB_derivs_ref := fun _ _ _ => (0, 0, 0);
  K_derivs_ref := fun _ _ _ => (0, 0)
|}.

(** The field of a straight wire along the z axis, of unit strength on the
    unit circle: purely azimuthal. *)
Definition wire_field : MagneticField := {|
  B_cyl := fun r phi _ => (- sin phi / r, cos phi / r, 0);
  GradAbsB_cyl := fun r phi _ => (- cos phi / (r * r), - sin phi / (r * r), 0);
  AbsB_cyl := fun r _ _ => / r;
  AbsB_xyz := fun x y _ => / sqrt (x * x + y * y)
|}.

Definition always : StoppingCriterion := fun _ _ _ _ _ _ _ => true.
Definition never : StoppingCriterion := fun _ _ _ _ _ _ _ => false.

(** A guiding centre in Boozer coordinates whose parallel velocity falls
    through zero at [t = 1], traced in steps of length 2 with the plane
    [vpar = 0] watched. *)
Definition mirror_curve (t : R) : State := [/ 2; 0; t; 1 - t].

Definition mirror_rhs : RHS :=
  GuidingCenterVacuumBoozerRHS unit_boozer_field 1 1 0 0.

Definition mirror_solve (tmax : R)
    (stopping_criteria : list (option StoppingCriterion))
    (vpars_stop forget_exact_path : bool) (fuel : nat)
  : result (list (list R) * list (list R)) :=
  solve (curve_stepper 2 mirror_curve) (Build_Indeterminate 0 0) mirror_rhs
    (mirror_curve 0) tmax (/ 1000) 1 (/ 1000) (/ 1000) [] []
    stopping_criteria [0] false vpars_stop true forget_exact_path fuel.

(** A field line of [wire_field]: the unit circle, a quarter turn a step. *)
Definition circle_curve (t : R) : State := [cos t; sin t; 0].

(** The locals of [mirror_solve 10 [Some always] true false] when the loop
    is entered and after its first pass. *)
Definition mirror_v0 : locals (curve_stepper 2 mirror_curve) :=
  @mkLocals (curve_stepper 2 mirror_curve) (mkOut [] [] false) 0 0
    [/ 2; 0; 0; 1] (/ 1000) 0%Z 0 1 0 0 0.

Definition mirror_v1 : locals (curve_stepper 2 mirror_curve) :=
  @mkLocals (curve_stepper 2 mirror_curve)
    (mkOut [[0; / 2; 0; 0; 1]; [1; / 2; 0; 1; 0]; [2; / 2; 0; 2; -1]]
       [[1; 0; / 2; 0; 1; 0]; [2; -1; / 2; 0; 2; -1]] true)
    2 2 [/ 2; 0; 2; -1] 2 1%Z 2 (-1) 2 (-1) 2.

(** A field line along the z axis direction, for a trace of three-component
    states. *)
Definition line_curve (t : R) : State := [1; 0; t].

(** The field line of [wire_field] through (1, 0, 0), traced over half a
    turn with the plane phi = 3 PI / 4 watched; [g] is what the unset local
    [t_current] happens to hold. *)
Definition circle_trace (g : R)
  : result (list (list R) * list (list R)) :=
  fieldline_tracing (curve_stepper (PI / 2) circle_curve)
    (Build_Indeterminate 0 g) wire_field (1, 0, 0) PI (/ 1000) (/ 1000)
    [3 * PI / 4] [] 2.

(** The mirror trace with the plane [zeta = 3] and the plane [vpar = -2]
    watched, both reached at [t = 3], and both flags set. *)
Definition mirror_both_stops : result (list (list R) * list (list R)) :=
  solve (curve_stepper 2 mirror_curve) (Build_Indeterminate 0 0) mirror_rhs
    (mirror_curve 0) 10 (/ 1000) 1 (/ 1000) (/ 1000) [3] [0] [] [-2] true
    true true false 2.

(** ** Vocabulary of the statements *)

(** What a scan adds, seen apart from what was there before. *)
Definition no_out : out := mkOut [] [] false.

Definition app_out (o e : out) : out :=
  mkOut (res o ++ res e) (res_phi_hits o ++ res_phi_hits e)
    (stop o || stop e).

Definition nonempty {A : Type} (l : list A) : bool :=
  match l with
  | [] => false
  | _ :: _ => true
  end.

(** A row (sample or event record) whose time lies in [[a, b]]. *)
Definition timed (a b : R) (row : list R) : Prop :=
  exists tau rest, row = tau :: rest /\ a <= tau <= b.

(** What one scan may add during a step with bracket [[a, b]]: events timed
    in the bracket and, only if the scan can stop the trace, at most one
    sample, with [stop] set exactly when it is added. *)
Definition emits (a b : R) (armed : bool) (e : out) : Prop :=
  Forall (timed a b) (res_phi_hits e) /\
  ((res e = [] /\ stop e = false) \/
   (armed = true /\ stop e = true /\ exists s, res e = [s] /\ timed a b s)).

(** The times of the rows of a trajectory, and strict increase. *)
Definition times (rows : list (list R)) : list R := map (hd 0) rows.

Fixpoint increasing (l : list R) : Prop :=
  match l with
  | [] => True
  | a :: l' =>
    match l' with
    | [] => True
    | b :: _ => a < b /\ increasing l'
    end
  end.

(** The contract of the collaborators the statements rely on: the stepper
    starts at the time it is given and each step moves from the current time
    to a later one, reporting both; the root solver answers inside the bracket
    it is given. *)
Record well_behaved (B : Boost) (rhs : RHS) : Prop := {
  wb_initialize :
    forall d y t dt, current_time B (initialize B d y t dt) = t;
  wb_do_step :
    forall d,
      fst (snd (do_step B rhs d)) = current_time B d /\
      snd (snd (do_step B rhs d)) = current_time B (fst (do_step B rhs d)) /\
      current_time B d < current_time B (fst (do_step B rhs d));
  wb_toms748 :
    forall f a b fa fb tol it r,
      a <= b ->
      toms748_solve B f a b fa fb tol it = Some r ->
      a <= fst r <= b /\ a <= snd r <= b
}.

(** The stepper object after [n] steps of a trace, and the bracket of the
    step taken from there. *)
Fixpoint dense_after (B : Boost) (rhs : RHS) (d : dense B) (n : nat)
  : dense B :=
  match n with
  | O => d
  | S n' => fst (do_step B rhs (dense_after B rhs d n'))
  end.

Definition bracket (B : Boost) (rhs : RHS) (d : dense B) (n : nat) : R * R :=
  snd (do_step B rhs (dense_after B rhs d n)).

(** A stopping criterion that fires nowhere. *)
Definition silent (c : option StoppingCriterion) : Prop :=
  forall crit, c = Some crit ->
    forall iter dt t x y z vpar, crit iter dt t x y z vpar = false.

(** The sample pushed at the head of a pass of the loop (668-678): [base] is
    the output once it is. *)
Definition head_sample {B : Boost} (rhs : RHS) (forget_exact_path : bool)
    (v : locals B) (base : out) : Prop :=
  if negb forget_exact_path || Reqb (t_ v) 0 then
    exists ykeep, canonical rhs (y_ v) = Ok ykeep /\
                  base = push_res (out_ v) (join [t_ v] ykeep)
  else base = out_ v.

(** The locals with another output. *)
Definition with_out {B : Boost} (v : locals B) (o : out) : locals B :=
  mkLocals o (dense_ v) (t_ v) (y_ v) (dt_ v) (iter_ v) (phi_last_ v)
    (vpar_last_ v) (t_last_ v) (vpar_current_ v) (t_current_ v).

(** An event record whose time lies in the bracket of one of the first
    [steps] steps of the trace that starts from the stepper object [d0]: a
    step that begins at a time at least 0 and, unless it is the first one,
    before [tmax]. *)
Definition event_in_step (B : Boost) (rhs : RHS) (d0 : dense B) (tmax : R)
    (steps : nat) (ev : list R) : Prop :=
  exists k tev rest,
    ev = tev :: rest /\ (k < steps)%nat /\
    0 <= fst (bracket B rhs d0 k) /\
    fst (bracket B rhs d0 k) <= tev <= snd (bracket B rhs d0 k) /\
    (k = 0%nat \/ fst (bracket B rhs d0 k) < tmax).

(** The stepper object [solve] starts from (648-650). *)
Definition dense_0 (B : Boost) (y : State) (dt dtmax abstol reltol : R)
  : dense B :=
  initialize B (make_dense_output B abstol reltol dtmax) y 0 dt.

(** At most one of the three ways to end a trace early is in use: a set
    [vpars_stop] with vpar planes, a set [phis_stop] with phi planes, or
    stopping criteria. *)
Definition single_mechanism (phis : list R)
    (stopping_criteria : list (option StoppingCriterion)) (vpars : list R)
    (phis_stop vpars_stop : bool) : bool :=
  let by_vpar := vpars_stop && nonempty vpars in
  let by_phi := phis_stop && nonempty phis in
  let by_criterion := nonempty stopping_criteria in
  negb (by_vpar && by_phi) && negb (by_vpar && by_criterion)
  && negb (by_phi && by_criterion).

(** Two values of the locals that differ at most in the trajectory. *)
Definition same_but_res {B : Boost} (v w : locals B) : Prop :=
  w = with_out v (out_ w) /\
  res_phi_hits (out_ w) = res_phi_hits (out_ v) /\
  stop (out_ w) = stop (out_ v).

(** The locals at the head of a pass of a trace with [forget_exact_path]
    set that starts from the state [y]: before the first pass the trajectory
    is empty, and afterwards it holds the initial sample alone. *)
Definition forget_head {B : Boost} (rhs : RHS) (y : State) (w : locals B)
  : Prop :=
  stop (out_ w) = false /\
  t_ w = current_time B (dense_ w) /\
  ((t_ w = 0 /\ res (out_ w) = [] /\ y_ w = y) \/
   (0 < t_ w /\ exists ykeep0, canonical rhs y = Ok ykeep0 /\
                               res (out_ w) = [join [0] ykeep0])).

(** A run of the model that was not cut short by its bound on the number of
    steps: it gives a result or a C++ failure. *)
Definition finishes {A : Type} (c : result A) : Prop := c <> Err OutOfFuel.

(** The index of the first plane of a list that is crossed in a pass, from
    index [i] on, as the two plane scans test it. *)
Fixpoint first_vpar_crossed (vpar_last vpar_current : R) (i : nat)
    (vs : list R) : option nat :=
  match vs with
  | [] => None
  | vpar :: vs' =>
    if crossed vpar_last vpar_current vpar then Some i
    else first_vpar_crossed vpar_last vpar_current (S i) vs'
  end.

Fixpoint first_phi_crossed (omegas : list R)
    (phi_last phi_current t_last t_current : R) (i : nat) (ps : list R)
  : option nat :=
  match ps with
  | [] => None
  | phi :: ps' =>
    match nth_error omegas i with
    | None => None
    | Some omega =>
      if plane_crossed t_last (phi_last - omega * t_last)
           (phi_current - omega * t_current) phi
      then Some i
      else first_phi_crossed omegas phi_last phi_current t_last t_current
             (S i) ps'
    end
  end.

(** What a plane scan adds when its [*_stop] flag is set: nothing when no
    plane is crossed, and else the event record of the first crossed plane,
    of index [first], together with the sample at the same time and state,
    and [stop]. *)
Definition stop_emission (first : option nat) (offset : R) (e : out) : Prop :=
  match first with
  | None => e = no_out
  | Some i =>
    exists troot k ykeep,
      k = INR i + offset /\
      e = mkOut [join [troot] ykeep] [join [troot; k] ykeep] true
  end.

(** What the scan of the stopping criteria adds at time [t]: nothing, or
    the sample and the event record of the criterion that fired, whose index
    [-1 - j] is negative. *)
Definition criterion_emission (t : R) (e : out) : Prop :=
  e = no_out \/
  exists (j : nat) ykeep,
    e = mkOut [join [t] ykeep] [join [t; -1 - INR j] ykeep] true.

(** The kind index of an event record, its second entry. *)
Definition kind_index (ev : list R) : R := nth 1 ev 0.

(** One pass of the loop from [v] to [v'], taken apart: the sample at its
    head, then what the vpar scan, the phi scan and the scan of the stopping
    criteria add, in this order. A plane scan whose flag is set adds the
    first crossing of its list and no other, and once a plane scan has set
    [stop] the pass is the last one and [solve] returns the vectors as the
    pass leaves them. *)
Definition pass_with_stop_crossing (B : Boost) (rhs : RHS) (tmax abstol : R)
    (phis omegas : list R)
    (stopping_criteria : list (option StoppingCriterion)) (vpars : list R)
    (phis_stop vpars_stop flux forget_exact_path : bool)
    (v v' : locals B) : Prop :=
  let d := dense_ v' in
  let tlast := fst (snd (do_step B rhs (dense_ v))) in
  let tcurrent := snd (snd (do_step B rhs (dense_ v))) in
  exists base e_v e_p e_c,
    push_head B rhs forget_exact_path v = Ok base /\
    scan_vpars B rhs abstol phis vpars_stop d tlast tcurrent (vpar_last_ v)
      (vpar_last_ v') 0 vpars no_out = Ok e_v /\
    scan_phis B rhs abstol omegas phis_stop flux d tlast tcurrent
      (phi_last_ v) (phi_last_ v') (t_last_ v) (t_last_ v') 0 phis no_out
      = Ok e_p /\
    scan_criteria rhs (iter_ v') (dt_ v') (t_ v') (y_ v') 0 stopping_criteria
      no_out = Ok e_c /\
    out_ v' = app_out (app_out (app_out base e_v) e_p) e_c /\
    (vpars_stop = true ->
     stop_emission
       (first_vpar_crossed (vpar_last_ v) (vpar_last_ v') 0 vpars)
       (INR (length phis)) e_v) /\
    (phis_stop = true ->
     stop_emission
       (first_phi_crossed omegas (phi_last_ v) (phi_last_ v') (t_last_ v)
          (t_last_ v') 0 phis)
       0 e_p) /\
    (stop e_v = true \/ stop e_p = true ->
     forall fuel,
       loop B rhs tmax abstol phis omegas stopping_criteria vpars phis_stop
         vpars_stop flux forget_exact_path (S fuel) v = Ok v' /\
       leave B rhs tmax v' = Ok (res (out_ v'), res_phi_hits (out_ v'))).
(** ** The right-hand sides, continued

    The [operator()] of the classes that [solve] hands to the stepper.  The
    Boozer classes end with the same lines, which turn the rates of [s] and
    [theta] into the rates of the two chart coordinates; [chart_rates] is
    that block (142-151, 232-241, 333-342, 424-433, 509-518). *)

Definition chart_rates (axis : Z) (s theta sdot tdot : R) : R * R :=
  if (axis =? 1)%Z then
    (sdot * cos theta / (2 * sqrt s) - sqrt s * sin theta * tdot,
     sdot * sin theta / (2 * sqrt s) + sqrt s * cos theta * tdot)
  else if (axis =? 2)%Z then
    (sdot * cos theta - s * sin theta * tdot,
     sdot * sin theta + s * cos theta * tdot)
  else (sdot, tdot).

(** [GuidingCenterVacuumBoozerPerturbedRHS::operator()] (187-248). *)
Definition GuidingCenterVacuumBoozerPerturbedRHS_call
    (field : BoozerMagneticField) (m q mu Phihat omega : R) (Phim Phin : Z)
    (phase : R) (axis : Z) (ys : State) : result State :=
  v_par <- idx ys 3 ;;
  time <- idx ys 4 ;;
  ys0 <- idx ys 0 ;;
  ys1 <- idx ys 1 ;;
  ys2 <- idx ys 2 ;;
  let '(s, theta) := to_canonical axis ys0 ys1 in
  let psi0 := psi0 field in
  let modB := modB_ref field s theta ys2 in
  let G := G_ref field s theta ys2 in
  let iota := iota_ref field s theta ys2 in
  let diotadpsi := diotads_ref field s theta ys2 / psi0 in
  let '(dmodBds, dmodBdtheta, dmodBdzeta) :=
    modB_derivs_ref field s theta ys2 in
  let dmodBdpsi := dmodBds / psi0 in
  let v_perp2 := 2 * mu * modB in
  let fak1 := m * v_par * v_par / modB + m * mu in
  let Phi :=
    Phihat * sin (IZR Phim * theta - IZR Phin * ys2 + omega * time + phase) in
  let dPhidpsi := 0 in
  let Phidot :=
    Phihat * omega
    * cos (IZR Phim * theta - IZR Phin * ys2 + omega * time + phase) in
  let dPhidtheta := Phidot * IZR Phim / omega in
  let dPhidzeta := - Phidot * IZR Phin / omega in
  let alpha := - Phi * (iota * IZR Phim - IZR Phin) / (omega * G) in
  let alphadot := - Phidot * (iota * IZR Phim - IZR Phin) / (omega * G) in
  let dalphadtheta :=
    - dPhidtheta * (iota * IZR Phim - IZR Phin) / (omega * G) in
  let dalphadzeta :=
    - dPhidzeta * (iota * IZR Phim - IZR Phin) / (omega * G) in
  let dalphadpsi :=
    - dPhidpsi * (iota * IZR Phim - IZR Phin) / (omega * G)
    - Phi * (diotadpsi * IZR Phim) / (omega * G) in
  let sdot :=
    (- dmodBdtheta * fak1 / q + dalphadtheta * modB * v_par - dPhidtheta)
    / psi0 in
  let tdot :=
    dmodBdpsi * fak1 / q + (iota - dalphadpsi * G) * v_par * modB / G
    + dPhidpsi in
  let '(d0, d1) := chart_rates axis s theta sdot tdot in
  Ok [d0; d1; v_par * modB / G;
      - modB / (G * m)
        * (m * mu * (dmodBdzeta + dalphadtheta * dmodBdpsi * G
                     + dmodBdtheta * (iota - dalphadpsi * G))
           + q * (alphadot * G + dalphadtheta * G * dPhidpsi
                  + (iota - dalphadpsi * G) * dPhidtheta + dPhidzeta))
      + v_par / modB * (dmodBdtheta * dPhidpsi - dmodBdpsi * dPhidtheta);
      1].

(** [GuidingCenterNoKBoozerPerturbedRHS::operator()] (282-356). *)
Definition GuidingCenterNoKBoozerPerturbedRHS_call
    (field : BoozerMagneticField) (m q mu Phihat omega : R) (Phim Phin : Z)
    (phase : R) (axis : Z) (ys : State) : result State :=
  v_par <- idx ys 3 ;;
  time <- idx ys 4 ;;
  ys0 <- idx ys 0 ;;
  ys1 <- idx ys 1 ;;
  ys2 <- idx ys 2 ;;
  let '(s, theta) := to_canonical axis ys0 ys1 in
  let psi0 := psi0 field in
  let modB := modB_ref field s theta ys2 in
  let G := G_ref field s theta ys2 in
  let I := I_ref field s theta ys2 in
  let dGdpsi := dGds_ref field s theta ys2 / psi0 in
  let dIdpsi := dIds_ref field s theta ys2 / psi0 in
  let iota := iota_ref field s theta ys2 in
  let diotadpsi := diotads_ref field s theta ys2 / psi0 in
  let '(dmodBds, dmodBdtheta, dmodBdzeta) :=
    modB_derivs_ref field s theta ys2 in
  let dmodBdpsi := dmodBds / psi0 in
  let v_perp2 := 2 * mu * modB in
  let fak1 := m * v_par * v_par / modB + m * mu in
  let Phi :=
    Phihat * sin (IZR Phim * theta - IZR Phin * ys2 + omega * time + phase) in
  let dPhidpsi := 0 in
  let Phidot :=
    Phihat * omega
    * cos (IZR Phim * theta - IZR Phin * ys2 + omega * time + phase) in
  let dPhidtheta := Phidot * IZR Phim / omega in
  let dPhidzeta := - Phidot * IZR Phin / omega in
  let alpha := - Phi * (iota * IZR Phim - IZR Phin) / (omega * (G + iota * I)) in
  let alphadot :=
    - Phidot * (iota * IZR Phim - IZR Phin) / (omega * (G + iota * I)) in
  let dalphadtheta :=
    - dPhidtheta * (iota * IZR Phim - IZR Phin) / (omega * (G + iota * I)) in
  let dalphadzeta :=
    - dPhidzeta * (iota * IZR Phim - IZR Phin) / (omega * (G + iota * I)) in
  let dalphadpsi :=
    - dPhidpsi * (iota * IZR Phim - IZR Phin) / (omega * (G + iota * I))
    - (Phi / omega)
      * (diotadpsi * IZR Phim / (G + iota * I)
         - (iota * IZR Phim - IZR Phin) / ((G + iota * I) * (G + iota * I))
           * (dGdpsi + diotadpsi * I + iota * dIdpsi)) in
  let denom :=
    q * (G + I * (- alpha * dGdpsi + iota) + alpha * G * dIdpsi)
    + m * v_par / modB * (- dGdpsi * I + G * dIdpsi) in
  let sdot :=
    (- G * dPhidtheta * q + I * dPhidzeta * q
     + modB * q * v_par * (dalphadtheta * G - dalphadzeta * I)
     + (- dmodBdtheta * G + dmodBdzeta * I) * fak1)
    / (denom * psi0) in
  let tdot :=
    (G * q * dPhidpsi
     + modB * q * v_par * (- dalphadpsi * G - alpha * dGdpsi + iota)
     - dGdpsi * m * v_par * v_par + dmodBdpsi * G * fak1)
    / denom in
  let '(d0, d1) := chart_rates axis s theta sdot tdot in
  Ok [d0; d1;
      (- I * (dmodBdpsi * m * mu + dPhidpsi * q)
       + modB * q * v_par * (1 + dalphadpsi * I + alpha * dIdpsi)
       + m * v_par * v_par / modB * (modB * dIdpsi - dmodBdpsi * I))
      / denom;
      (modB * q / m
       * (- m * mu
          * (dmodBdzeta * (1 + dalphadpsi * I + alpha * dIdpsi)
             + dmodBdpsi * (dalphadtheta * G - dalphadzeta * I)
             + dmodBdtheta * (iota - alpha * dGdpsi - dalphadpsi * G))
          - q * (alphadot * (G + I * (iota - alpha * dGdpsi)
                             + alpha * G * dIdpsi)
                 + (dalphadtheta * G - dalphadzeta * I) * dPhidpsi
                 + (iota - alpha * dGdpsi - dalphadpsi * G) * dPhidtheta
                 + (1 + alpha * dIdpsi + dalphadpsi * I) * dPhidzeta))
       + q * v_par / modB
         * ((dmodBdtheta * G - dmodBdzeta * I) * dPhidpsi
            + dmodBdpsi * (I * dPhidzeta - G * dPhidtheta))
       + v_par
         * (m * mu * (dmodBdtheta * dGdpsi - dmodBdzeta * dIdpsi)
            + q * (alphadot * (dGdpsi * I - G * dIdpsi)
                   + dGdpsi * dPhidtheta - dIdpsi * dPhidzeta)))
      / denom;
      1].

(** [GuidingCenterNoKBoozerRHS::operator()] (388-436). *)
Definition GuidingCenterNoKBoozerRHS_call (field : BoozerMagneticField)
    (m q mu : R) (axis : Z) (ys : State) : result State :=
  v_par <- idx ys 3 ;;
  ys0 <- idx ys 0 ;;
  ys1 <- idx ys 1 ;;
  ys2 <- idx ys 2 ;;
  let '(s, theta) := to_canonical axis ys0 ys1 in
  let psi0 := psi0 field in
  let modB := modB_ref field s theta ys2 in
  let G := G_ref field s theta ys2 in
  let I := I_ref field s theta ys2 in
  let dGdpsi := dGds_ref field s theta ys2 / psi0 in
  let dIdpsi := dIds_ref field s theta ys2 / psi0 in
  let iota := iota_ref field s theta ys2 in
  let '(dmodBds, dmodBdtheta, dmodBdzeta) :=
    modB_derivs_ref field s theta ys2 in
  let dmodBdpsi := dmodBds / psi0 in
  let v_perp2 := 2 * mu * modB in
  let fak1 := m * v_par * v_par / modB + m * mu in
  let D :=
    ((q + m * v_par * dIdpsi / modB) * G
     - (- q * iota + m * v_par * dGdpsi / modB) * I) / iota in
  let sdot :=
    (I * dmodBdzeta - G * dmodBdtheta) * fak1 / (D * iota * psi0) in
  let tdot :=
    (G * dmodBdpsi * fak1
     - (- q * iota + m * v_par * dGdpsi / modB) * v_par * modB)
    / (D * iota) in
  let '(d0, d1) := chart_rates axis s theta sdot tdot in
  let d2 :=
    ((q + m * v_par * dIdpsi / modB) * v_par * modB - dmodBdpsi * fak1 * I)
    / (D * iota) in
  Ok [d0; d1; d2;
      - (mu / v_par)
        * (dmodBdpsi * sdot * psi0 + dmodBdtheta * tdot + dmodBdzeta * d2)].

(** [GuidingCenterBoozerRHS::operator()] (468-521). *)
Definition GuidingCenterBoozerRHS_call (field : BoozerMagneticField)
    (m q mu : R) (axis : Z) (ys : State) : result State :=
  v_par <- idx ys 3 ;;
  ys0 <- idx ys 0 ;;
  ys1 <- idx ys 1 ;;
  ys2 <- idx ys 2 ;;
  let '(s, theta) := to_canonical axis ys0 ys1 in
  let psi0 := psi0 field in
  let modB := modB_ref field s theta ys2 in
  let K := K_ref field s theta ys2 in
  let '(dKdtheta, dKdzeta) := K_derivs_ref field s theta ys2 in
  let G := G_ref field s theta ys2 in
  let I := I_ref field s theta ys2 in
  let dGdpsi := dGds_ref field s theta ys2 / psi0 in
  let dIdpsi := dIds_ref field s theta ys2 / psi0 in
  let iota := iota_ref field s theta ys2 in
  let '(dmodBds, dmodBdtheta, dmodBdzeta) :=
    modB_derivs_ref field s theta ys2 in
  let dmodBdpsi := dmodBds / psi0 in
  let v_perp2 := 2 * mu * modB in
  let fak1 := m * v_par * v_par / modB + m * mu in
  let C := - m * v_par * (dKdzeta - dGdpsi) / modB - q * iota in
  let F := - m * v_par * (dKdtheta - dIdpsi) / modB + q in
  let D := (F * G - C * I) / iota in
  let sdot :=
    (I * dmodBdzeta - G * dmodBdtheta) * fak1 / (D * iota * psi0) in
  let tdot :=
    (G * dmodBdpsi * fak1 - C * v_par * modB - K * fak1 * dmodBdzeta)
    / (D * iota) in
  let '(d0, d1) := chart_rates axis s theta sdot tdot in
  let d2 :=
    (F * v_par * modB - dmodBdpsi * fak1 * I + K * fak1 * dmodBdtheta)
    / (D * iota) in
  Ok [d0; d1; d2;
      - (mu / v_par)
        * (dmodBdpsi * sdot * psi0 + dmodBdtheta * tdot + dmodBdzeta * d2)].

(** [FullorbitRHS::operator()] (545-569); [qoverm] is set by the constructor
    (541-542). *)
Definition FullorbitRHS_call (field : MagneticField) (m q : R) (ys : State)
  : result State :=
  let qoverm := q / m in
  x <- idx ys 0 ;;
  y <- idx ys 1 ;;
  z <- idx ys 2 ;;
  vx <- idx ys 3 ;;
  vy <- idx ys 4 ;;
  vz <- idx ys 5 ;;
  let '(r, phi, z') := rphiz x y z in
  let '(Bx, By, Bz) := B_cyl field r phi z' in
  Ok [vx; vy; vz;
      qoverm * (vy * Bz - vz * By);
      qoverm * (vz * Bx - vx * Bz);
      qoverm * (vx * By - vy * Bx)].

(** The call of the right-hand side object, whatever its class. *)
Definition call (rhs : RHS) (ys : State) : result State :=
  match rhs with
  | GuidingCenterVacuumRHS field m q mu =>
    GuidingCenterVacuumRHS_call field m q mu ys
  | GuidingCenterVacuumBoozerRHS field m q mu axis =>
    GuidingCenterVacuumBoozerRHS_call field m q mu axis ys
  | GuidingCenterVacuumBoozerPerturbedRHS field m q mu Phihat omega Phim Phin
      phase axis =>
    GuidingCenterVacuumBoozerPerturbedRHS_call field m q mu Phihat omega Phim
      Phin phase axis ys
  | GuidingCenterNoKBoozerPerturbedRHS field m q mu Phihat omega Phim Phin
      phase axis =>
    GuidingCenterNoKBoozerPerturbedRHS_call field m q mu Phihat omega Phim
      Phin phase axis ys
  | GuidingCenterNoKBoozerRHS field m q mu axis =>
    GuidingCenterNoKBoozerRHS_call field m q mu axis ys
  | GuidingCenterBoozerRHS field m q mu axis =>
    GuidingCenterBoozerRHS_call field m q mu axis ys
  | FullorbitRHS field m q => FullorbitRHS_call field m q ys
  | FieldlineRHS field => FieldlineRHS_call field ys
  end.

(** The field values the Cartesian classes read at the point [(x, y, z)]. *)
Definition B_at (field : MagneticField) (x y z : R) : R * R * R :=
  let '(r, phi, z') := rphiz x y z in B_cyl field r phi z'.

Definition GradAbsB_at (field : MagneticField) (x y z : R) : R * R * R :=
  let '(r, phi, z') := rphiz x y z in GradAbsB_cyl field r phi z'.

Definition AbsB_at (field : MagneticField) (x y z : R) : R :=
  let '(r, phi, z') := rphiz x y z in AbsB_cyl field r phi z'.

(** ** Vocabulary of the statements, continued *)

(** The failures a call may end with. *)
Definition fails_only {A : Type} (P : error -> Prop) (c : result A) : Prop :=
  forall e, c = Err e -> P e.

(** The arrays of a trace have [n] components: the initial state and every
    state the stepper gives back ([RHS::State] is
    [std::array<double, Size>]). *)
Definition sized (B : Boost) (n : nat) (y : State) : Prop :=
  length y = n /\
  (forall d, length (current_state B d) = n) /\
  (forall d t, length (calc_state B d t) = n).

(** An array of at least [m] components, unless reading out of bounds is
    among the failures [P] allowed for. *)
Definition reads_within (P : error -> Prop) (m : nat) (v : list R) : Prop :=
  P OutOfBounds \/ (m <= length v)%nat.

Definition is_some {A : Type} (o : option A) : bool :=
  match o with
  | Some _ => true
  | None => false
  end.

(** How many leading components of a state [solve] reads: four ([y[2]] and
    [y[3]] of a flux trace, [temp[3]] at a vpar plane, [ykeep[0..3]] for a
    stopping criterion), or only the two of [get_phi(y[0], y[1], ...)]. *)
Definition components_read (flux : bool) (vpars : list R)
    (stopping_criteria : list (option StoppingCriterion)) : nat :=
  if flux || nonempty vpars || existsb is_some stopping_criteria
  then 4%nat else 2%nat.

(** The three kinds of event record, each with the position in its list,
    and the kind index [solve] writes for them (714, 754, 775). *)
Inductive kind : Type :=
| PhiPlane (i : nat)
| VparPlane (i : nat)
| Criterion (i : nat).

Definition kind_code (nphis : nat) (k : kind) : R :=
  match k with
  | PhiPlane i => INR i
  | VparPlane i => INR i + INR nphis
  | Criterion i => -1 - INR i
  end.

Definition listed (phis vpars : list R)
    (stopping_criteria : list (option StoppingCriterion)) (k : kind) : Prop :=
  match k with
  | PhiPlane i => (i < length phis)%nat
  | VparPlane i => (i < length vpars)%nat
  | Criterion i => exists c, nth_error stopping_criteria i = Some (Some c)
  end.

(** An event record: the time, the kind index of a plane or criterion of
    the lists, and the state. *)
Definition event_record (phis vpars : list R)
    (stopping_criteria : list (option StoppingCriterion)) (ev : list R)
  : Prop :=
  exists t k ykeep,
    ev = join [t; kind_code (length phis) k] ykeep /\
    listed phis vpars stopping_criteria k.

(** What a plane scan adds, by kind: event records of planes at the
    positions [lo], ..., [hi - 1] of its list and, only when the flag of the
    scan is set, one sample together with [stop]. *)
Definition plane_scan_adds (mk : nat -> kind) (nphis lo hi : nat)
    (armed : bool) (e : out) : Prop :=
  Forall (fun ev => exists t j ykeep,
            ev = join [t; kind_code nphis (mk j)] ykeep /\ (lo <= j < hi)%nat)
    (res_phi_hits e) /\
  ((res e = [] /\ stop e = false) \/
   (armed = true /\ stop e = true /\ exists s, res e = [s])).

(** What the scan of the stopping criteria adds at the state [y]: nothing,
    or the sample and the event record of a criterion of the list, at
    position [i + j], that holds there. *)
Definition criterion_fired (rhs : RHS) (iter : Z) (dt t : R) (y : State)
    (cs : list (option StoppingCriterion)) (i : nat) (e : out) : Prop :=
  e = no_out \/
  exists j crit ykeep k0 k1 k2 k3,
    nth_error cs j = Some (Some crit) /\
    canonical rhs y = Ok ykeep /\
    idx ykeep 0 = Ok k0 /\ idx ykeep 1 = Ok k1 /\
    idx ykeep 2 = Ok k2 /\ idx ykeep 3 = Ok k3 /\
    crit iter dt t k0 k1 k2 k3 = true /\
    e = mkOut [join [t] ykeep]
          [join [t; kind_code 0 (Criterion (i + j))] ykeep] true.

(** Two values of the locals that agree on all but the four that [solve]
    sets from the locals it declares without a value, [vpar_current] and
    [t_current] and their copies [vpar_last] and [t_last]. *)
Definition same_but_unset {B : Boost} (v w : locals B) : Prop :=
  out_ v = out_ w /\ dense_ v = dense_ w /\ t_ v = t_ w /\ y_ v = y_ w /\
  dt_ v = dt_ w /\ iter_ v = iter_ w /\ phi_last_ v = phi_last_ w.

(** Two calls that end alike: with related values, or with the same
    failure. *)
Definition agree {A : Type} (rel : A -> A -> Prop) (c c' : result A) : Prop :=
  match c, c' with
  | Ok a, Ok a' => rel a a'
  | Err e, Err e' => e = e'
  | _, _ => False
  end.
(** ** Facts about the prelude *)

Lemma Rabs_le_between (a b : R) : Rabs a <= b -> - b <= a <= b.
Proof. unfold Rabs. destruct (Rcase_abs a); lra. Qed.

Lemma round_near (x : R) : Rabs (IZR (round x) - x) <= / 2.
Proof.
  unfold round. destruct (Rle_dec 0 x) as [H | H].
  - pose proof (Zfloor_bound (x + / 2)) as B.
    apply Rabs_le. lra.
  - pose proof (Zceil_bound (x - / 2)) as B.
    apply Rabs_le. lra.
Qed.

Lemma atan2_range (y x : R) : - PI < atan2 y x <= PI.
Proof.
  pose proof PI_RGT_0 as Hpi.
  unfold atan2.
  destruct (Rlt_dec 0 x) as [Hx | Hx].
  - pose proof (atan_bound (y / x)). lra.
  - destruct (Rlt_dec x 0) as [Hx' | Hx'].
    + destruct (Rle_dec 0 y) as [Hy | Hy].
      * assert (y / x <= 0) as Hq.
        { unfold Rdiv. pose proof (Rinv_lt_0_compat x Hx'). nra. }
        pose proof (atan_bound (y / x)) as Hb.
        assert (atan (y / x) <= 0) as Ha.
        { destruct Hq as [Hq | Hq].
          - left. rewrite <- atan_0. now apply atan_increasing.
          - rewrite Hq, atan_0. lra. }
        lra.
      * assert (0 < y / x) as Hq.
        { unfold Rdiv. pose proof (Rinv_lt_0_compat x Hx'). nra. }
        pose proof (atan_bound (y / x)) as Hb.
        assert (0 < atan (y / x)) as Ha.
        { rewrite <- atan_0. now apply atan_increasing. }
        lra.
    + destruct (Rlt_dec 0 y); [lra|].
      destruct (Rlt_dec y 0); lra.
Qed.

Lemma phi0_range (x y : R) : 0 <= phi0 x y < 2 * PI.
Proof.
  unfold phi0. pose proof (atan2_range y x) as H.
  destruct (Rlt_dec (atan2 y x) 0); lra.
Qed.

(** ** Phase unwrapping *)

Lemma nearest_multiple_near (r : R) :
  Rabs (IZR (round (r / (2 * PI))) * 2 * PI - r) <= PI.
Proof.
  pose proof PI_RGT_0 as Hpi.
  pose proof (round_near (r / (2 * PI))) as H.
  replace (IZR (round (r / (2 * PI))) * 2 * PI - r)
    with ((IZR (round (r / (2 * PI))) - r / (2 * PI)) * (2 * PI))
    by (field; lra).
  rewrite Rabs_mult, (Rabs_pos_eq (2 * PI)) by lra.
  assert (0 <= Rabs (IZR (round (r / (2 * PI))) - r / (2 * PI)))
    by apply Rabs_pos.
  nra.
Qed.

Lemma get_phi_branch (x y r : R) :
  exists j : Z, (-1 <= j <= 1)%Z /\
    get_phi x y r = phi0 x y + 2 * PI * IZR (round (r / (2 * PI)) + j).
Proof.
  unfold get_phi. fold (phi0 x y).
  set (n := round (r / (2 * PI))).
  cbv zeta.
  destruct (Rle_dec _ _); [exists (-1)%Z | destruct (Rle_dec _ _); [exists 0%Z | exists 1%Z]];
    (split; [lia | rewrite plus_IZR; simpl; ring]).
Qed.

Lemma get_phi_closest_of_three (x y r : R) (j : Z) :
  (-1 <= j <= 1)%Z ->
  Rabs (get_phi x y r - r)
  <= Rabs (phi0 x y + 2 * PI * IZR (round (r / (2 * PI)) + j) - r).
Proof.
  intros Hj.
  assert (j = (-1)%Z \/ j = 0%Z \/ j = 1%Z) as Hc by lia.
  unfold get_phi. fold (phi0 x y).
  set (n := round (r / (2 * PI))).
  cbv zeta.
  set (nm := IZR n * 2 * PI).
  set (d1 := Rabs (nm - 2 * PI + phi0 x y - r)).
  set (d2 := Rabs (nm + phi0 x y - r)).
  set (d3 := Rabs (nm + 2 * PI + phi0 x y - r)).
  assert (Rabs (phi0 x y + 2 * PI * IZR (n + j) - r)
          = if (j =? -1)%Z then d1 else if (j =? 0)%Z then d2 else d3) as ->.
  { destruct Hc as [-> | [-> | ->]]; simpl; unfold d1, d2, d3, nm;
      f_equal; rewrite plus_IZR; simpl; ring. }
  unfold Rmin.
  destruct Hc as [-> | [-> | ->]]; simpl;
    repeat (destruct (Rle_dec _ _)); fold d1 d2 d3; lra.
Qed.

Lemma get_phi_within_pi (x y r : R) : Rabs (get_phi x y r - r) <= PI.
Proof.
  pose proof PI_RGT_0 as Hpi.
  pose proof (phi0_range x y) as Hphi.
  pose proof (nearest_multiple_near r) as Hnm.
  apply Rabs_le_between in Hnm.
  set (n := round (r / (2 * PI))) in *.
  destruct (Rle_dec (phi0 x y + IZR n * 2 * PI - r) PI) as [Hle | Hgt].
  - eapply Rle_trans; [apply (get_phi_closest_of_three x y r 0); lia|].
    fold n. rewrite plus_IZR. simpl. apply Rabs_le. lra.
  - eapply Rle_trans; [apply (get_phi_closest_of_three x y r (-1)); lia|].
    fold n. rewrite plus_IZR. simpl. apply Rabs_le. lra.
Qed.

Lemma get_phi_closest (x y r : R) (k : Z) :
  Rabs (get_phi x y r - r) <= Rabs (phi0 x y + 2 * PI * IZR k - r).
Proof.
  set (n := round (r / (2 * PI))).
  pose proof PI_RGT_0 as Hpi.
  pose proof (phi0_range x y) as Hphi.
  pose proof (nearest_multiple_near r) as Hnm.
  apply Rabs_le_between in Hnm. fold n in Hnm.
  destruct (Z_le_gt_dec (-1) (k - n)) as [Hlo | Hlo];
    [destruct (Z_le_gt_dec (k - n) 1) as [Hhi | Hhi]|].
  - replace k with (n + (k - n))%Z by lia.
    apply get_phi_closest_of_three. lia.
  - (* k at least two branches above *)
    eapply Rle_trans; [apply get_phi_within_pi|].
    assert (IZR n + 2 <= IZR k) as Hk.
    { rewrite <- (plus_IZR n 2). apply IZR_le. lia. }
    eapply Rle_trans; [|apply Rle_abs]. nra.
  - (* k at least two branches below *)
    eapply Rle_trans; [apply get_phi_within_pi|].
    assert (IZR k <= IZR n - 2) as Hk.
    { rewrite <- (minus_IZR n 2). apply IZR_le. lia. }
    rewrite <- Rabs_Ropp.
    eapply Rle_trans; [|apply Rle_abs]. nra.
Qed.

(** C10: [get_phi x y ref] is [phi0 + 2 PI k] for an integer [k], where
    [phi0] is [atan2(y, x)] shifted into [0, 2 PI); no other branch is
    closer to [ref]; and so [|get_phi(cos a, sin a, r) - r| <= PI] for all
    reals [a] and [r]. *)
Theorem get_phi_nearest_branch :
  (forall x y r : R,
      0 <= phi0 x y < 2 * PI /\
      (exists k : Z, get_phi x y r = phi0 x y + 2 * PI * IZR k) /\
      (forall k : Z,
          Rabs (get_phi x y r - r) <= Rabs (phi0 x y + 2 * PI * IZR k - r))) /\
  (forall a r : R, Rabs (get_phi (cos a) (sin a) r - r) <= PI).
Proof.
  split; [|intros; apply get_phi_within_pi].
  intros x y r. split; [apply phi0_range|]. split.
  - destruct (get_phi_branch x y r) as (j & _ & Hj). eauto.
  - apply get_phi_closest.
Qed.

(** ** Coordinate charts: the round trip *)

Lemma norm2_pos (x y : R) : (x <> 0 \/ y <> 0) -> 0 < x ^ 2 + y ^ 2.
Proof. intros [H | H]; nra. Qed.

Lemma sqrt_one_plus_quot (x y : R) :
  0 < x -> sqrt (1 + (y / x)²) = sqrt (x ^ 2 + y ^ 2) / x.
Proof.
  intros Hx.
  assert (0 < x ^ 2 + y ^ 2) as Hn by (apply norm2_pos; lra).
  pose proof (sqrt_lt_R0 _ Hn) as Hs.
  apply sqrt_lem_1.
  - unfold Rsqr. nra.
  - unfold Rdiv. pose proof (Rinv_0_lt_compat x Hx). nra.
  - unfold Rsqr, Rdiv.
    replace (sqrt (x ^ 2 + y ^ 2) * / x * (sqrt (x ^ 2 + y ^ 2) * / x))
      with ((sqrt (x ^ 2 + y ^ 2) * sqrt (x ^ 2 + y ^ 2)) * (/ x * / x)) by ring.
    rewrite sqrt_sqrt by lra. field. lra.
Qed.

Lemma cos_sin_atan_pos (x y : R) :
  0 < x ->
  cos (atan (y / x)) = x / sqrt (x ^ 2 + y ^ 2) /\
  sin (atan (y / x)) = y / sqrt (x ^ 2 + y ^ 2).
Proof.
  intros Hx.
  assert (0 < x ^ 2 + y ^ 2) as Hn by (apply norm2_pos; lra).
  pose proof (sqrt_lt_R0 _ Hn) as Hs.
  rewrite cos_atan, sin_atan, sqrt_one_plus_quot by assumption.
  split; field; lra.
Qed.

Lemma cos_sin_atan2 (x y : R) :
  (x <> 0 \/ y <> 0) ->
  cos (atan2 y x) = x / sqrt (x ^ 2 + y ^ 2) /\
  sin (atan2 y x) = y / sqrt (x ^ 2 + y ^ 2).
Proof.
  intros Hxy.
  pose proof (norm2_pos x y Hxy) as Hn.
  pose proof (sqrt_lt_R0 _ Hn) as Hs.
  unfold atan2.
  destruct (Rlt_dec 0 x) as [Hx | Hx]; [now apply cos_sin_atan_pos|].
  destruct (Rlt_dec x 0) as [Hx' | Hx'].
  - assert (y / x = (- y) / (- x)) as Hq by (field; lra).
    destruct (cos_sin_atan_pos (- x) (- y)) as [Hc Hsn]; [lra|].
    rewrite <- Hq in Hc, Hsn.
    replace ((- x) ^ 2 + (- y) ^ 2) with (x ^ 2 + y ^ 2) in Hc, Hsn by ring.
    destruct (Rle_dec 0 y).
    + rewrite neg_cos, neg_sin, Hc, Hsn. split; field; lra.
    + rewrite cos_minus, sin_minus, cos_PI, sin_PI, Hc, Hsn.
      split; field; lra.
  - assert (x = 0) as -> by lra.
    replace (0 ^ 2 + y ^ 2) with (y ^ 2) in * by ring.
    destruct (Rlt_dec 0 y) as [Hy | Hy].
    + rewrite cos_PI2, sin_PI2, sqrt_pow2 by lra. split; field; lra.
    + destruct (Rlt_dec y 0) as [Hy' | Hy']; [|lra].
      rewrite cos_neg, sin_neg, cos_PI2, sin_PI2.
      replace (y ^ 2) with ((- y) ^ 2) by ring.
      rewrite sqrt_pow2 by lra. split; field; lra.
Qed.

Lemma same_cos_sin (a b : R) :
  cos a = cos b -> sin a = sin b -> exists k : Z, a = b + 2 * PI * IZR k.
Proof.
  intros Hc Hs.
  assert (cos (a - b) = 1) as H1.
  { rewrite cos_minus, Hc, Hs.
    pose proof (sin2_cos2 b) as H. unfold Rsqr in H. lra. }
  assert (sin ((a - b) / 2) = 0) as H0.
  { replace (a - b) with (2 * ((a - b) / 2)) in H1 by field.
    rewrite cos_2a_sin in H1. nra. }
  destruct (sin_eq_0_0 _ H0) as [k Hk].
  exists k. lra.
Qed.

Lemma atan2_polar (r theta : R) :
  0 < r ->
  exists k : Z, atan2 (r * sin theta) (r * cos theta) = theta + 2 * PI * IZR k.
Proof.
  intros Hr.
  assert (r * cos theta <> 0 \/ r * sin theta <> 0) as Hne.
  { destruct (cos_sin_0_var theta) as [H | H]; [left | right]; nra. }
  destruct (cos_sin_atan2 _ _ Hne) as [Hc Hs].
  assert (sqrt ((r * cos theta) ^ 2 + (r * sin theta) ^ 2) = r) as Hn.
  { replace ((r * cos theta) ^ 2 + (r * sin theta) ^ 2)
      with (r ^ 2 * ((sin theta)² + (cos theta)²)) by (unfold Rsqr; ring).
    rewrite sin2_cos2, Rmult_1_r. apply sqrt_pow2. lra. }
  rewrite Hn in Hc, Hs.
  apply same_cos_sin.
  - rewrite Hc. field. lra.
  - rewrite Hs. field. lra.
Qed.

(** C9: for each chart 0, 1, 2 and every [s > 0] and [theta], mapping
    [(s, theta)] to the chart and back gives [s] again and [theta] up to an
    integer multiple of [2 PI]. *)
Theorem chart_round_trip (c : Z) (s theta : R) :
  (c = 0 \/ c = 1 \/ c = 2)%Z ->
  0 < s ->
  let '(y0, y1) := from_canonical c s theta in
  let '(s', theta') := to_canonical c y0 y1 in
  s' = s /\ exists k : Z, theta' = theta + 2 * PI * IZR k.
Proof.
  intros Hc Hs.
  destruct Hc as [-> | [-> | ->]];
    unfold from_canonical, to_canonical; cbn [Z.eqb Pos.eqb].
  - split; [reflexivity|]. exists 0%Z. lra.
  - split.
    + replace ((sqrt s * cos theta) ^ 2 + (sqrt s * sin theta) ^ 2)
        with ((sqrt s * sqrt s) * ((sin theta)² + (cos theta)²))
        by (unfold Rsqr; ring).
      rewrite sin2_cos2, sqrt_sqrt; lra.
    + apply atan2_polar. now apply sqrt_lt_R0.
  - split.
    + replace ((s * cos theta) ^ 2 + (s * sin theta) ^ 2)
        with (s ^ 2 * ((sin theta)² + (cos theta)²)) by (unfold Rsqr; ring).
      rewrite sin2_cos2, Rmult_1_r. apply sqrt_pow2. lra.
    + now apply atan2_polar.
Qed.

Lemma chart_round_trip_witness :
  let '(y0, y1) := from_canonical 1 1 0 in
  let '(s', theta') := to_canonical 1 y0 y1 in
  s' = 1 /\ exists k : Z, theta' = 0 + 2 * PI * IZR k.
Proof. apply (chart_round_trip 1 1 0); [lia | lra]. Defined.

(** ** The error monad and the output record *)

Lemma bind_Ok {A C : Type} (c : result A) (k : A -> result C) (r : C) :
  bind c k = Ok r -> exists a, c = Ok a /\ k a = Ok r.
Proof. destruct c as [a | e]; simpl; [eauto | discriminate]. Qed.

Lemma app_out_no_out (o : out) : app_out o no_out = o.
Proof.
  destruct o as [r h s]. unfold app_out, no_out. simpl.
  now rewrite !app_nil_r, orb_false_r.
Qed.

Lemma no_out_app_out (e : out) : app_out no_out e = e.
Proof. now destruct e. Qed.

Lemma app_out_assoc (o e f : out) :
  app_out (app_out o e) f = app_out o (app_out e f).
Proof.
  unfold app_out. simpl. now rewrite <- !app_assoc, orb_assoc.
Qed.

Lemma push_res_app_out (o e : out) (row : list R) :
  push_res (app_out o e) row = app_out o (push_res e row).
Proof. unfold push_res, app_out. simpl. now rewrite app_assoc. Qed.

Lemma push_hit_app_out (o e : out) (row : list R) :
  push_hit (app_out o e) row = app_out o (push_hit e row).
Proof. unfold push_hit, app_out. simpl. now rewrite app_assoc. Qed.

Lemma set_stop_app_out (o e : out) :
  set_stop (app_out o e) = app_out o (set_stop e).
Proof. unfold set_stop, app_out. simpl. now rewrite orb_true_r. Qed.

Lemma push_res_as_app (o : out) (row : list R) :
  push_res o row = app_out o (mkOut [row] [] false).
Proof.
  unfold push_res, app_out. simpl. now rewrite app_nil_r, orb_false_r.
Qed.

Lemma timed_weaken (a b a' b' : R) (row : list R) :
  a' <= a -> b <= b' -> timed a b row -> timed a' b' row.
Proof.
  intros Ha Hb (tau & rest & -> & Ht). exists tau, rest. split; [easy | lra].
Qed.

(** ** The scans only add to what was there *)

Section Scans.

Variable B : Boost.
Variable rhs : RHS.
Variable abstol : R.
Variables phis omegas : list R.
Variables phis_stop vpars_stop flux : bool.

Lemma scan_vpars_frame d tlast tcurrent vl vc vs : forall i o e0,
  scan_vpars B rhs abstol phis vpars_stop d tlast tcurrent vl vc i vs
    (app_out o e0)
  = (e <- scan_vpars B rhs abstol phis vpars_stop d tlast tcurrent vl vc i
           vs e0 ;;
     Ok (app_out o e)).
Proof.
  induction vs as [| vpar vs IH]; intros i o e0; [reflexivity|].
  cbn [scan_vpars].
  destruct (crossed vl vc vpar); [|apply IH].
  destruct (refine_root _ _ _ _ _ _ _ _ _) as [[troot ykeep] | err];
    [|reflexivity].
  cbn [bind]. rewrite push_hit_app_out.
  destruct vpars_stop.
  - cbn [bind]. now rewrite push_res_app_out, set_stop_app_out.
  - apply IH.
Qed.

Lemma scan_phis_frame d tlast tcurrent pl pc tl tc ps : forall i o e0,
  scan_phis B rhs abstol omegas phis_stop flux d tlast tcurrent pl pc tl tc
    i ps (app_out o e0)
  = (e <- scan_phis B rhs abstol omegas phis_stop flux d tlast tcurrent pl
           pc tl tc i ps e0 ;;
     Ok (app_out o e)).
Proof.
  induction ps as [| phi ps IH]; intros i o e0; [reflexivity|].
  cbn [scan_phis].
  destruct (idx omegas i) as [omega | err]; [|reflexivity].
  cbn [bind].
  destruct (plane_crossed _ _ _ _); [|apply IH].
  destruct (between _ _ _); [|reflexivity].
  destruct (refine_root _ _ _ _ _ _ _ _ _) as [[troot ykeep] | err];
    [|reflexivity].
  cbn [bind]. rewrite push_hit_app_out.
  destruct phis_stop.
  - cbn [bind]. now rewrite push_res_app_out, set_stop_app_out.
  - apply IH.
Qed.

Lemma scan_criteria_frame iter dt t y cs : forall i o e0,
  scan_criteria rhs iter dt t y i cs (app_out o e0)
  = (e <- scan_criteria rhs iter dt t y i cs e0 ;; Ok (app_out o e)).
Proof.
  induction cs as [| c cs IH]; intros i o e0; [reflexivity|].
  cbn [scan_criteria].
  destruct (canonical rhs y) as [ykeep | err]; [|reflexivity].
  cbn [bind].
  destruct c as [criterion |]; [|apply IH].
  destruct (idx ykeep 0) as [k0 | err]; [|reflexivity].
  destruct (idx ykeep 1) as [k1 | err]; [|reflexivity].
  destruct (idx ykeep 2) as [k2 | err]; [|reflexivity].
  destruct (idx ykeep 3) as [k3 | err]; [|reflexivity].
  cbn [bind].
  destruct (criterion _ _ _ _ _ _ _); [|apply IH].
  cbn [bind].
  now rewrite set_stop_app_out, push_res_app_out, push_hit_app_out.
Qed.

End Scans.

(** ** What each scan emits *)

Section Emits.

Variable B : Boost.
Variable rhs : RHS.
Variable abstol : R.
Variables phis omegas : list R.
Variables phis_stop vpars_stop flux : bool.
Hypothesis WB : well_behaved B rhs.

Lemma refine_root_time d f a b fa fb troot ykeep :
  a <= b ->
  refine_root B rhs abstol d f a b fa fb = Ok (troot, ykeep) ->
  a <= troot <= b.
Proof.
  intros Hab H. unfold refine_root in H.
  apply bind_Ok in H as (root & Hroot & H).
  destruct (toms748_solve _ _ _ _ _ _ _ _) as [root' |] eqn:Hsolve;
    [injection Hroot as -> | discriminate].
  apply bind_Ok in H as (f0 & _ & H).
  apply bind_Ok in H as (f1 & _ & H).
  apply bind_Ok in H as (yk & _ & H).
  injection H as <- _.
  destruct (wb_toms748 _ _ WB _ _ _ _ _ _ _ _ Hab Hsolve) as [H1 H2].
  now destruct (Rlt_dec _ _).
Qed.

Lemma emits_no_out a b armed : emits a b armed no_out.
Proof. split; [constructor | now left]. Qed.

Lemma emits_armed a b (armed armed' : bool) e :
  (armed = true -> armed' = true) -> emits a b armed e -> emits a b armed' e.
Proof.
  intros Himp [Hh [Hq | (Ha & Hs & Hr)]]; (split; [assumption|]).
  - now left.
  - right. auto.
Qed.

Lemma emits_stop_hit a b armed row s :
  timed a b row -> timed a b s -> armed = true ->
  emits a b armed (set_stop (push_res (push_hit no_out row) s)).
Proof.
  intros Hrow Hs Ha. split; cbn.
  - now constructor.
  - right. repeat split; eauto.
Qed.

Lemma emits_hit_then a b armed row e :
  timed a b row -> emits a b armed e ->
  emits a b armed (app_out (push_hit no_out row) e).
Proof.
  intros Hrow [Hh Hq]. split; cbn.
  - now constructor.
  - exact Hq.
Qed.

Lemma scan_vpars_emits d a b vl vc vs : forall i e,
  a <= b ->
  scan_vpars B rhs abstol phis vpars_stop d a b vl vc i vs no_out = Ok e ->
  emits a b (vpars_stop && nonempty vs) e.
Proof.
  induction vs as [| vpar vs IH]; intros i e Hab H.
  - injection H as <-. apply emits_no_out.
  - cbn [scan_vpars] in H.
    destruct (crossed vl vc vpar).
    + apply bind_Ok in H as ([troot ykeep] & Hr & H).
      pose proof (refine_root_time _ _ _ _ _ _ _ _ Hab Hr) as Ht.
      destruct vpars_stop eqn:Hstop.
      * injection H as <-.
        apply emits_stop_hit; [eexists _, _ | eexists _, _ |]; eauto.
      * rewrite <- (app_out_no_out (push_hit _ _)) in H.
        rewrite scan_vpars_frame in H.
        apply bind_Ok in H as (e1 & He1 & H). injection H as <-.
        apply emits_hit_then; [eexists _, _; eauto|].
        apply (emits_armed _ _ (false && nonempty vs)); [discriminate|].
        rewrite ?Hstop in He1. eapply IH; eauto.
    + apply (emits_armed _ _ (vpars_stop && nonempty vs)).
      * now intros [-> _]%andb_prop.
      * eapply IH; eauto.
Qed.

Lemma scan_phis_emits d a b pl pc tl tc ps : forall i e,
  a <= b ->
  scan_phis B rhs abstol omegas phis_stop flux d a b pl pc tl tc i ps no_out
    = Ok e ->
  emits a b (phis_stop && nonempty ps) e.
Proof.
  induction ps as [| phi ps IH]; intros i e Hab H.
  - injection H as <-. apply emits_no_out.
  - cbn [scan_phis] in H.
    apply bind_Ok in H as (omega & _ & H).
    destruct (plane_crossed _ _ _ _).
    + destruct (between _ _ _); [|discriminate].
      apply bind_Ok in H as ([troot ykeep] & Hr & H).
      pose proof (refine_root_time _ _ _ _ _ _ _ _ Hab Hr) as Ht.
      destruct phis_stop eqn:Hstop.
      * injection H as <-.
        apply emits_stop_hit; [eexists _, _ | eexists _, _ |]; eauto.
      * rewrite <- (app_out_no_out (push_hit _ _)) in H.
        rewrite scan_phis_frame in H.
        apply bind_Ok in H as (e1 & He1 & H). injection H as <-.
        apply emits_hit_then; [eexists _, _; eauto|].
        apply (emits_armed _ _ (false && nonempty ps)); [discriminate|].
        rewrite ?Hstop in He1. eapply IH; eauto.
    + apply (emits_armed _ _ (phis_stop && nonempty ps)).
      * now intros [-> _]%andb_prop.
      * eapply IH; eauto.
Qed.

Lemma scan_criteria_emits iter dt t y cs : forall i e,
  scan_criteria rhs iter dt t y i cs no_out = Ok e ->
  emits t t (nonempty cs) e.
Proof.
  induction cs as [| c cs IH]; intros i e H.
  - injection H as <-. apply emits_no_out.
  - cbn [scan_criteria] in H.
    apply bind_Ok in H as (ykeep & _ & H).
    destruct c as [criterion |].
    + apply bind_Ok in H as (k0 & _ & H).
      apply bind_Ok in H as (k1 & _ & H).
      apply bind_Ok in H as (k2 & _ & H).
      apply bind_Ok in H as (k3 & _ & H).
      destruct (criterion _ _ _ _ _ _ _).
      * injection H as <-. split; cbn.
        -- constructor; [|constructor]. eexists _, _. split; eauto. lra.
        -- right. repeat split. eexists. split; eauto.
           eexists _, _. split; eauto. lra.
      * apply (emits_armed _ _ (nonempty cs)); [easy|]. eapply IH; eauto.
    + apply (emits_armed _ _ (nonempty cs)); [easy|]. eapply IH; eauto.
Qed.

End Emits.

Lemma Reqb_refl (x : R) : Reqb x x = true.
Proof. unfold Reqb. now destruct (Req_dec_T x x). Qed.

Lemma Reqb_false (x y : R) : x <> y -> Reqb x y = false.
Proof. intros H. unfold Reqb. now destruct (Req_dec_T x y). Qed.

Lemma Rltb_true (x y : R) : x < y -> Rltb x y = true.
Proof. intros H. unfold Rltb. now destruct (Rlt_dec x y). Qed.

Lemma Rltb_false (x y : R) : ~ x < y -> Rltb x y = false.
Proof. intros H. unfold Rltb. now destruct (Rlt_dec x y). Qed.

Lemma Rltb_lt (x y : R) : Rltb x y = true -> x < y.
Proof. unfold Rltb. now destruct (Rlt_dec x y). Qed.

Lemma Rltb_ge (x y : R) : Rltb x y = false -> y <= x.
Proof. unfold Rltb. destruct (Rlt_dec x y); [discriminate | lra]. Qed.

Lemma idx_lt (v : list R) (i : nat) :
  (i < length v)%nat -> exists x, idx v i = Ok x.
Proof.
  intros H. unfold idx.
  destruct (nth_error v i) eqn:E; [eauto|].
  apply nth_error_None in E. lia.
Qed.

Lemma idx_ge (v : list R) (i : nat) :
  (length v <= i)%nat -> idx v i = Err OutOfBounds.
Proof.
  intros H. unfold idx. now apply nth_error_None in H as ->.
Qed.

(** ** Scans that add nothing *)

Section Quiet.

Variable B : Boost.
Variable rhs : RHS.
Variable abstol : R.
Variables omegas : list R.
Variables phis_stop flux : bool.

(** On the first pass [t_last] is 0 and no phi plane is examined. *)
Lemma scan_phis_first d a b pl pc tc ps : forall i o e,
  scan_phis B rhs abstol omegas phis_stop flux d a b pl pc 0 tc i ps o = Ok e ->
  e = o.
Proof.
  induction ps as [| phi ps IH]; intros i o e H.
  - now injection H as <-.
  - cbn [scan_phis] in H. apply bind_Ok in H as (omega & _ & H).
    unfold plane_crossed in H. rewrite Reqb_refl in H.
    cbn [negb andb] in H. eauto.
Qed.

Lemma scan_phis_first_ok d a b pl pc tc ps : forall i o,
  (i + length ps <= length omegas)%nat ->
  scan_phis B rhs abstol omegas phis_stop flux d a b pl pc 0 tc i ps o = Ok o.
Proof.
  induction ps as [| phi ps IH]; intros i o H; [reflexivity|].
  cbn [scan_phis]. cbn [length] in H.
  destruct (idx_lt omegas i) as [omega ->]; [lia|].
  cbn [bind]. unfold plane_crossed. rewrite Reqb_refl. cbn [negb andb].
  apply IH. lia.
Qed.

Lemma scan_criteria_silent iter dt t y cs : forall i o e,
  Forall silent cs ->
  scan_criteria rhs iter dt t y i cs o = Ok e -> e = o.
Proof.
  induction cs as [| c cs IH]; intros i o e Hs H.
  - now injection H as <-.
  - inversion Hs as [| ? ? Hc Hcs]; subst.
    cbn [scan_criteria] in H. apply bind_Ok in H as (ykeep & _ & H).
    destruct c as [criterion |]; [|eauto].
    apply bind_Ok in H as (k0 & _ & H).
    apply bind_Ok in H as (k1 & _ & H).
    apply bind_Ok in H as (k2 & _ & H).
    apply bind_Ok in H as (k3 & _ & H).
    rewrite (Hc criterion eq_refl) in H. eauto.
Qed.

Lemma scan_criteria_emission iter dt t y cs : forall i e,
  scan_criteria rhs iter dt t y i cs no_out = Ok e -> criterion_emission t e.
Proof.
  induction cs as [| c cs IH]; intros i e H.
  - injection H as <-. now left.
  - cbn [scan_criteria] in H. apply bind_Ok in H as (ykeep & _ & H).
    destruct c as [criterion |]; [|eauto].
    apply bind_Ok in H as (k0 & _ & H).
    apply bind_Ok in H as (k1 & _ & H).
    apply bind_Ok in H as (k2 & _ & H).
    apply bind_Ok in H as (k3 & _ & H).
    destruct (criterion _ _ _ _ _ _ _); [|eauto].
    injection H as <-. right. now exists i, ykeep.
Qed.

End Quiet.

(** ** The assertion at 731, over the integers *)

Lemma round_between (u w : R) :
  u <= w -> (Zfloor u < Zfloor w)%Z ->
  u <= IZR (round ((u + w) / 2)) <= w.
Proof.
  intros Huw Hfl.
  pose proof (round_near ((u + w) / 2)) as Hn.
  apply Rabs_le_between in Hn.
  destruct (Rle_dec 1 (w - u)) as [Hwide | Hnarrow]; [lra|].
  pose proof (Zfloor_bound u) as Hu.
  pose proof (Zfloor_bound w) as Hw.
  assert (IZR (Zfloor u) + 1 <= IZR (Zfloor w)) as Hj.
  { rewrite <- (plus_IZR _ 1). apply IZR_le. lia. }
  assert (round ((u + w) / 2) = Zfloor w) as ->; [|lra].
  assert (IZR (round ((u + w) / 2)) - IZR (Zfloor w) < 1) as H1 by lra.
  assert (IZR (Zfloor w) - IZR (round ((u + w) / 2)) < 1) as H2 by lra.
  rewrite <- minus_IZR in H1, H2. apply lt_IZR in H1, H2. lia.
Qed.

Lemma crossing_between (phase_last phase_current phi : R) :
  floor ((phase_last - phi) / (2 * PI))
  <> floor ((phase_current - phi) / (2 * PI)) ->
  between phase_last
    (IZR (round (((phase_last + phase_current) / 2 - phi) / (2 * PI)))
     * 2 * PI + phi)
    phase_current = true.
Proof.
  intros Hfl. pose proof PI_RGT_0 as Hpi.
  set (u := (phase_last - phi) / (2 * PI)) in *.
  set (w := (phase_current - phi) / (2 * PI)) in *.
  replace (((phase_last + phase_current) / 2 - phi) / (2 * PI))
    with ((u + w) / 2) by (unfold u, w; field; lra).
  assert (phase_last = u * (2 * PI) + phi) as Hl by (unfold u; field; lra).
  assert (phase_current = w * (2 * PI) + phi) as Hc
    by (unfold w; field; lra).
  unfold floor in Hfl. unfold between, Rleb.
  destruct (Rle_dec u w) as [Huw | Hwu].
  - assert (Zfloor u < Zfloor w)%Z as Hlt
      by (pose proof (Zfloor_le _ _ Huw); lia).
    pose proof (round_between u w Huw Hlt) as [H1 H2].
    destruct (Rle_dec phase_last _) as [_ | Hn]; [|exfalso; apply Hn; nra].
    destruct (Rle_dec _ phase_current) as [_ | Hn];
      [reflexivity | exfalso; apply Hn; nra].
  - assert (w <= u) as Hwu' by lra.
    assert (Zfloor w < Zfloor u)%Z as Hlt
      by (pose proof (Zfloor_le _ _ Hwu'); lia).
    pose proof (round_between w u Hwu' Hlt) as [H1 H2].
    replace ((u + w) / 2) with ((w + u) / 2) by lra.
    destruct (Rle_dec phase_current _) as [_ | Hn]; [|exfalso; apply Hn; nra].
    destruct (Rle_dec _ phase_last) as [_ | Hn];
      [now rewrite orb_true_r | exfalso; apply Hn; nra].
Qed.

(** So the condition of the [assert] holds of the expression over the
    integers on every plane the scan takes as crossed. *)
Lemma crossed_plane_between (t_last phase_last phase_current phi : R) :
  plane_crossed t_last phase_last phase_current phi = true ->
  between phase_last
    (IZR (round (((phase_last + phase_current) / 2 - phi) / (2 * PI)))
     * 2 * PI + phi)
    phase_current = true.
Proof.
  unfold plane_crossed. intros [_ H]%andb_prop.
  apply crossing_between. apply negb_true_iff, Z.eqb_neq in H. exact H.
Qed.

(** ** The [int] of line 729 *)

Lemma to_int_in_range (z : Z) :
  (- 2 ^ 31 <= z < 2 ^ 31)%Z -> to_int z = z.
Proof.
  intros H. unfold to_int. rewrite Z.mod_small; lia.
Qed.

Lemma to_int_range (z : Z) : (- 2 ^ 31 <= to_int z < 2 ^ 31)%Z.
Proof.
  unfold to_int.
  pose proof (Z.mod_pos_bound (z + 2 ^ 31) (2 ^ 32) ltac:(lia)). lia.
Qed.

(** As long as [fak] and [fak*2] fit an [int], [phase_shift] is the value
    of the expression over the integers. *)
Lemma phase_shift_in_range (phase_last phase_current phi : R) :
  (- 2 ^ 30 <= round (((phase_last + phase_current) / 2 - phi) / (2 * PI))
   < 2 ^ 30)%Z ->
  phase_shift phase_last phase_current phi
  = IZR (round (((phase_last + phase_current) / 2 - phi) / (2 * PI)))
    * 2 * PI + phi.
Proof.
  intros H. unfold phase_shift.
  rewrite (to_int_in_range (round _)) by lia.
  rewrite to_int_in_range by lia.
  rewrite mult_IZR. ring.
Qed.

Lemma crossed_plane_between_in_range
    (t_last phase_last phase_current phi : R) :
  plane_crossed t_last phase_last phase_current phi = true ->
  (- 2 ^ 30 <= round (((phase_last + phase_current) / 2 - phi) / (2 * PI))
   < 2 ^ 30)%Z ->
  between phase_last (phase_shift phase_last phase_current phi)
    phase_current = true.
Proof.
  intros Hc Hr. rewrite phase_shift_in_range by exact Hr.
  exact (crossed_plane_between _ _ _ _ Hc).
Qed.

(** ** One pass of the loop *)

Section Body.

Variable B : Boost.
Variable rhs : RHS.
Variables tmax abstol : R.
Variables phis omegas : list R.
Variable stopping_criteria : list (option StoppingCriterion).
Variable vpars : list R.
Variables phis_stop vpars_stop flux forget_exact_path : bool.
Hypothesis WB : well_behaved B rhs.

Local Abbreviation body' :=
  (body B rhs abstol phis omegas stopping_criteria vpars phis_stop
     vpars_stop flux forget_exact_path).
Local Abbreviation loop' :=
  (loop B rhs tmax abstol phis omegas stopping_criteria vpars phis_stop
     vpars_stop flux forget_exact_path).

Lemma body_spec v v' :
  body' v = Ok v' ->
  exists base e_v e_p e_c,
    head_sample rhs forget_exact_path v base /\
    out_ v' = app_out (app_out (app_out base e_v) e_p) e_c /\
    dense_ v' = fst (do_step B rhs (dense_ v)) /\
    t_ v' = current_time B (dense_ v') /\
    iter_ v' = (iter_ v + 1)%Z /\
    emits (current_time B (dense_ v)) (t_ v')
      (vpars_stop && nonempty vpars) e_v /\
    emits (current_time B (dense_ v)) (t_ v')
      (phis_stop && nonempty phis) e_p /\
    emits (t_ v') (t_ v') (nonempty stopping_criteria) e_c /\
    (vpars = [] -> e_v = no_out) /\
    (t_last_ v = 0 -> e_p = no_out) /\
    (Forall silent stopping_criteria -> e_c = no_out) /\
    criterion_emission (t_ v') e_c.
Proof.
  intros H. unfold body, push_head, advance in H.
  apply bind_Ok in H as (base & Hbase & H).
  pose proof (wb_do_step _ _ WB (dense_ v)) as (Ha & Hb & Hlt).
  destruct (do_step B rhs (dense_ v)) as [d [a b]] eqn:Hstep.
  cbn [fst snd] in Ha, Hb, Hlt.
  apply bind_Ok in H as ([[tc pc] vc] & _ & H).
  rewrite <- (app_out_no_out base), scan_vpars_frame in H.
  apply bind_Ok in H as (o1 & Ho1 & H).
  apply bind_Ok in Ho1 as (e_v & He_v & Ho1). injection Ho1 as <-.
  rewrite <- (app_out_no_out (app_out _ e_v)), scan_phis_frame in H.
  apply bind_Ok in H as (o2 & Ho2 & H).
  apply bind_Ok in Ho2 as (e_p & He_p & Ho2). injection Ho2 as <-.
  rewrite <- (app_out_no_out (app_out _ e_p)), scan_criteria_frame in H.
  apply bind_Ok in H as (o3 & Ho3 & H).
  apply bind_Ok in Ho3 as (e_c & He_c & Ho3). injection Ho3 as <-.
  injection H as <-. cbn [out_ dense_ t_ iter_ y_].
  exists base, e_v, e_p, e_c.
  assert (a <= b) as Hab by lra.
  subst a.
  split; [|split; [reflexivity|split; [reflexivity|split; [reflexivity|
    split; [reflexivity|split; [|split; [|split; [|split; [|split; [|split]]]]]]]]]].
  - unfold head_sample.
    destruct (negb forget_exact_path || Reqb (t_ v) 0).
    + apply bind_Ok in Hbase as (ykeep & Hk & Hbase).
      injection Hbase as <-. eauto.
    + now injection Hbase as <-.
  - rewrite <- Hb. eapply scan_vpars_emits; eauto.
  - rewrite <- Hb. eapply scan_phis_emits; eauto.
  - eapply scan_criteria_emits; eauto.
  - intros ->. now injection He_v as <-.
  - intros Ht. rewrite Ht in He_p. eapply scan_phis_first; eauto.
  - intros Hs. eapply scan_criteria_silent; eauto.
  - eapply scan_criteria_emission; eauto.
Qed.

End Body.

(** ** The loop *)

Section Loop.

Variable B : Boost.
Variable rhs : RHS.
Variables tmax abstol : R.
Variables phis omegas : list R.
Variable stopping_criteria : list (option StoppingCriterion).
Variable vpars : list R.
Variables phis_stop vpars_stop flux forget_exact_path : bool.

Local Abbreviation body' :=
  (body B rhs abstol phis omegas stopping_criteria vpars phis_stop
     vpars_stop flux forget_exact_path).
Local Abbreviation loop' :=
  (loop B rhs tmax abstol phis omegas stopping_criteria vpars phis_stop
     vpars_stop flux forget_exact_path).

(** A property of the locals at the head of every pass holds at the head of
    the last one, and the loop returns what that pass produces. *)
Lemma loop_last (P : locals B -> Prop) :
  (forall v v', P v -> body' v = Ok v' ->
     Rltb (t_ v') tmax && negb (stop (out_ v')) = true -> P v') ->
  forall fuel v vf,
    P v -> loop' fuel v = Ok vf ->
    exists vl, P vl /\ body' vl = Ok vf /\
               Rltb (t_ vf) tmax && negb (stop (out_ vf)) = false.
Proof.
  intros Hstep. induction fuel as [| fuel IH]; intros v vf Hv H.
  - discriminate.
  - cbn [loop] in H. apply bind_Ok in H as (v' & Hb & H).
    destruct (Rltb (t_ v') tmax && negb (stop (out_ v'))) eqn:Hc.
    + apply (IH v' vf); [eapply Hstep; eauto | assumption].
    + injection H as <-. eauto.
Qed.

(** Once [stop] is set the loop is left: no later pass is made. *)
Lemma loop_stops fuel v v' :
  body' v = Ok v' -> stop (out_ v') = true -> loop' (S fuel) v = Ok v'.
Proof.
  intros Hb Hs. cbn [loop]. rewrite Hb. cbn [bind].
  now rewrite Hs, andb_false_r.
Qed.

End Loop.


(** ** Event times *)

Lemma head_sample_keeps {B : Boost} rhs forget (v : locals B) base :
  head_sample rhs forget v base ->
  res_phi_hits base = res_phi_hits (out_ v) /\ stop base = stop (out_ v).
Proof.
  unfold head_sample. destruct (_ || _).
  - now intros (ykeep & _ & ->).
  - now intros ->.
Qed.

Lemma leave_hits {B : Boost} rhs tmax (v : locals B) r h :
  leave B rhs tmax v = Ok (r, h) -> h = res_phi_hits (out_ v).
Proof.
  unfold leave. destruct (negb _).
  - intros H. apply bind_Ok in H as (ykeep & _ & H). now injection H.
  - intros H. now injection H.
Qed.

Section EventTimes.

Variable B : Boost.
Variable U : Indeterminate.
Variable rhs : RHS.
Variable y : State.
Variables tmax dt dtmax abstol reltol : R.
Variables phis omegas : list R.
Variable stopping_criteria : list (option StoppingCriterion).
Variable vpars : list R.
Variables phis_stop vpars_stop flux forget_exact_path : bool.
Hypothesis WB : well_behaved B rhs.

Local Abbreviation body' :=
  (body B rhs abstol phis omegas stopping_criteria vpars phis_stop
     vpars_stop flux forget_exact_path).
Local Abbreviation d0 := (dense_0 B y dt dtmax abstol reltol).

Lemma event_in_step_more n ev :
  event_in_step B rhs d0 tmax n ev -> event_in_step B rhs d0 tmax (S n) ev.
Proof.
  intros (k & tev & rest & H1 & H2 & H3). exists k, tev, rest.
  repeat split; try tauto. lia.
Qed.

Lemma hits_step v v' n :
  body' v = Ok v' ->
  iter_ v = Z.of_nat n ->
  dense_ v = dense_after B rhs d0 n ->
  0 <= current_time B (dense_ v) ->
  (n = 0%nat \/ current_time B (dense_ v) < tmax) ->
  Forall (event_in_step B rhs d0 tmax n) (res_phi_hits (out_ v)) ->
  iter_ v' = Z.of_nat (S n) /\
  dense_ v' = dense_after B rhs d0 (S n) /\
  0 <= current_time B (dense_ v') /\
  t_ v' = current_time B (dense_ v') /\
  Forall (event_in_step B rhs d0 tmax (S n)) (res_phi_hits (out_ v')).
Proof.
  intros Hb Hiter Hd H0 Hmax Hh.
  destruct (body_spec _ _ _ _ _ _ _ _ _ _ _ WB _ _ Hb)
    as (base & e_v & e_p & e_c & Hbase & Hout & Hd' & Ht' & Hi' & [Hv _]
        & [Hp _] & [Hc _] & _).
  apply head_sample_keeps in Hbase as [Hbh _].
  pose proof (wb_do_step _ _ WB (dense_ v)) as (Ha & Hbk & Hlt).
  rewrite <- Hd' in Hbk, Hlt.
  assert (forall ev, timed (current_time B (dense_ v)) (t_ v') ev ->
                     event_in_step B rhs d0 tmax (S n) ev) as Hnew.
  { intros ev (tev & rest & -> & Hin). exists n, tev, rest.
    unfold bracket. rewrite <- Hd, Ha, Hbk, <- Ht'.
    repeat split; try tauto; lia. }
  repeat split.
  - rewrite Hi', Hiter. lia.
  - rewrite Hd', Hd. reflexivity.
  - lra.
  - assumption.
  - rewrite Hout. cbn [app_out res_phi_hits]. rewrite Hbh.
    repeat (apply Forall_app; split).
    + eapply Forall_impl; [|exact Hh]. apply event_in_step_more.
    + eapply Forall_impl; [|exact Hv]. exact Hnew.
    + eapply Forall_impl; [|exact Hp]. exact Hnew.
    + eapply Forall_impl; [|exact Hc]. intros ev Hev. apply Hnew.
      eapply timed_weaken; [| |exact Hev]; lra.
Qed.

(** C3, as the code has it: every event record of a trace has its time in
    the bracket [[t_prev, t_curr]] of one of the steps the trace completed,
    a step that starts at a time at least 0 and, unless it is the first,
    before [tmax]. *)
Theorem event_times_in_step_brackets fuel r h :
  solve B U rhs y tmax dt dtmax abstol reltol phis omegas stopping_criteria
    vpars phis_stop vpars_stop flux forget_exact_path fuel = Ok (r, h) ->
  exists v steps,
    run B U rhs y tmax dt dtmax abstol reltol phis omegas stopping_criteria
      vpars phis_stop vpars_stop flux forget_exact_path fuel = Ok v /\
    iter_ v = Z.of_nat steps /\
    h = res_phi_hits (out_ v) /\
    Forall (event_in_step B rhs d0 tmax steps) h.
Proof.
  intros H. unfold solve in H. apply bind_Ok in H as (v & Hrun & Hleave).
  apply leave_hits in Hleave as ->.
  pose proof Hrun as Hrun'.
  unfold run in Hrun. apply bind_Ok in Hrun as (v0 & Henter & Hloop).
  unfold enter in Henter.
  apply bind_Ok in Henter as ([pl vl] & _ & Henter). injection Henter as <-.
  apply (loop_last _ _ _ _ _ _ _ _ _ _ _ _
           (fun v => exists n,
              iter_ v = Z.of_nat n /\
              dense_ v = dense_after B rhs d0 n /\
              0 <= current_time B (dense_ v) /\
              (n = 0%nat \/ current_time B (dense_ v) < tmax) /\
              Forall (event_in_step B rhs d0 tmax n) (res_phi_hits (out_ v))))
    in Hloop as (vlast & (n & Hi & Hd & H0 & Hm & Hh) & Hb & _).
  - destruct (hits_step _ _ _ Hb Hi Hd H0 Hm Hh) as (Hi' & _ & _ & _ & Hh').
    exists v, (S n). auto.
  - intros w w' (n & Hi & Hd & H0 & Hm & Hh) Hb Hc.
    destruct (hits_step _ _ _ Hb Hi Hd H0 Hm Hh) as (Hi' & Hd' & H0' & Ht' & Hh').
    exists (S n). repeat split; try assumption.
    right. apply andb_prop in Hc as [Hc _]. apply Rltb_lt in Hc. lra.
  - exists 0%nat. cbn. unfold dense_0. rewrite (wb_initialize _ _ WB).
    repeat split; auto; lra.
Qed.

End EventTimes.

(** ** Sample times *)

Lemma increasing_snoc (l : list R) (x : R) :
  increasing l -> Forall (fun tau => tau < x) l -> increasing (l ++ [x]).
Proof.
  induction l as [| a l IH]; intros Hl Hx; [exact I|].
  inversion Hx as [| ? ? Ha Hx']; subst.
  destruct l as [| b l].
  - cbn. auto.
  - destruct Hl as [Hab Hl]. split; [exact Hab|]. now apply IH.
Qed.

Lemma times_app (l l' : list (list R)) : times (l ++ l') = times l ++ times l'.
Proof. apply map_app. Qed.

Lemma emits_unarmed a b e :
  emits a b false e -> res e = [] /\ stop e = false.
Proof. intros [_ [H | (H & _)]]; [exact H | discriminate]. Qed.

Section SampleTimes.

Variable B : Boost.
Variable U : Indeterminate.
Variable rhs : RHS.
Variable y : State.
Variables tmax dt dtmax abstol reltol : R.
Variables phis omegas : list R.
Variable stopping_criteria : list (option StoppingCriterion).
Variable vpars : list R.
Variables flux forget_exact_path : bool.
Hypothesis WB : well_behaved B rhs.

Local Abbreviation body' :=
  (body B rhs abstol phis omegas stopping_criteria vpars false false flux
     forget_exact_path).

Lemma sample_times_step v v' :
  body' v = Ok v' ->
  stop (out_ v) = false ->
  t_ v = current_time B (dense_ v) ->
  increasing (times (res (out_ v))) ->
  Forall (fun tau => tau < t_ v) (times (res (out_ v))) ->
  t_ v' = current_time B (dense_ v') /\
  t_ v < t_ v' /\
  increasing (times (res (out_ v'))) /\
  (stop (out_ v') = false ->
   Forall (fun tau => tau <= t_ v) (times (res (out_ v')))).
Proof.
  intros Hb Hstop Ht Hinc Hlt.
  destruct (body_spec _ _ _ _ _ _ _ _ _ _ _ WB _ _ Hb)
    as (base & e_v & e_p & e_c & Hbase & Hout & Hd' & Ht' & _ & Hv & Hp & Hc
        & _).
  cbn [andb] in Hv, Hp.
  apply emits_unarmed in Hv as [Hv Hsv], Hp as [Hp Hsp].
  pose proof (wb_do_step _ _ WB (dense_ v)) as (_ & _ & Hadv).
  rewrite <- Hd', <- Ht', <- Ht in Hadv.
  assert (stop base = false /\ increasing (times (res base)) /\
          Forall (fun tau => tau <= t_ v) (times (res base)))
    as (Hsb & Hib & Hlb).
  { unfold head_sample in Hbase. destruct (_ || _).
    - destruct Hbase as (ykeep & _ & ->). cbn [push_res res stop].
      rewrite times_app. cbn [times map join app hd].
      repeat split; [assumption | now apply increasing_snoc |].
      apply Forall_app. split.
      + eapply Forall_impl; [|exact Hlt]. intros; cbn in *; lra.
      + constructor; [lra | constructor].
    - subst base. repeat split; try assumption.
      eapply Forall_impl; [|exact Hlt]. intros; cbn in *; lra. }
  split; [assumption|]. split; [assumption|].
  rewrite Hout. cbn [app_out res stop]. rewrite Hv, Hp, !app_nil_r.
  rewrite Hsb, Hsv, Hsp. cbn [orb].
  destruct Hc as [_ [[Hc Hsc] | (_ & Hsc & s & Hc & tau & rest & -> & Hin)]];
    rewrite Hc, Hsc.
  - rewrite app_nil_r. auto.
  - split; [|discriminate].
    rewrite times_app. cbn [times map hd]. apply increasing_snoc; [assumption|].
    eapply Forall_impl; [|exact Hlb]. intros; cbn in *; lra.
Qed.

(** C5, as the code has it: when [tmax] is positive and neither [phis_stop]
    nor [vpars_stop] is set, so that the trace ends at [tmax] or at the step
    where a stopping criterion fires, the times of the trajectory samples
    increase strictly. *)
Theorem sample_times_increase fuel r h :
  0 < tmax ->
  solve B U rhs y tmax dt dtmax abstol reltol phis omegas stopping_criteria
    vpars false false flux forget_exact_path fuel = Ok (r, h) ->
  increasing (times r).
Proof.
  intros Htmax H. unfold solve in H. apply bind_Ok in H as (v & Hrun & Hleave).
  unfold run in Hrun. apply bind_Ok in Hrun as (v0 & Henter & Hloop).
  unfold enter in Henter.
  apply bind_Ok in Henter as ([pl vl] & _ & Henter). injection Henter as <-.
  apply (loop_last _ _ _ _ _ _ _ _ _ _ _ _
           (fun v => stop (out_ v) = false /\
                     t_ v = current_time B (dense_ v) /\
                     increasing (times (res (out_ v))) /\
                     Forall (fun tau => tau < t_ v) (times (res (out_ v))) /\
                     t_ v < tmax))
    in Hloop as (vlast & (Hs & Ht & Hi & Hl & Hm) & Hb & _).
  - destruct (sample_times_step _ _ Hb Hs Ht Hi Hl) as (_ & _ & Hi' & Hl').
    unfold leave in Hleave. destruct (stop (out_ v)); cbn [negb] in Hleave.
    + now injection Hleave as <- _.
    + apply bind_Ok in Hleave as (ykeep & _ & Hleave).
      injection Hleave as <- _.
      rewrite times_app. cbn [times map join app hd].
      apply increasing_snoc; [assumption|].
      eapply Forall_impl; [|exact (Hl' eq_refl)]. intros; cbn in *; lra.
  - intros w w' (Hs & Ht & Hi & Hl & Hm) Hb Hc.
    destruct (sample_times_step _ _ Hb Hs Ht Hi Hl) as (Ht' & Hadv & Hi' & Hl').
    apply andb_prop in Hc as [Hc1 Hc2]. apply Rltb_lt in Hc1.
    apply negb_true_iff in Hc2.
    repeat split; try assumption.
    eapply Forall_impl; [|exact (Hl' Hc2)]. intros; cbn in *; lra.
  - cbn. rewrite (wb_initialize _ _ WB). repeat split; auto.
Qed.

End SampleTimes.

(** ** [forget_exact_path] *)

Lemma same_but_res_refl {B : Boost} (v : locals B) : same_but_res v v.
Proof. now destruct v. Qed.

Lemma push_head_keeps {B : Boost} rhs forget (v : locals B) base :
  push_head B rhs forget v = Ok base ->
  res_phi_hits base = res_phi_hits (out_ v) /\ stop base = stop (out_ v).
Proof.
  unfold push_head. destruct (_ || _); intros H.
  - apply bind_Ok in H as (ykeep & _ & H). now injection H as <-.
  - now injection H as <-.
Qed.

Section Forget.

Variable B : Boost.
Variable U : Indeterminate.
Variable rhs : RHS.
Variable y : State.
Variables tmax dt dtmax abstol reltol : R.
Variables phis omegas : list R.
Variable stopping_criteria : list (option StoppingCriterion).
Variable vpars : list R.
Variables phis_stop vpars_stop flux : bool.

Local Abbreviation advance' :=
  (advance B rhs abstol phis omegas stopping_criteria vpars phis_stop
     vpars_stop flux).
Local Abbreviation body' :=
  (body B rhs abstol phis omegas stopping_criteria vpars phis_stop
     vpars_stop flux).
Local Abbreviation loop' :=
  (loop B rhs tmax abstol phis omegas stopping_criteria vpars phis_stop
     vpars_stop flux).
Local Abbreviation solve' :=
  (solve B U rhs y tmax dt dtmax abstol reltol phis omegas stopping_criteria
     vpars phis_stop vpars_stop flux).

(** The step and the scans do not look at the output so far. *)
Lemma advance_frame v o :
  advance' v o
  = (x <- advance' v no_out ;; Ok (with_out x (app_out o (out_ x)))).
Proof.
  unfold advance.
  destruct (do_step B rhs (dense_ v)) as [d [tlast tcurrent]].
  destruct (if flux then _ else _) as [[[tc pc] vc] | err]; [|reflexivity].
  cbn [bind].
  rewrite <- (app_out_no_out o) at 1. rewrite scan_vpars_frame.
  destruct (scan_vpars _ _ _ _ _ _ _ _ _ _ _ _ _) as [e_v | err];
    [|reflexivity].
  cbn [bind]. rewrite scan_phis_frame.
  destruct (scan_phis _ _ _ _ _ _ _ _ _ _ _ _ _ _ _ _) as [e_p | err];
    [|reflexivity].
  cbn [bind]. rewrite scan_criteria_frame.
  destruct (scan_criteria _ _ _ _ _ _ _ _) as [e_c | err]; reflexivity.
Qed.

Lemma body_same_but_res v w v' :
  same_but_res v w ->
  body' false v = Ok v' ->
  exists w', body' true w = Ok w' /\ same_but_res v' w'.
Proof.
  intros (Hw & Hh & Hs) H. unfold body in *.
  apply bind_Ok in H as (bv & Hbv & H).
  rewrite advance_frame in H. apply bind_Ok in H as (x & Hx & H).
  injection H as <-.
  assert (exists bw, push_head B rhs true w = Ok bw /\
                     res_phi_hits bw = res_phi_hits bv /\ stop bw = stop bv)
    as (bw & -> & Hbh & Hbs).
  { unfold push_head in *. cbn [negb orb] in *.
    apply bind_Ok in Hbv as (ykeep & Hk & Hbv). injection Hbv as <-.
    rewrite Hw. cbn [with_out t_ y_ out_].
    destruct (Reqb (t_ v) 0).
    - rewrite Hk. cbn [bind]. eauto.
    - eauto. }
  cbn [bind]. rewrite advance_frame, Hw.
  change (advance' (with_out v (out_ w)) no_out) with (advance' v no_out).
  rewrite Hx. cbn [bind]. eexists. split; [reflexivity|].
  repeat split; cbn; congruence.
Qed.

Hypothesis WB : well_behaved B rhs.
Hypothesis Hsingle :
  single_mechanism phis stopping_criteria vpars phis_stop vpars_stop = true.

Lemma forget_step w w' :
  body' true w = Ok w' ->
  forget_head rhs y w ->
  t_ w' = current_time B (dense_ w') /\
  t_ w < t_ w' /\
  exists ykeep0 bw,
    canonical rhs y = Ok ykeep0 /\
    push_head B rhs true w = Ok bw /\
    res bw = [join [0] ykeep0] /\
    stop bw = false /\
    ((stop (out_ w') = false /\ res (out_ w') = [join [0] ykeep0]) \/
     (stop (out_ w') = true /\
      exists s, res (out_ w') = [join [0] ykeep0; s])).
Proof.
  intros Hb (Hstop & Ht & Hres).
  destruct (body_spec _ _ _ _ _ _ _ _ _ _ _ WB _ _ Hb)
    as (base & e_v & e_p & e_c & Hbase & Hout & Hd' & Ht' & _ & [_ Hv]
        & [_ Hp] & [_ Hc] & _).
  pose proof (wb_do_step _ _ WB (dense_ w)) as (_ & _ & Hadv).
  rewrite <- Hd', <- Ht', <- Ht in Hadv.
  split; [assumption|]. split; [assumption|].
  assert (exists ykeep0, canonical rhs y = Ok ykeep0 /\
                         push_head B rhs true w = Ok base /\
                         res base = [join [0] ykeep0] /\ stop base = false)
    as (ykeep0 & Hk & Hpush & Hrb & Hsb).
  { unfold head_sample in Hbase. unfold push_head. cbn [negb orb] in *.
    destruct Hres as [(H0 & Hr & Hy) | (H0 & ykeep0 & Hk & Hr)].
    - rewrite H0, Reqb_refl in *. destruct Hbase as (ykeep & Hk & ->).
      rewrite Hk. rewrite Hy in Hk. exists ykeep. cbn. now rewrite Hr.
    - rewrite Reqb_false in * by lra. subst base. eauto. }
  exists ykeep0, base. repeat (split; [assumption|]).
  rewrite Hout. cbn [app_out res stop]. rewrite Hrb, Hsb. cbn [orb].
  unfold single_mechanism in Hsingle.
  destruct Hv as [[Hv Hsv] | (Hav & Hsv & sv & Hv & _)];
    destruct Hp as [[Hp Hsp] | (Hap & Hsp & sp & Hp & _)];
    destruct Hc as [[Hc Hsc] | (Hac & Hsc & sc & Hc & _)];
    rewrite Hv, Hp, Hc, Hsv, Hsp, Hsc; cbn [app orb];
    try (rewrite Hav in Hsingle);
    try (rewrite Hap in Hsingle);
    try (rewrite Hac in Hsingle);
    try (rewrite ?andb_true_r, ?andb_false_r in Hsingle; discriminate);
    try (cbn in Hsingle; discriminate);
    [left | right ..]; split; eauto.
  all: destruct (_ && _), (_ && _); cbn in Hsingle; discriminate.
Qed.

Lemma forget_head_next w w' :
  body' true w = Ok w' ->
  forget_head rhs y w ->
  Rltb (t_ w') tmax && negb (stop (out_ w')) = true ->
  forget_head rhs y w'.
Proof.
  intros Hb Hw Hc.
  destruct (forget_step _ _ Hb Hw)
    as (Ht' & Hadv & ykeep0 & _ & Hk & _ & _ & _ & Hshape).
  apply andb_prop in Hc as [_ Hc]. apply negb_true_iff in Hc.
  destruct Hshape as [[Hsf Hrf] | (Hsf & _)]; [|congruence].
  repeat split; try assumption. right. split; [|eauto].
  destruct Hw as (_ & _ & [(H0 & _) | (H0 & _)]); lra.
Qed.

(** The two traces make the same passes; the last pass of each starts from
    locals that differ at most in the trajectory. *)
Lemma loop_forget fuel : forall v w vf,
  same_but_res v w ->
  forget_head rhs y w ->
  loop' false fuel v = Ok vf ->
  exists wf vl wl,
    loop' true fuel w = Ok wf /\
    same_but_res vl wl /\ forget_head rhs y wl /\
    body' false vl = Ok vf /\ body' true wl = Ok wf.
Proof.
  induction fuel as [| fuel IH]; intros v w vf Hvw Hw H; [discriminate|].
  cbn [loop] in *. apply bind_Ok in H as (v' & Hb & H).
  destruct (body_same_but_res _ _ _ Hvw Hb) as (w' & Hbw & Hvw').
  rewrite Hbw. cbn [bind].
  assert (t_ w' = t_ v' /\ stop (out_ w') = stop (out_ v')) as [Et Es].
  { destruct Hvw' as (-> & _ & Hs). now rewrite <- Hs. }
  rewrite Et, Es.
  destruct (Rltb (t_ v') tmax && negb (stop (out_ v'))) eqn:Hc.
  - apply (IH v' w' vf); try assumption.
    apply (forget_head_next w w'); try assumption. now rewrite Et, Es.
  - injection H as <-. exists w', v, w. auto.
Qed.


End Forget.

(** ** Only the loop can run out of fuel *)

Lemma finishes_bind {A C : Type} (c : result A) (k : A -> result C) :
  finishes c -> (forall a, c = Ok a -> finishes (k a)) -> finishes (bind c k).
Proof.
  intros Hc Hk. destruct c as [a | e]; cbn; [now apply Hk|].
  intros H. apply Hc. now injection H as ->.
Qed.

Lemma idx_finishes (v : list R) (i : nat) : finishes (idx v i).
Proof. unfold idx. destruct (nth_error v i); discriminate. Qed.

Lemma set_idx_finishes (v : list R) (i : nat) (x : R) :
  finishes (set_idx v i x).
Proof. unfold set_idx. destruct (_ <? _)%nat; discriminate. Qed.

Lemma canonical_finishes rhs y : finishes (canonical rhs y).
Proof.
  unfold canonical. destruct (_ || _)%bool; [|discriminate].
  apply finishes_bind; [apply idx_finishes | intros y0 _].
  apply finishes_bind; [apply idx_finishes | intros y1 _].
  destruct (to_canonical _ _ _) as [s theta].
  apply finishes_bind; [apply set_idx_finishes | intros k _].
  apply set_idx_finishes.
Qed.

Section Finishes.

Variable B : Boost.
Variable U : Indeterminate.
Variable rhs : RHS.
Variable y : State.
Variables tmax dt dtmax abstol reltol : R.
Variables phis omegas : list R.
Variable stopping_criteria : list (option StoppingCriterion).
Variable vpars : list R.
Variables phis_stop vpars_stop flux forget_exact_path : bool.

Lemma refine_root_finishes d f a b fa fb :
  (forall t, finishes (f t)) ->
  finishes (refine_root B rhs abstol d f a b fa fb).
Proof.
  intros Hf. unfold refine_root.
  apply finishes_bind; [destruct (toms748_solve _ _ _ _ _ _ _ _); discriminate|].
  intros root _.
  apply finishes_bind; [apply Hf | intros f0 _].
  apply finishes_bind; [apply Hf | intros f1 _].
  apply finishes_bind; [apply canonical_finishes | discriminate].
Qed.

Lemma scan_vpars_finishes d a b vl vc vs : forall i o,
  finishes (scan_vpars B rhs abstol phis vpars_stop d a b vl vc i vs o).
Proof.
  induction vs as [| vpar vs IH]; intros i o; [discriminate|].
  cbn [scan_vpars]. destruct (crossed vl vc vpar); [|apply IH].
  apply finishes_bind.
  - apply refine_root_finishes. intros t.
    apply finishes_bind; [apply idx_finishes | discriminate].
  - intros [troot ykeep] _. destruct vpars_stop; [discriminate | apply IH].
Qed.

Lemma scan_phis_finishes d a b pl pc tl tc ps : forall i o,
  finishes (scan_phis B rhs abstol omegas phis_stop flux d a b pl pc tl tc i
              ps o).
Proof.
  induction ps as [| phi ps IH]; intros i o; [discriminate|].
  cbn [scan_phis].
  apply finishes_bind; [apply idx_finishes | intros omega _].
  destruct (plane_crossed _ _ _ _); [|apply IH].
  destruct (between _ _ _); [|discriminate].
  apply finishes_bind.
  - apply refine_root_finishes. intros t. destruct flux.
    + apply finishes_bind; [apply idx_finishes | discriminate].
    + apply finishes_bind; [apply idx_finishes | intros t0 _].
      apply finishes_bind; [apply idx_finishes | discriminate].
  - intros [troot ykeep] _. destruct phis_stop; [discriminate | apply IH].
Qed.

Lemma scan_criteria_finishes iter dt' t y' cs : forall i o,
  finishes (scan_criteria rhs iter dt' t y' i cs o).
Proof.
  induction cs as [| c cs IH]; intros i o; [discriminate|].
  cbn [scan_criteria].
  apply finishes_bind; [apply canonical_finishes | intros ykeep _].
  destruct c as [criterion |]; [|apply IH].
  apply finishes_bind; [apply idx_finishes | intros k0 _].
  apply finishes_bind; [apply idx_finishes | intros k1 _].
  apply finishes_bind; [apply idx_finishes | intros k2 _].
  apply finishes_bind; [apply idx_finishes | intros k3 _].
  destruct (criterion _ _ _ _ _ _ _); [discriminate | apply IH].
Qed.

Lemma body_finishes v :
  finishes (body B rhs abstol phis omegas stopping_criteria vpars phis_stop
              vpars_stop flux forget_exact_path v).
Proof.
  unfold body. apply finishes_bind.
  - unfold push_head. destruct (_ || _); [|discriminate].
    apply finishes_bind; [apply canonical_finishes | discriminate].
  - intros o _. unfold advance.
    destruct (do_step B rhs (dense_ v)) as [d [a b]].
    apply finishes_bind.
    + destruct flux.
      * apply finishes_bind; [apply idx_finishes | intros y2 _].
        apply finishes_bind; [apply idx_finishes | discriminate].
      * apply finishes_bind; [apply idx_finishes | intros y0 _].
        apply finishes_bind; [apply idx_finishes | discriminate].
    + intros [[tc pc] vc] _.
      apply finishes_bind; [apply scan_vpars_finishes | intros o1 _].
      apply finishes_bind; [apply scan_phis_finishes | intros o2 _].
      apply finishes_bind; [apply scan_criteria_finishes | discriminate].
Qed.

Lemma enter_finishes : finishes (enter B U y dt dtmax abstol reltol flux).
Proof.
  unfold enter. apply finishes_bind.
  - destruct flux.
    + apply finishes_bind; [apply idx_finishes | intros y2 _].
      apply finishes_bind; [apply idx_finishes | discriminate].
    + apply finishes_bind; [apply idx_finishes | intros y0 _].
      apply finishes_bind; [apply idx_finishes | discriminate].
  - intros [pl vl] _. discriminate.
Qed.

Lemma leave_finishes v : finishes (leave B rhs tmax v).
Proof.
  unfold leave. destruct (negb _); [|discriminate].
  apply finishes_bind; [apply canonical_finishes | discriminate].
Qed.

(** With a stepper whose steps are at least [delta] long, the loop is left
    within [fuel] passes once [fuel * delta] reaches [tmax - t]. *)
Lemma loop_finishes (delta : R) :
  0 < delta ->
  (forall d, current_time B d + delta
             <= current_time B (fst (do_step B rhs d))) ->
  forall fuel v,
    t_ v = current_time B (dense_ v) ->
    tmax - t_ v <= INR (S fuel) * delta ->
    finishes (loop B rhs tmax abstol phis omegas stopping_criteria vpars
                phis_stop vpars_stop flux forget_exact_path (S fuel) v).
Proof.
  intros Hdelta Hadv. induction fuel as [| fuel IH]; intros v Ht Hfuel.
  - cbn [loop]. apply finishes_bind; [apply body_finishes | intros v' Hb].
    destruct (Rltb (t_ v') tmax) eqn:Hc; [|discriminate].
    apply Rltb_lt in Hc. exfalso.
    unfold body in Hb. apply bind_Ok in Hb as (o & _ & Hb).
    unfold advance in Hb. specialize (Hadv (dense_ v)).
    destruct (do_step B rhs (dense_ v)) as [d [a b]].
    apply bind_Ok in Hb as ([[tc pc] vc] & _ & Hb).
    apply bind_Ok in Hb as (o1 & _ & Hb).
    apply bind_Ok in Hb as (o2 & _ & Hb).
    apply bind_Ok in Hb as (o3 & _ & Hb).
    injection Hb as <-. cbn in *. lra.
  - remember (S fuel) as n eqn:Hn.
    cbn [loop]. apply finishes_bind; [apply body_finishes | intros v' Hb].
    destruct (_ && _); [|discriminate].
    subst n. apply IH.
    + unfold body in Hb. apply bind_Ok in Hb as (o & _ & Hb).
      unfold advance in Hb.
      destruct (do_step B rhs (dense_ v)) as [d [a b]].
      apply bind_Ok in Hb as ([[tc pc] vc] & _ & Hb).
      apply bind_Ok in Hb as (o1 & _ & Hb).
      apply bind_Ok in Hb as (o2 & _ & Hb).
      apply bind_Ok in Hb as (o3 & _ & Hb).
      now injection Hb as <-.
    + unfold body in Hb. apply bind_Ok in Hb as (o & _ & Hb).
      unfold advance in Hb. specialize (Hadv (dense_ v)).
      destruct (do_step B rhs (dense_ v)) as [d [a b]].
      apply bind_Ok in Hb as ([[tc pc] vc] & _ & Hb).
      apply bind_Ok in Hb as (o1 & _ & Hb).
      apply bind_Ok in Hb as (o2 & _ & Hb).
      apply bind_Ok in Hb as (o3 & _ & Hb).
      injection Hb as <-. cbn [t_ fst] in *.
      rewrite S_INR in Hfuel. lra.
Qed.

(** [solve] returns (a result or a C++ failure) for every well-behaved
    stepper with steps of length at least [delta], given enough fuel. *)
Lemma solve_finishes (delta : R) (fuel : nat) :
  well_behaved B rhs ->
  0 < delta ->
  (forall d, current_time B d + delta
             <= current_time B (fst (do_step B rhs d))) ->
  tmax <= INR (S fuel) * delta ->
  finishes (solve B U rhs y tmax dt dtmax abstol reltol phis omegas
              stopping_criteria vpars phis_stop vpars_stop flux
              forget_exact_path (S fuel)).
Proof.
  intros WB Hdelta Hadv Hfuel. unfold solve, run.
  apply finishes_bind; [|intros v _; apply leave_finishes].
  apply finishes_bind; [apply enter_finishes | intros v0 Hv0].
  unfold enter in Hv0. apply bind_Ok in Hv0 as ([pl vl] & _ & Hv0).
  injection Hv0 as <-.
  apply (loop_finishes delta); try assumption.
  - cbn. now rewrite (wb_initialize _ _ WB).
  - cbn [t_]. lra.
Qed.

End Finishes.

(** ** [tmax = 0] *)

Section TmaxZero.

Variable B : Boost.
Variable U : Indeterminate.
Variable rhs : RHS.
Variable y : State.
Variables dt dtmax abstol reltol : R.
Variables phis omegas : list R.
Variable stopping_criteria : list (option StoppingCriterion).
Variable vpars : list R.
Variables phis_stop vpars_stop flux forget_exact_path : bool.
Hypothesis WB : well_behaved B rhs.

Local Abbreviation solve0 :=
  (solve B U rhs y 0 dt dtmax abstol reltol phis omegas stopping_criteria
     vpars phis_stop vpars_stop flux forget_exact_path).

(** With [tmax = 0] the loop makes its one pass and is left. *)
Lemma loop_tmax_zero fuel v0 pl vl :
  v0 = mkLocals (mkOut [] [] false) (dense_0 B y dt dtmax abstol reltol) 0 y
         dt 0%Z pl vl 0 (vpar_current_0 U) (t_current_0 U) ->
  loop B rhs 0 abstol phis omegas stopping_criteria vpars phis_stop
    vpars_stop flux forget_exact_path (S fuel) v0
  = body B rhs abstol phis omegas stopping_criteria vpars phis_stop
      vpars_stop flux forget_exact_path v0.
Proof.
  intros Hv0. cbn [loop].
  destruct (body _ _ _ _ _ _ _ _ _ _ _ v0) as [v' | err] eqn:Hb;
    [|reflexivity].
  cbn [bind].
  destruct (body_spec _ _ _ _ _ _ _ _ _ _ _ WB _ _ Hb)
    as (_ & _ & _ & _ & _ & _ & Hd' & Ht' & _).
  pose proof (wb_do_step _ _ WB (dense_ v0)) as (_ & _ & Hadv).
  rewrite <- Hd', <- Ht' in Hadv.
  rewrite Hv0 in Hadv. cbn [dense_] in Hadv. unfold dense_0 in Hadv.
  rewrite (wb_initialize _ _ WB) in Hadv.
  rewrite Rltb_false by lra. reflexivity.
Qed.

(** With its flag set, the scan of the vpar planes adds nothing or the
    event record and the sample of one crossing. *)
Lemma scan_vpars_stop_shape d a b vl vc vs : forall i e,
  scan_vpars B rhs abstol phis true d a b vl vc i vs no_out = Ok e ->
  e = no_out \/
  exists troot (j : nat) ykeep,
    e = mkOut [join [troot] ykeep]
          [join [troot; INR j + INR (length phis)] ykeep] true.
Proof.
  induction vs as [| vpar vs IH]; intros i e H.
  - injection H as <-. now left.
  - cbn [scan_vpars] in H. destruct (crossed vl vc vpar); [|eauto].
    apply bind_Ok in H as ([troot ykeep] & _ & H). injection H as <-.
    right. now exists troot, i, ykeep.
Qed.


End TmaxZero.

(** ** Field-line traces and stopping criteria *)

Lemma scan_criteria_short field iter dt t y cs : forall i o,
  length y = Size (FieldlineRHS field) ->
  (exists c, In (Some c) cs) ->
  scan_criteria (FieldlineRHS field) iter dt t y i cs o = Err OutOfBounds.
Proof.
  induction cs as [| c cs IH]; intros i o Hy [crit Hin]; [destruct Hin|].
  destruct y as [| y0 [| y1 [| y2 [| y3 y']]]]; try discriminate.
  cbn [scan_criteria]. unfold canonical. cbn [axis Z.eqb orb bind].
  destruct c as [criterion |]; [reflexivity|].
  destruct Hin as [Hin | Hin]; [discriminate|].
  apply IH; eauto.
Qed.


(** ** [particle_guiding_center_tracing] *)

(** C8: with [vacuum = false] the call raises the logic error and gives no
    trajectory or events; with [vacuum = true] it is the call of [solve] on
    the vacuum guiding-centre right-hand side. *)
Theorem guiding_center_tracing_vacuum_only (B : Boost) (U : Indeterminate)
    (field : MagneticField) (xyz_init : R * R * R)
    (m q vtotal vtang tmax abstol reltol : R) (phis omegas : list R)
    (stopping_criteria : list (option StoppingCriterion)) (fuel : nat) :
  particle_guiding_center_tracing B U field xyz_init m q vtotal vtang tmax
    abstol reltol false phis omegas stopping_criteria fuel
  = Err (LogicError
      "Guiding center right hand side currently only implemented for vacuum fields."%string)
  /\
  particle_guiding_center_tracing B U field xyz_init m q vtotal vtang tmax
    abstol reltol true phis omegas stopping_criteria fuel
  = (let '(x0, y0, z0) := xyz_init in
     let mu :=
       (vtotal * vtotal - vtang * vtang) / (2 * AbsB_xyz field x0 y0 z0) in
     let dtmax := sqrt (x0 * x0 + y0 * y0) * / 2 * PI / vtotal in
     solve B U (GuidingCenterVacuumRHS field m q mu) [x0; y0; z0; vtang] tmax
       (/ 1000 * dtmax) dtmax abstol reltol phis omegas stopping_criteria []
       false false false false fuel).
Proof.
  destruct xyz_init as [[x0 y0] z0]. split; reflexivity.
Qed.

(** ** Crossings that stop the trace *)

Section StopCrossing.

Variable B : Boost.
Variable rhs : RHS.
Variables tmax abstol : R.
Variables phis omegas : list R.
Variable stopping_criteria : list (option StoppingCriterion).
Variable vpars : list R.
Variables phis_stop vpars_stop flux forget_exact_path : bool.

Lemma scan_vpars_stop_emission d a b vl vc vs : forall i e,
  scan_vpars B rhs abstol phis true d a b vl vc i vs no_out = Ok e ->
  stop_emission (first_vpar_crossed vl vc i vs) (INR (length phis)) e.
Proof.
  induction vs as [| vpar vs IH]; intros i e H.
  - now injection H as <-.
  - cbn [scan_vpars first_vpar_crossed] in *.
    destruct (crossed vl vc vpar); [|eauto].
    apply bind_Ok in H as ([troot ykeep] & _ & H). injection H as <-.
    now exists troot, (INR i + INR (length phis)), ykeep.
Qed.

Lemma scan_phis_stop_emission d a b pl pc tl tc ps : forall i e,
  scan_phis B rhs abstol omegas true flux d a b pl pc tl tc i ps no_out
    = Ok e ->
  stop_emission (first_phi_crossed omegas pl pc tl tc i ps) 0 e.
Proof.
  induction ps as [| phi ps IH]; intros i e H.
  - now injection H as <-.
  - cbn [scan_phis first_phi_crossed] in *. unfold idx in H.
    destruct (nth_error omegas i) as [omega |]; [|discriminate].
    cbn [bind] in H.
    destruct (plane_crossed _ _ _ _); [|eauto].
    destruct (between _ _ _); [|discriminate].
    apply bind_Ok in H as ([troot ykeep] & _ & H). injection H as <-.
    exists troot, (INR i), ykeep. split; [lra | reflexivity].
Qed.

(** C1, as the code has it: the first vpar-plane or phi-plane crossing found
    while the flag of its scan is set ends that scan, with its event record
    and its refined sample added and no later plane of the list examined, and
    ends the trace with the current pass; the scans that follow in the same
    pass still run and add what they find. *)
Theorem stop_crossing_ends_scan_and_trace (v v' : locals B) :
  body B rhs abstol phis omegas stopping_criteria vpars phis_stop vpars_stop
    flux forget_exact_path v = Ok v' ->
  pass_with_stop_crossing B rhs tmax abstol phis omegas stopping_criteria
    vpars phis_stop vpars_stop flux forget_exact_path v v'.
Proof.
  intros Hb. pose proof Hb as Hb'. unfold body in Hb.
  apply bind_Ok in Hb as (base & Hbase & H).
  unfold advance in H. unfold pass_with_stop_crossing.
  destruct (do_step B rhs (dense_ v)) as [d [a b]].
  apply bind_Ok in H as ([[tc pc] vc] & _ & H).
  rewrite <- (app_out_no_out base), scan_vpars_frame in H.
  apply bind_Ok in H as (o1 & Ho1 & H).
  apply bind_Ok in Ho1 as (e_v & He_v & Ho1). injection Ho1 as <-.
  rewrite <- (app_out_no_out (app_out _ e_v)), scan_phis_frame in H.
  apply bind_Ok in H as (o2 & Ho2 & H).
  apply bind_Ok in Ho2 as (e_p & He_p & Ho2). injection Ho2 as <-.
  rewrite <- (app_out_no_out (app_out _ e_p)), scan_criteria_frame in H.
  apply bind_Ok in H as (o3 & Ho3 & H).
  apply bind_Ok in Ho3 as (e_c & He_c & Ho3). injection Ho3 as <-.
  injection H as <-.
  cbn [out_ dense_ t_ y_ dt_ iter_ vpar_last_ phi_last_ t_last_ fst snd].

  exists base, e_v, e_p, e_c.
  repeat (split; [assumption || reflexivity|]).
  split; [|split].
  - intros Hflag. rewrite Hflag in He_v.
    eapply scan_vpars_stop_emission; eauto.
  - intros Hflag. rewrite Hflag in He_p.
    eapply scan_phis_stop_emission; eauto.
  - intros Hstop fuel.
    assert (stop (app_out (app_out (app_out base e_v) e_p) e_c) = true)
      as Hs.
    { cbn [app_out stop].
      destruct Hstop as [-> | ->]; now rewrite ?orb_true_r. }
    split.
    + apply loop_stops; assumption.
    + unfold leave. cbn [out_]. now rewrite Hs.
Qed.

End StopCrossing.

(** ** Flux traces do not read the unset locals *)

Section Determinate.

Variable B : Boost.
Variable rhs : RHS.
Variable y : State.
Variables tmax dt dtmax abstol reltol : R.
Variables phis omegas : list R.
Variable stopping_criteria : list (option StoppingCriterion).
Variable vpars : list R.
Variables phis_stop vpars_stop forget_exact_path : bool.

Lemma solve_flux_determinate (U U' : Indeterminate) (fuel : nat) :
  solve B U rhs y tmax dt dtmax abstol reltol phis omegas stopping_criteria
    vpars phis_stop vpars_stop true forget_exact_path fuel
  = solve B U' rhs y tmax dt dtmax abstol reltol phis omegas
      stopping_criteria vpars phis_stop vpars_stop true forget_exact_path
      fuel.
Proof.
  unfold solve, run, enter.
  destruct (y2 <- idx y 2 ;; y3 <- idx y 3 ;; Ok (y2, y3)) as [[pl vl] | err];
    [|reflexivity].
  cbn [bind]. f_equal.
  destruct fuel as [| fuel]; [reflexivity|].
  cbn [loop]. reflexivity.
Qed.

End Determinate.

(** ** Examples: the mirror trace *)

Ltac Rdec :=
  repeat match goal with
  | |- context [Rlt_dec ?x ?y] => destruct (Rlt_dec x y); try lra
  | |- context [Rle_dec ?x ?y] => destruct (Rle_dec x y); try lra
  | |- context [Req_dec_T ?x ?y] => destruct (Req_dec_T x y); try lra
  end.

Ltac run_mirror :=
  unfold mirror_solve, solve, run, enter, mirror_curve; cbn;
  repeat (progress (unfold body, push_head, advance, leave, crossed,
                      plane_crossed, Reqb, Rltb, sgn;
                    cbn; Rdec; cbn)).

Lemma curve_stepper_well_behaved (h : R) (traj : R -> State) (rhs : RHS) :
  0 < h -> well_behaved (curve_stepper h traj) rhs.
Proof.
  intros Hh. split.
  - reflexivity.
  - intros d. cbn. repeat split; lra.
  - intros f a b fa fb tol it r Hab H. cbn in H. unfold midpoint_solver in H.
    injection H as <-. cbn. lra.
Qed.

(** The trace with [vpars_stop] set and a criterion that fires at once: the
    crossing at [t = 1] is followed, in the same pass, by the sample and the
    event record of the criterion at [t = 2]. *)
Lemma mirror_stop_and_criterion (forget_exact_path : bool) :
  mirror_solve 10 [Some always] true forget_exact_path 1
  = Ok ([[0; / 2; 0; 0; 1]; [1; / 2; 0; 1; 0]; [2; / 2; 0; 2; -1]],
        [[1; 0; / 2; 0; 1; 0]; [2; -1; / 2; 0; 2; -1]]).
Proof.
  destruct forget_exact_path; run_mirror; repeat f_equal; lra.
Qed.

(** The trace to [tmax = 1] with the same criterion and no flag set. *)
Lemma mirror_criterion :
  mirror_solve 1 [Some always] false false 1
  = Ok ([[0; / 2; 0; 0; 1]; [2; / 2; 0; 2; -1]],
        [[1; 0; / 2; 0; 1; 0]; [2; -1; / 2; 0; 2; -1]]).
Proof. run_mirror; repeat f_equal; lra. Qed.

(** The trace with [tmax = 0] and nothing to stop it. *)
Lemma mirror_tmax_zero :
  mirror_solve 0 [] false false 1
  = Ok ([[0; / 2; 0; 0; 1]; [0; / 2; 0; 0; 1]], [[1; 0; / 2; 0; 1; 0]]).
Proof. run_mirror; repeat f_equal; lra. Qed.

Lemma mirror_first_pass :
  body (curve_stepper 2 mirror_curve) mirror_rhs (/ 1000) [] []
    [Some always] [0] false true true false mirror_v0
  = Ok mirror_v1.
Proof.
  unfold mirror_v0, mirror_v1, mirror_curve. run_mirror.
  all: unfold push_hit, push_res, set_stop; cbn; repeat f_equal; lra.
Qed.

Lemma stop_crossing_ends_scan_and_trace_witness :
  pass_with_stop_crossing (curve_stepper 2 mirror_curve) mirror_rhs 10
    (/ 1000) [] [] [Some always] [0] false true true false mirror_v0
    mirror_v1.
Proof.
  apply stop_crossing_ends_scan_and_trace. exact mirror_first_pass.
Defined.

(** C1 as stated fails: in this trace the vpar crossing at [t = 1] stops the
    trace, [vpars_stop] being set, and yet the same pass goes on to emit the
    event record of stopping criterion 0 and a further sample, both at
    [t = 2]. *)
Lemma stop_crossing_not_final :
  mirror_solve 10 [Some always] true false 1
  = Ok ([[0; / 2; 0; 0; 1]; [1; / 2; 0; 1; 0]; [2; / 2; 0; 2; -1]],
        [[1; 0; / 2; 0; 1; 0]; [2; -1; / 2; 0; 2; -1]]).
Proof. apply mirror_stop_and_criterion. Qed.



Lemma event_times_in_step_brackets_witness :
  exists v steps,
    run (curve_stepper 2 mirror_curve) (Build_Indeterminate 0 0) mirror_rhs
      (mirror_curve 0) 1 (/ 1000) 1 (/ 1000) (/ 1000) [] [] [Some always]
      [0] false false true false 1 = Ok v /\
    iter_ v = Z.of_nat steps /\
    [[1; 0; / 2; 0; 1; 0]; [2; -1; / 2; 0; 2; -1]] = res_phi_hits (out_ v) /\
    Forall
      (event_in_step (curve_stepper 2 mirror_curve) mirror_rhs
         (dense_0 (curve_stepper 2 mirror_curve) (mirror_curve 0) (/ 1000) 1
            (/ 1000) (/ 1000)) 1 steps)
      [[1; 0; / 2; 0; 1; 0]; [2; -1; / 2; 0; 2; -1]].
Proof.
  eapply event_times_in_step_brackets.
  - apply curve_stepper_well_behaved. lra.
  - exact mirror_criterion.
Defined.

(** C3 as stated fails: in this trace to [tmax = 1] the stopping criterion
    fires at the end of the first step, and its event record carries the
    time 2. *)
Lemma event_time_beyond_tmax :
  exists r h,
    mirror_solve 1 [Some always] false false 1 = Ok (r, h) /\
    Exists (fun ev => 1 < hd 0 ev) h.
Proof.
  eexists _, _. split; [apply mirror_criterion|].
  apply Exists_cons_tl, Exists_cons_hd. cbn. lra.
Qed.

Lemma sample_times_increase_witness :
  0 < 1 /\ increasing (times [[0; / 2; 0; 0; 1]; [2; / 2; 0; 2; -1]]).
Proof.
  assert (0 < 1) as H01 by lra.
  assert (0 < 2) as H02 by lra.
  split; [exact H01|].
  exact (sample_times_increase (curve_stepper 2 mirror_curve)
           (Build_Indeterminate 0 0) mirror_rhs (mirror_curve 0) 1 (/ 1000) 1
           (/ 1000) (/ 1000) [] [] [Some always] [0] true false
           (curve_stepper_well_behaved 2 mirror_curve mirror_rhs H02) 1 _ _
           H01 mirror_criterion).
Defined.

(** C5 as stated fails: with [tmax = 0] the two samples of the trajectory
    have the same time. *)
Lemma sample_times_not_increasing :
  exists r h,
    mirror_solve 0 [] false false 1 = Ok (r, h) /\ ~ increasing (times r).
Proof.
  eexists _, _. split; [apply mirror_tmax_zero|].
  cbn. intros [H _]. lra.
Qed.





(** ** Examples: the field line around a wire *)

Lemma get_phi_unique (x y r : R) (n : Z) :
  Rabs (phi0 x y + 2 * PI * IZR n - r) < PI ->
  get_phi x y r = phi0 x y + 2 * PI * IZR n.
Proof.
  intros Hn.
  pose proof PI_RGT_0 as Hpi.
  destruct (get_phi_branch x y r) as (j & _ & Hk).
  set (k := (round (r / (2 * PI)) + j)%Z) in Hk.
  pose proof (get_phi_closest x y r n) as Hmin.
  rewrite Hk in Hmin |- *.
  assert (k = n) as ->; [|reflexivity].
  apply Rabs_def2 in Hn.
  assert (Rabs (phi0 x y + 2 * PI * IZR k - r) < PI) as Hk'
    by (eapply Rle_lt_trans; [exact Hmin | apply Rabs_def1; lra]).
  apply Rabs_def2 in Hk'.
  assert (IZR k - IZR n < 1) as H1 by nra.
  assert (IZR n - IZR k < 1) as H2 by nra.
  rewrite <- minus_IZR in H1, H2.
  apply lt_IZR in H1, H2. lia.
Qed.

Lemma phi0_east : phi0 1 0 = 0.
Proof.
  unfold phi0, atan2.
  destruct (Rlt_dec 0 1); [|lra].
  replace (0 / 1) with 0 by lra. rewrite atan_0.
  destruct (Rlt_dec 0 0); lra.
Qed.

Lemma phi0_north : phi0 0 1 = PI / 2.
Proof.
  pose proof PI_RGT_0 as Hpi.
  unfold phi0, atan2.
  destruct (Rlt_dec 0 0); [lra|].
  destruct (Rlt_dec 0 1); [|lra].
  destruct (Rlt_dec (PI / 2) 0); lra.
Qed.

Lemma phi0_west : phi0 (-1) 0 = PI.
Proof.
  pose proof PI_RGT_0 as Hpi.
  unfold phi0, atan2.
  destruct (Rlt_dec 0 (-1)); [lra|].
  destruct (Rlt_dec (-1) 0); [|lra].
  destruct (Rle_dec 0 0); [|lra].
  replace (0 / -1) with 0 by lra. rewrite atan_0.
  destruct (Rlt_dec (0 + PI) 0); lra.
Qed.

Lemma round_half : round (/ 2) = 1%Z.
Proof.
  unfold round. destruct (Rle_dec 0 (/ 2)); [|lra].
  apply Zfloor_eq. cbn. lra.
Qed.

Lemma round_zero : round 0 = 0%Z.
Proof.
  unfold round. destruct (Rle_dec 0 0); [|lra].
  apply Zfloor_eq. cbn. lra.
Qed.

(** The angle [solve] starts from when the trace begins at (1, 0, 0). *)
Lemma get_phi_start : get_phi 1 0 PI = 0.
Proof.
  pose proof PI_RGT_0 as Hpi.
  unfold get_phi. fold (phi0 1 0). cbv zeta. rewrite phi0_east.
  replace (PI / (2 * PI)) with (/ 2) by (field; lra).
  rewrite round_half.
  unfold Rmin, Rabs.
  repeat (destruct (Rcase_abs _)); repeat (destruct (Rle_dec _ _)); lra.
Qed.

Lemma get_phi_quarter : get_phi 0 1 0 = PI / 2.
Proof.
  pose proof PI_RGT_0 as Hpi.
  rewrite (get_phi_unique 0 1 0 0); rewrite phi0_north; [lra|].
  apply Rabs_def1; lra.
Qed.

Lemma get_phi_half : get_phi (-1) 0 (PI / 2) = PI.
Proof.
  pose proof PI_RGT_0 as Hpi.
  rewrite (get_phi_unique (-1) 0 (PI / 2) 0); rewrite phi0_west; [lra|].
  apply Rabs_def1; lra.
Qed.

Lemma floor_before_plane :
  floor ((PI / 2 - 0 * 1 - 3 * PI / 4) / (2 * PI)) = (-1)%Z.
Proof.
  pose proof PI_RGT_0 as Hpi.
  replace ((PI / 2 - 0 * 1 - 3 * PI / 4) / (2 * PI)) with (- / 8)
    by (field; lra).
  apply Zfloor_eq. cbn. lra.
Qed.

Lemma floor_after_plane :
  floor ((PI - 0 * 1 - 3 * PI / 4) / (2 * PI)) = 0%Z.
Proof.
  pose proof PI_RGT_0 as Hpi.
  replace ((PI - 0 * 1 - 3 * PI / 4) / (2 * PI)) with (/ 8) by (field; lra).
  apply Zfloor_eq. cbn. lra.
Qed.

Lemma round_at_plane :
  round (((PI / 2 - 0 * 1 + (PI - 0 * 1)) / 2 - 3 * PI / 4) / (2 * PI)) = 0%Z.
Proof.
  pose proof PI_RGT_0 as Hpi.
  replace (((PI / 2 - 0 * 1 + (PI - 0 * 1)) / 2 - 3 * PI / 4) / (2 * PI))
    with 0 by (field; lra).
  apply round_zero.
Qed.

Lemma circle_trace_0 : exists r, circle_trace 0 = Ok (r, []).
Proof.
  pose proof PI_RGT_0 as Hpi.
  unfold circle_trace, fieldline_tracing, solve, run, enter.
  cbn -[get_phi PI cos sin floor round between Reqb Rltb scan_phis].
  unfold body, push_head, advance.
  cbn -[get_phi PI cos sin floor round between Reqb Rltb scan_phis].
  rewrite scan_phis_first_ok by (cbn; lia).
  cbn -[get_phi PI cos sin floor round between Reqb Rltb scan_phis].
  rewrite Rltb_true by lra.
  cbn -[get_phi PI cos sin floor round between Reqb Rltb scan_phis].
  rewrite scan_phis_first_ok by (cbn; lia).
  cbn -[get_phi PI cos sin floor round between Reqb Rltb scan_phis].
  rewrite Rltb_false by lra.
  cbn -[get_phi PI cos sin floor round between Reqb Rltb scan_phis].
  eauto.
Qed.

Lemma circle_trace_1 : exists r ev, circle_trace 1 = Ok (r, [ev]).
Proof.
  pose proof PI_RGT_0 as Hpi.
  unfold circle_trace, fieldline_tracing, solve, run, enter.
  cbn -[get_phi PI cos sin floor round between phase_shift Reqb Rltb scan_phis].
  unfold body, push_head, advance.
  cbn -[get_phi PI cos sin floor round between phase_shift Reqb Rltb scan_phis].
  rewrite scan_phis_first_ok by (cbn; lia).
  cbn -[get_phi PI cos sin floor round between phase_shift Reqb Rltb scan_phis].
  rewrite Rltb_true by lra.
  cbn -[get_phi PI cos sin floor round between phase_shift Reqb Rltb].
  replace (0 + PI / 2 + PI / 2) with PI by lra.
  replace (0 + PI / 2) with (PI / 2) by lra.
  rewrite get_phi_start, cos_PI2, sin_PI2, get_phi_quarter, cos_PI, sin_PI,
    get_phi_half.
  unfold plane_crossed. rewrite Reqb_false by lra.
  rewrite floor_before_plane, floor_after_plane.
  rewrite phase_shift_in_range by (rewrite round_at_plane; lia).
  rewrite round_at_plane.
  cbn -[get_phi PI cos sin floor round between Reqb Rltb].
  unfold between. unfold Rleb at 1 2.
  destruct (Rle_dec _ _); [|lra]. destruct (Rle_dec _ _); [|lra].
  cbn -[get_phi PI cos sin floor round Reqb Rltb].
  unfold refine_root.
  cbn -[get_phi PI cos sin floor round Reqb Rltb].
  rewrite Rltb_false by lra.
  cbn -[get_phi PI cos sin floor round Reqb Rltb].
  eauto.
Qed.

(** C4 fails on the code for the traces in Cartesian coordinates: [solve]
    reads the local [t_current], which only the flux branch assigns, so the
    same arguments give one result when the local happens to hold 0 and
    another when it holds 1. *)
Theorem fieldline_trace_reads_unset_local : circle_trace 0 <> circle_trace 1.
Proof.
  destruct circle_trace_0 as [r ->].
  destruct circle_trace_1 as (r' & ev & ->).
  discriminate.
Qed.

(** The curve of [circle_trace] is the field line: along it the field-line
    right-hand side is the velocity of the curve. *)
Lemma circle_is_field_line (t : R) :
  FieldlineRHS_call wire_field (circle_curve t) = Ok [- sin t; cos t; 0].
Proof.
  pose proof PI_RGT_0 as Hpi.
  unfold FieldlineRHS_call, circle_curve, rphiz. cbn [idx nth_error bind].
  assert (cos t * cos t + sin t * sin t = 1) as H1.
  { pose proof (sin2_cos2 t) as H. unfold Rsqr in H. lra. }
  rewrite H1, sqrt_1.
  destruct (cos_sin_atan2 (cos t) (sin t)) as [Hc Hs].
  { destruct (cos_sin_0_var t); auto. }
  replace (cos t ^ 2 + sin t ^ 2) with 1 in Hc, Hs by lra.
  rewrite sqrt_1 in Hc, Hs.
  set (phi := atan2 (sin t) (cos t)) in *.
  assert (cos (if Rlt_dec phi 0 then phi + 2 * PI else phi) = cos t /\
          sin (if Rlt_dec phi 0 then phi + 2 * PI else phi) = sin t)
    as [Hc' Hs'].
  { destruct (Rlt_dec phi 0).
    - rewrite cos_plus, sin_plus, cos_2PI, sin_2PI, Hc, Hs. split; lra.
    - rewrite Hc, Hs. split; lra. }
  cbn [wire_field B_cyl]. rewrite Hc', Hs'.
  repeat f_equal; lra.
Qed.

(** ** Examples: two crossings that stop the trace in one pass *)

Lemma floor_below_plane (x : R) :
  - (2 * PI) <= x < 0 -> floor (x / (2 * PI)) = (-1)%Z.
Proof.
  intros Hx. pose proof PI_RGT_0 as Hpi.
  apply Zfloor_eq. cbn.
  assert (0 < / (2 * PI)) as Hinv by (apply Rinv_0_lt_compat; lra).
  assert (2 * PI * / (2 * PI) = 1) as H1 by (field; lra).
  unfold Rdiv. nra.
Qed.

Lemma floor_above_plane (x : R) :
  0 <= x < 2 * PI -> floor (x / (2 * PI)) = 0%Z.
Proof.
  intros Hx. pose proof PI_RGT_0 as Hpi.
  apply Zfloor_eq. cbn.
  assert (0 < / (2 * PI)) as Hinv by (apply Rinv_0_lt_compat; lra).
  assert (2 * PI * / (2 * PI) = 1) as H1 by (field; lra).
  unfold Rdiv. nra.
Qed.

Lemma round_on_plane (x : R) : x = 0 -> round (x / (2 * PI)) = 0%Z.
Proof.
  intros ->. unfold Rdiv. rewrite Rmult_0_l. apply round_zero.
Qed.

Ltac planes :=
  repeat match goal with
  | |- context [floor (?x / (2 * PI))] =>
      first [ rewrite (floor_below_plane x) by lra
            | rewrite (floor_above_plane x) by lra ]
  | |- context [phase_shift ?a ?b ?c] =>
      rewrite (phase_shift_in_range a b c)
        by (rewrite round_on_plane by lra; lia)
  | |- context [round (?x / (2 * PI))] =>
      rewrite (round_on_plane x) by lra
  end.

(** With both flags set, the vpar crossing and the zeta crossing of one
    pass each append a terminating sample: here two samples at [t = 3]. *)
Lemma mirror_both_stops_run :
  mirror_both_stops
  = Ok ([[0; / 2; 0; 0; 1]; [2; / 2; 0; 2; -1]; [3; / 2; 0; 3; -2];
         [3; / 2; 0; 3; -2]],
        [[3; 1; / 2; 0; 3; -2]; [3; 0; / 2; 0; 3; -2]]).
Proof.
  pose proof PI_RGT_0 as Hpi. pose proof PI2_1 as Hpi2.
  unfold mirror_both_stops, solve, run, enter, mirror_curve.
  cbn -[floor round PI phase_shift].
  repeat (progress (unfold body, push_head, advance, leave, crossed,
                      plane_crossed, Reqb, Rltb, Rleb, sgn, between;
                    cbn -[floor round PI phase_shift]; planes; cbn -[floor round PI phase_shift];
                    Rdec; cbn -[floor round PI phase_shift])).
  all: repeat f_equal; lra.
Qed.

Lemma stop_samples_coincide :
  exists r h, mirror_both_stops = Ok (r, h) /\ ~ increasing (times r).
Proof.
  eexists _, _. split; [apply mirror_both_stops_run|].
  cbn. intros (_ & _ & H & _). lra.
Qed.

(** ** The right-hand sides: what the equations of motion conserve *)

(** X1: the acceleration that [FullorbitRHS] returns is orthogonal to the
    velocity and to the field: the force does no work, so the speed of a
    full orbit is a constant of the equations, and the first three rates are
    the velocity itself. *)
Theorem fullorbit_force_does_no_work (field : MagneticField)
    (m q x y z vx vy vz : R) :
  m <> 0 ->
  exists ax ay az,
    FullorbitRHS_call field m q [x; y; z; vx; vy; vz]
    = Ok [vx; vy; vz; ax; ay; az] /\
    vx * ax + vy * ay + vz * az = 0 /\
    let '(Bx, By, Bz) := B_at field x y z in
    Bx * ax + By * ay + Bz * az = 0.
Proof.
  intros _. unfold FullorbitRHS_call, B_at. cbn [idx nth_error bind].
  destruct (rphiz x y z) as [[r phi] z'].
  destruct (B_cyl field r phi z') as [[Bx By] Bz].
  do 3 eexists. split; [reflexivity|]. split; ring.
Qed.

Lemma fullorbit_force_does_no_work_witness :
  exists ax ay az,
    FullorbitRHS_call wire_field 1 1 [1; 0; 0; 0; 1; 0]
    = Ok [0; 1; 0; ax; ay; az] /\
    0 * ax + 1 * ay + 0 * az = 0 /\
    let '(Bx, By, Bz) := B_at wire_field 1 0 0 in
    Bx * ax + By * ay + Bz * az = 0.
Proof. apply (fullorbit_force_does_no_work wire_field 1 1 1 0 0 0 1 0). lra. Defined.

(** X2: along the rates that [GuidingCenterVacuumRHS] returns, the energy
    [v_par^2 / 2 + mu |B|] does not change: [v_par] times its rate plus
    [mu] times the rate of [|B|] along the drift, [grad |B| . (dx, dy, dz)],
    is zero. *)
Theorem guiding_center_vacuum_conserves_energy (field : MagneticField)
    (m q mu x y z v_par : R) :
  AbsB_at field x y z <> 0 ->
  q <> 0 ->
  exists dx dy dz dv,
    GuidingCenterVacuumRHS_call field m q mu [x; y; z; v_par]
    = Ok [dx; dy; dz; dv] /\
    let '(G0, G1, G2) := GradAbsB_at field x y z in
    v_par * dv + mu * (G0 * dx + G1 * dy + G2 * dz) = 0.
Proof.
  intros _ _.
  unfold GuidingCenterVacuumRHS_call, GradAbsB_at. cbn [idx nth_error bind].
  destruct (rphiz x y z) as [[r phi] z'].
  destruct (GradAbsB_cyl field r phi z') as [[G0 G1] G2].
  destruct (B_cyl field r phi z') as [[B0 B1] B2].
  do 4 eexists. split; [reflexivity|]. unfold Rdiv. ring.
Qed.

Lemma guiding_center_vacuum_conserves_energy_witness :
  exists dx dy dz dv,
    GuidingCenterVacuumRHS_call wire_field 1 1 1 [1; 0; 0; 1]
    = Ok [dx; dy; dz; dv] /\
    let '(G0, G1, G2) := GradAbsB_at wire_field 1 0 0 in
    1 * dv + 1 * (G0 * dx + G1 * dy + G2 * dz) = 0.
Proof.
  apply (guiding_center_vacuum_conserves_energy wire_field 1 1 1 1 0 0 1);
    [|lra].
  unfold AbsB_at, rphiz, wire_field. cbn.
  replace (1 * 1 + 0 * 0) with 1 by ring. rewrite sqrt_1. lra.
Defined.

(** X3: along the rates that [GuidingCenterVacuumBoozerRHS] returns in the
    chart 0, the energy [v_par^2 / 2 + mu |B|] does not change. *)
Theorem guiding_center_vacuum_boozer_conserves_energy
    (field : BoozerMagneticField) (m q mu s theta zeta v_par : R) :
  q <> 0 ->
  psi0 field <> 0 ->
  modB_ref field s theta zeta <> 0 ->
  G_ref field s theta zeta <> 0 ->
  exists ds dtheta dzeta dv,
    GuidingCenterVacuumBoozerRHS_call field m q mu 0 [s; theta; zeta; v_par]
    = Ok [ds; dtheta; dzeta; dv] /\
    let '(dmodBds, dmodBdtheta, dmodBdzeta) :=
      modB_derivs_ref field s theta zeta in
    v_par * dv
    + mu * (dmodBds * ds + dmodBdtheta * dtheta + dmodBdzeta * dzeta) = 0.
Proof.
  intros Hq Hpsi HB HG.
  unfold GuidingCenterVacuumBoozerRHS_call, to_canonical.
  cbn [idx nth_error bind Z.eqb].
  destruct (modB_derivs_ref field s theta zeta) as [[dBs dBt] dBz].
  do 4 eexists. split; [reflexivity|]. field. auto.
Qed.

Lemma guiding_center_vacuum_boozer_conserves_energy_witness :
  exists ds dtheta dzeta dv,
    GuidingCenterVacuumBoozerRHS_call unit_boozer_field 1 1 1 0 [1; 0; 0; 1]
    = Ok [ds; dtheta; dzeta; dv] /\
    let '(dmodBds, dmodBdtheta, dmodBdzeta) :=
      modB_derivs_ref unit_boozer_field 1 0 0 in
    1 * dv
    + 1 * (dmodBds * ds + dmodBdtheta * dtheta + dmodBdzeta * dzeta) = 0.
Proof.
  apply (guiding_center_vacuum_boozer_conserves_energy unit_boozer_field
           1 1 1 1 0 0 1); cbn; lra.
Defined.

(** ** The right-hand sides: charts and limits *)

Lemma chart_rates_polar (y0 y1 sdot tdot : R) :
  (y0 <> 0 \/ y1 <> 0) ->
  let theta := atan2 y1 y0 in
  (let '(d0, d1) := chart_rates 1 (y0 ^ 2 + y1 ^ 2) theta sdot tdot in
   2 * (y0 * d0 + y1 * d1) = sdot /\
   y0 * d1 - y1 * d0 = (y0 ^ 2 + y1 ^ 2) * tdot) /\
  (let '(d0, d1) := chart_rates 2 (sqrt (y0 ^ 2 + y1 ^ 2)) theta sdot tdot in
   y0 * d0 + y1 * d1 = sqrt (y0 ^ 2 + y1 ^ 2) * sdot /\
   y0 * d1 - y1 * d0 = sqrt (y0 ^ 2 + y1 ^ 2) ^ 2 * tdot).
Proof.
  intros Hne theta.
  pose proof (norm2_pos y0 y1 Hne) as Hn.
  pose proof (sqrt_lt_R0 _ Hn) as Hr.
  pose proof (sqrt_sqrt (y0 ^ 2 + y1 ^ 2) (Rlt_le _ _ Hn)) as Hrr.
  destruct (cos_sin_atan2 y0 y1 Hne) as [Hc Hs].
  unfold chart_rates. cbn [Z.eqb Pos.eqb]. fold theta in Hc, Hs.
  rewrite Hc, Hs.
  set (r := sqrt (y0 ^ 2 + y1 ^ 2)) in *.
  assert (y0 ^ 2 + y1 ^ 2 = r * r) as -> by lra.
  assert (y1 * y1 = r * r - y0 * y0) as Hy by nra.
  repeat split.
  - transitivity (sdot * (y0 * y0 + y1 * y1) / (r * r)); [field; lra|].
    rewrite Hy. field. lra.
  - transitivity ((y0 * y0 + y1 * y1) * tdot); [field; lra|].
    rewrite Hy. ring.
  - transitivity (sdot * (y0 * y0 + y1 * y1) / r); [field; lra|].
    rewrite Hy. field. lra.
  - transitivity ((y0 * y0 + y1 * y1) * tdot); [field; lra|].
    rewrite Hy. ring.
Qed.

(** X4: the rates that [GuidingCenterBoozerRHS] returns in the charts 1 and
    2 are those of the chart 0 at the same point, carried over: with
    [(s, theta)] the canonical coordinates of the state [(y0, y1)], the
    rates [(d0, d1)] of the chart give [s] and [theta] the rates [sdot] and
    [tdot] of the chart 0 (in chart 1, [s = y0^2 + y1^2] changes at
    [2 (y0 d0 + y1 d1)]; in chart 2, [s = sqrt (y0^2 + y1^2)] changes at
    [(y0 d0 + y1 d1) / s]; [theta] changes at
    [(y0 d1 - y1 d0) / (y0^2 + y1^2)]), and the rates of [zeta] and [v_par]
    are the same. *)
Theorem boozer_rhs_charts_agree (field : BoozerMagneticField)
    (m q mu : R) (c : Z) (y0 y1 zeta v_par : R) :
  (c = 1 \/ c = 2)%Z ->
  (y0 <> 0 \/ y1 <> 0) ->
  exists s theta d0 d1 sdot tdot dzeta dv,
    to_canonical c y0 y1 = (s, theta) /\
    GuidingCenterBoozerRHS_call field m q mu c [y0; y1; zeta; v_par]
    = Ok [d0; d1; dzeta; dv] /\
    GuidingCenterBoozerRHS_call field m q mu 0 [s; theta; zeta; v_par]
    = Ok [sdot; tdot; dzeta; dv] /\
    (if (c =? 1)%Z then 2 * (y0 * d0 + y1 * d1) = sdot
     else y0 * d0 + y1 * d1 = s * sdot) /\
    y0 * d1 - y1 * d0 = (y0 ^ 2 + y1 ^ 2) * tdot.
Proof.
  intros Hc Hne.
  pose proof (norm2_pos y0 y1 Hne) as Hn.
  unfold GuidingCenterBoozerRHS_call.
  cbn [idx nth_error bind].
  destruct Hc as [-> | ->]; unfold to_canonical at 1 2; cbn [Z.eqb Pos.eqb].
  - exists (y0 ^ 2 + y1 ^ 2), (atan2 y1 y0).
    unfold to_canonical; cbn [Z.eqb Pos.eqb].
    destruct (K_derivs_ref field _ _ zeta) as [dKt dKz].
    destruct (modB_derivs_ref field _ _ zeta) as [[dBs dBt] dBz].
    cbv zeta.
    match goal with
    | |- context [chart_rates 1 _ _ ?a ?b] =>
      destruct (chart_rates_polar y0 y1 a b Hne) as [H _];
      destruct (chart_rates 1 (y0 ^ 2 + y1 ^ 2) (atan2 y1 y0) a b) as [d0 d1];
      exists d0, d1, a, b
    end.
    do 2 eexists. split; [reflexivity|]. split; [reflexivity|].
    split; [reflexivity|]. exact H.
  - exists (sqrt (y0 ^ 2 + y1 ^ 2)), (atan2 y1 y0).
    unfold to_canonical; cbn [Z.eqb Pos.eqb].
    destruct (K_derivs_ref field _ _ zeta) as [dKt dKz].
    destruct (modB_derivs_ref field _ _ zeta) as [[dBs dBt] dBz].
    cbv zeta.
    match goal with
    | |- context [chart_rates 2 _ _ ?a ?b] =>
      destruct (chart_rates_polar y0 y1 a b Hne) as [_ H];
      destruct (chart_rates 2 (sqrt (y0 ^ 2 + y1 ^ 2)) (atan2 y1 y0) a b)
        as [d0 d1];
      exists d0, d1, a, b
    end.
    do 2 eexists. split; [reflexivity|]. split; [reflexivity|].
    split; [reflexivity|]. destruct H as [H1 H2]. split; [exact H1|].
    rewrite H2. f_equal.
    rewrite <- Rsqr_pow2. unfold Rsqr. apply sqrt_sqrt. lra.
Qed.

Lemma boozer_rhs_charts_agree_witness :
  exists s theta d0 d1 sdot tdot dzeta dv,
    to_canonical 1 1 0 = (s, theta) /\
    GuidingCenterBoozerRHS_call unit_boozer_field 1 1 1 1 [1; 0; 0; 1]
    = Ok [d0; d1; dzeta; dv] /\
    GuidingCenterBoozerRHS_call unit_boozer_field 1 1 1 0 [s; theta; 0; 1]
    = Ok [sdot; tdot; dzeta; dv] /\
    (if (1 =? 1)%Z then 2 * (1 * d0 + 0 * d1) = sdot
     else 1 * d0 + 0 * d1 = s * sdot) /\
    1 * d1 - 0 * d0 = (1 ^ 2 + 0 ^ 2) * tdot.
Proof.
  apply (boozer_rhs_charts_agree unit_boozer_field 1 1 1 1 1 0 0 1);
    [left; reflexivity | left; lra].
Defined.

(** X5: for a field whose [K] and its derivatives vanish,
    [GuidingCenterBoozerRHS] returns the rates of
    [GuidingCenterNoKBoozerRHS]: the second class is the first in the limit
    [K = 0]. *)
Theorem boozer_rhs_without_K (field : BoozerMagneticField) (m q mu : R)
    (axis : Z) (ys : State) :
  (forall s theta zeta, K_ref field s theta zeta = 0) ->
  (forall s theta zeta, K_derivs_ref field s theta zeta = (0, 0)) ->
  GuidingCenterBoozerRHS_call field m q mu axis ys
  = GuidingCenterNoKBoozerRHS_call field m q mu axis ys.
Proof.
  intros HK HdK.
  unfold GuidingCenterBoozerRHS_call, GuidingCenterNoKBoozerRHS_call.
  destruct (idx ys 3) as [v_par |]; [|reflexivity].
  destruct (idx ys 0) as [ys0 |]; [|reflexivity].
  destruct (idx ys 1) as [ys1 |]; [|reflexivity].
  destruct (idx ys 2) as [ys2 |]; [|reflexivity].
  cbn [bind].
  destruct (to_canonical axis ys0 ys1) as [s theta].
  rewrite HK, HdK.
  destruct (modB_derivs_ref field s theta ys2) as [[dBs dBt] dBz].
  cbv zeta.
  set (modB := modB_ref field s theta ys2).
  set (dGdpsi := dGds_ref field s theta ys2 / psi0 field).
  set (dIdpsi := dIds_ref field s theta ys2 / psi0 field).
  set (iota := iota_ref field s theta ys2).
  replace (- m * v_par * (0 - dGdpsi) / modB - q * iota)
    with (- q * iota + m * v_par * dGdpsi / modB) by (unfold Rdiv; ring).
  replace (- m * v_par * (0 - dIdpsi) / modB + q)
    with (q + m * v_par * dIdpsi / modB) by (unfold Rdiv; ring).
  rewrite !Rmult_0_l, Rminus_0_r, Rplus_0_r.
  reflexivity.
Qed.

Lemma boozer_rhs_without_K_witness :
  GuidingCenterBoozerRHS_call unit_boozer_field 1 1 1 0 [1; 0; 0; 1]
  = GuidingCenterNoKBoozerRHS_call unit_boozer_field 1 1 1 0 [1; 0; 0; 1].
Proof.
  apply (boozer_rhs_without_K unit_boozer_field 1 1 1 0 [1; 0; 0; 1]);
    reflexivity.
Defined.

(** X6: where the field has [I = 0] and [G] and [I] do not change with [s],
    and [v_par] is not zero, [GuidingCenterNoKBoozerRHS] returns the rates of
    [GuidingCenterVacuumBoozerRHS]. *)
Theorem nok_rhs_vacuum_limit (field : BoozerMagneticField) (m q mu : R)
    (axis : Z) (y0 y1 zeta v_par s theta : R) :
  to_canonical axis y0 y1 = (s, theta) ->
  I_ref field s theta zeta = 0 ->
  dGds_ref field s theta zeta = 0 ->
  dIds_ref field s theta zeta = 0 ->
  G_ref field s theta zeta <> 0 ->
  iota_ref field s theta zeta <> 0 ->
  modB_ref field s theta zeta <> 0 ->
  psi0 field <> 0 ->
  q <> 0 ->
  v_par <> 0 ->
  GuidingCenterNoKBoozerRHS_call field m q mu axis [y0; y1; zeta; v_par]
  = GuidingCenterVacuumBoozerRHS_call field m q mu axis [y0; y1; zeta; v_par].
Proof.
  intros Hcan HI HdG HdI HG Hiota HB Hpsi Hq Hv.
  unfold GuidingCenterNoKBoozerRHS_call, GuidingCenterVacuumBoozerRHS_call.
  cbn [idx nth_error bind]. rewrite Hcan, HI, HdG, HdI.
  destruct (modB_derivs_ref field s theta zeta) as [[dBs dBt] dBz].
  cbv zeta.
  set (modB := modB_ref field s theta zeta) in *.
  set (G := G_ref field s theta zeta) in *.
  set (iota := iota_ref field s theta zeta) in *.
  set (psi := psi0 field) in *.
  match goal with
  | |- context [chart_rates _ _ _ ?a ?b] =>
    match goal with
    | |- context [if (axis =? 2)%Z then _ else (?c, ?d)] =>
      replace a with c by (field; repeat split; assumption);
      replace b with d by (field; repeat split; assumption)
    end
  end.
  unfold chart_rates.
  destruct (axis =? 1)%Z; [|destruct (axis =? 2)%Z];
    (do 4 f_equal; [|f_equal]; field; repeat split; assumption).
Qed.

Lemma nok_rhs_vacuum_limit_witness :
  GuidingCenterNoKBoozerRHS_call unit_boozer_field 1 1 1 0 [1; 0; 0; 1]
  = GuidingCenterVacuumBoozerRHS_call unit_boozer_field 1 1 1 0 [1; 0; 0; 1].
Proof.
  apply (nok_rhs_vacuum_limit unit_boozer_field 1 1 1 0 1 0 0 1 1 0);
    cbn; try reflexivity; lra.
Defined.

(** X7: with the amplitude [Phihat] of the wave at zero (and a frequency
    that is not zero), [GuidingCenterVacuumBoozerPerturbedRHS] returns the
    rates of [GuidingCenterVacuumBoozerRHS] for the first four components,
    and the rate 1 for its fifth, the time. *)
Theorem perturbed_vacuum_rhs_without_wave (field : BoozerMagneticField)
    (m q mu omega : R) (Phim Phin : Z) (phase : R) (axis : Z)
    (y0 y1 zeta v_par time s theta : R) :
  to_canonical axis y0 y1 = (s, theta) ->
  m <> 0 ->
  q <> 0 ->
  omega <> 0 ->
  psi0 field <> 0 ->
  G_ref field s theta zeta <> 0 ->
  modB_ref field s theta zeta <> 0 ->
  GuidingCenterVacuumBoozerPerturbedRHS_call field m q mu 0 omega Phim Phin
    phase axis [y0; y1; zeta; v_par; time]
  = (d <- GuidingCenterVacuumBoozerRHS_call field m q mu axis
            [y0; y1; zeta; v_par] ;;
     Ok (d ++ [1])).
Proof.
  intros Hcan Hm Hq Hom Hpsi HG HB.
  unfold GuidingCenterVacuumBoozerPerturbedRHS_call,
    GuidingCenterVacuumBoozerRHS_call.
  cbn [idx nth_error bind]. rewrite Hcan.
  destruct (modB_derivs_ref field s theta zeta) as [[dBs dBt] dBz].
  cbv zeta.
  set (modB := modB_ref field s theta zeta) in *.
  set (G := G_ref field s theta zeta) in *.
  set (iota := iota_ref field s theta zeta) in *.
  set (psi := psi0 field) in *.
  match goal with
  | |- context [chart_rates _ _ _ ?a ?b] =>
    match goal with
    | |- context [if (axis =? 2)%Z then _ else (?c, ?d)] =>
      replace a with c by (field; repeat split; assumption);
      replace b with d by (field; repeat split; assumption)
    end
  end.
  unfold chart_rates.
  destruct (axis =? 1)%Z; [|destruct (axis =? 2)%Z];
    cbn [bind app];
    (do 5 f_equal; field; repeat split; assumption).
Qed.

Lemma perturbed_vacuum_rhs_without_wave_witness :
  GuidingCenterVacuumBoozerPerturbedRHS_call unit_boozer_field 1 1 1 0 1 1 1
    0 0 [1; 0; 0; 1; 0]
  = (d <- GuidingCenterVacuumBoozerRHS_call unit_boozer_field 1 1 1 0
            [1; 0; 0; 1] ;;
     Ok (d ++ [1])).
Proof.
  apply (perturbed_vacuum_rhs_without_wave unit_boozer_field 1 1 1 1 1 1 0 0
           1 0 0 1 0 1 0);
    cbn; try reflexivity; lra.
Defined.

(** X8: with the amplitude [Phihat] of the wave at zero,
    [GuidingCenterNoKBoozerPerturbedRHS] returns the rates of
    [GuidingCenterNoKBoozerRHS] for the first four components, and the rate
    1 for the time, wherever the denominators of both are not zero. *)
Theorem perturbed_nok_rhs_without_wave (field : BoozerMagneticField)
    (m q mu omega : R) (Phim Phin : Z) (phase : R) (axis : Z)
    (y0 y1 zeta v_par time s theta : R) :
  to_canonical axis y0 y1 = (s, theta) ->
  let modB := modB_ref field s theta zeta in
  let G := G_ref field s theta zeta in
  let I := I_ref field s theta zeta in
  let iota := iota_ref field s theta zeta in
  let dGdpsi := dGds_ref field s theta zeta / psi0 field in
  let dIdpsi := dIds_ref field s theta zeta / psi0 field in
  m <> 0 ->
  omega <> 0 ->
  v_par <> 0 ->
  psi0 field <> 0 ->
  modB <> 0 ->
  iota <> 0 ->
  G + iota * I <> 0 ->
  q * (G + I * iota) + m * v_par / modB * (- dGdpsi * I + G * dIdpsi) <> 0 ->
  GuidingCenterNoKBoozerPerturbedRHS_call field m q mu 0 omega Phim Phin
    phase axis [y0; y1; zeta; v_par; time]
  = (d <- GuidingCenterNoKBoozerRHS_call field m q mu axis
            [y0; y1; zeta; v_par] ;;
     Ok (d ++ [1])).
Proof.
  intros Hcan modB G I iota dGdpsi dIdpsi Hm Hom Hv Hpsi HB Hiota HGI Hden.
  unfold GuidingCenterNoKBoozerPerturbedRHS_call,
    GuidingCenterNoKBoozerRHS_call.
  cbn [idx nth_error bind]. rewrite Hcan.
  destruct (modB_derivs_ref field s theta zeta) as [[dBs dBt] dBz].
  cbv zeta.
  fold modB G I iota.
  set (dG := dGds_ref field s theta zeta) in *.
  set (dI := dIds_ref field s theta zeta) in *.
  set (psi := psi0 field) in *.
  set (sn := sin _). set (cs := cos _).
  set (dio := diotads_ref field s theta zeta).
  set (P := q * (G + I * iota) * psi * modB
            + m * v_par * (- dG * I + G * dI)).
  assert (P <> 0) as HP.
  { intros E. apply Hden. unfold dGdpsi, dIdpsi.
    transitivity (P / (psi * modB)); [unfold P; field; auto|].
    rewrite E. field. auto. }
  assert (forall X, X = P -> X <> 0) as HP1 by (intros X ->; exact HP).
  assert (forall X, X = omega * (G + iota * I) * P -> X <> 0) as HP2.
  { intros X ->.
    repeat apply Rmult_integral_contrapositive_currified; assumption. }
  match goal with
  | |- ?L = ?R =>
    match L with
    | context [chart_rates _ _ _ ?a ?b] =>
      match R with
      | context [chart_rates _ _ _ ?c ?d] =>
        replace a with c
          by (field; repeat split; try assumption;
              (apply HP1 + apply HP2); unfold P; ring);
        replace b with d
          by (field; repeat split; try assumption;
              (apply HP1 + apply HP2); unfold P; ring)
      end
    end
  end.
  destruct (chart_rates axis s theta _ _) as [d0 d1].
  cbn [bind app].
  do 4 f_equal; [|f_equal];
    (field; repeat split; try assumption;
     (apply HP1 + apply HP2); unfold P; ring).
Qed.

Lemma perturbed_nok_rhs_without_wave_witness :
  GuidingCenterNoKBoozerPerturbedRHS_call unit_boozer_field 1 1 1 0 1 1 1
    0 0 [1; 0; 0; 1; 0]
  = (d <- GuidingCenterNoKBoozerRHS_call unit_boozer_field 1 1 1 0
            [1; 0; 0; 1] ;;
     Ok (d ++ [1])).
Proof.
  apply (perturbed_nok_rhs_without_wave unit_boozer_field 1 1 1 1 1 1 0 0
           1 0 0 1 0 1 0);
    cbn; try reflexivity; lra.
Defined.

(** ** [get_phi] and the charts, continued *)

Lemma get_phi_half_open (x y r : R) : r - PI <= get_phi x y r < r + PI.
Proof.
  pose proof PI_RGT_0 as Hpi.
  pose proof (phi0_range x y) as Hphi.
  pose proof (nearest_multiple_near r) as Hnm.
  apply Rabs_le_between in Hnm.
  pose proof (get_phi_within_pi x y r) as Hw.
  apply Rabs_le_between in Hw.
  split; [lra|].
  revert Hw. unfold get_phi. fold (phi0 x y).
  set (nm := IZR (round (r / (2 * PI))) * 2 * PI) in *.
  cbv zeta. unfold Rmin, Rabs.
  repeat (destruct (Rle_dec _ _) in * );
    repeat (destruct (Rcase_abs _) in * ); lra.
Qed.

Lemma get_phi_unique_half (x y r : R) (k : Z) :
  r - PI <= phi0 x y + 2 * PI * IZR k < r + PI ->
  get_phi x y r = phi0 x y + 2 * PI * IZR k.
Proof.
  pose proof PI_RGT_0 as Hpi.
  pose proof (get_phi_half_open x y r) as Hh.
  intros Hk.
  destruct (get_phi_branch x y r) as (j & _ & Hj).
  set (n := (round (r / (2 * PI)) + j)%Z) in Hj.
  rewrite Hj in Hh |- *.
  assert (n = k) as ->; [|reflexivity].
  assert (IZR n - IZR k < 1) as H1 by nra.
  assert (IZR k - IZR n < 1) as H2 by nra.
  rewrite <- minus_IZR in H1, H2. apply lt_IZR in H1, H2. lia.
Qed.

(** X9: [get_phi x y ref] is the one angle [phi0 + 2 PI k] of the point that
    lies in [[ref - PI, ref + PI)]: of two branches at the same distance
    [PI] from [ref] the lower one is returned. *)
Theorem get_phi_is_the_branch_around_ref (x y r : R) (k : Z) :
  get_phi x y r = phi0 x y + 2 * PI * IZR k
  <-> r - PI <= phi0 x y + 2 * PI * IZR k < r + PI.
Proof.
  split; [intros <-; apply get_phi_half_open | apply get_phi_unique_half].
Qed.

(** X10: [get_phi] follows its reference angle: moving the reference by a
    whole number of turns moves the result by as much, and the result is a
    fixed point, [get_phi x y (get_phi x y ref) = get_phi x y ref]. *)
Theorem get_phi_follows_ref (x y r : R) (n : Z) :
  get_phi x y (r + 2 * PI * IZR n) = get_phi x y r + 2 * PI * IZR n /\
  get_phi x y (get_phi x y r) = get_phi x y r.
Proof.
  pose proof PI_RGT_0 as Hpi.
  pose proof (get_phi_half_open x y r) as Hh.
  destruct (get_phi_branch x y r) as (j & _ & Hj).
  set (k := (round (r / (2 * PI)) + j)%Z) in Hj.
  split.
  - rewrite Hj.
    replace (phi0 x y + 2 * PI * IZR k + 2 * PI * IZR n)
      with (phi0 x y + 2 * PI * IZR (k + n)) by (rewrite plus_IZR; ring).
    apply get_phi_unique_half. rewrite plus_IZR. rewrite Hj in Hh. lra.
  - rewrite Hj at 2. apply get_phi_unique_half. rewrite <- Hj. lra.
Qed.

Lemma cos_sin_turns (a : R) (k : Z) :
  cos (a + 2 * PI * IZR k) = cos a /\ sin (a + 2 * PI * IZR k) = sin a.
Proof.
  destruct (Z_le_gt_dec 0 k) as [Hk | Hk].
  - replace (a + 2 * PI * IZR k) with (a + 2 * INR (Z.to_nat k) * PI)
      by (rewrite INR_IZR_INZ, Z2Nat.id by lia; ring).
    now rewrite cos_period, sin_period.
  - rewrite <- (cos_period (a + 2 * PI * IZR k) (Z.to_nat (- k))).
    rewrite <- (sin_period (a + 2 * PI * IZR k) (Z.to_nat (- k))).
    replace (a + 2 * PI * IZR k + 2 * INR (Z.to_nat (- k)) * PI) with a
      by (rewrite INR_IZR_INZ, Z2Nat.id, opp_IZR by lia; ring).
    easy.
Qed.

Lemma cos_sin_phi0 (x y : R) :
  cos (phi0 x y) = cos (atan2 y x) /\ sin (phi0 x y) = sin (atan2 y x).
Proof.
  unfold phi0. destruct (Rlt_dec (atan2 y x) 0); [|easy].
  replace (atan2 y x + 2 * PI) with (atan2 y x + 2 * PI * IZR 1) by ring.
  apply cos_sin_turns.
Qed.

(** X11: the angle [get_phi] returns is an angle of the point it is given:
    with [r] the distance of [(x, y)] from the origin,
    [(r cos (get_phi x y ref), r sin (get_phi x y ref)) = (x, y)], whatever
    the reference. *)
Theorem get_phi_is_an_angle_of_the_point (x y ref : R) :
  sqrt (x ^ 2 + y ^ 2) * cos (get_phi x y ref) = x /\
  sqrt (x ^ 2 + y ^ 2) * sin (get_phi x y ref) = y.
Proof.
  destruct (get_phi_branch x y ref) as (j & _ & ->).
  destruct (cos_sin_turns (phi0 x y) (round (ref / (2 * PI)) + j)) as [-> ->].
  destruct (cos_sin_phi0 x y) as [-> ->].
  destruct (Req_dec_T x 0) as [Hx | Hx]; [destruct (Req_dec_T y 0) as [Hy | Hy]|].
  - subst. replace (0 ^ 2 + 0 ^ 2) with 0 by ring. rewrite sqrt_0. lra.
  - destruct (cos_sin_atan2 x y (or_intror Hy)) as [-> ->].
    pose proof (sqrt_lt_R0 _ (norm2_pos x y (or_intror Hy))).
    split; field; lra.
  - destruct (cos_sin_atan2 x y (or_introl Hx)) as [-> ->].
    pose proof (sqrt_lt_R0 _ (norm2_pos x y (or_introl Hx))).
    split; field; lra.
Qed.

(** X12: a chart state is recovered from its canonical coordinates: for
    every chart and every [(y0, y1)], [from_canonical] applied to
    [to_canonical c y0 y1] gives [(y0, y1)] back, the origin included. *)
Theorem chart_state_recovered (c : Z) (y0 y1 : R) :
  let '(s, theta) := to_canonical c y0 y1 in
  from_canonical c s theta = (y0, y1).
Proof.
  unfold to_canonical, from_canonical.
  assert (forall r, r = sqrt (y0 ^ 2 + y1 ^ 2) ->
            (r * cos (atan2 y1 y0), r * sin (atan2 y1 y0)) = (y0, y1)) as H.
  { intros r ->.
    destruct (Req_dec_T y0 0) as [Hx | Hx];
      [destruct (Req_dec_T y1 0) as [Hy | Hy]|].
    - subst. replace (0 ^ 2 + 0 ^ 2) with 0 by ring. rewrite sqrt_0.
      f_equal; ring.
    - destruct (cos_sin_atan2 y0 y1 (or_intror Hy)) as [-> ->].
      pose proof (sqrt_lt_R0 _ (norm2_pos y0 y1 (or_intror Hy))).
      f_equal; field; lra.
    - destruct (cos_sin_atan2 y0 y1 (or_introl Hx)) as [-> ->].
      pose proof (sqrt_lt_R0 _ (norm2_pos y0 y1 (or_introl Hx))).
      f_equal; field; lra. }
  destruct (c =? 1)%Z; [|destruct (c =? 2)%Z]; auto.
Qed.

(** ** The kinds of event record *)

Lemma plane_scan_adds_no_out mk n lo hi armed :
  plane_scan_adds mk n lo hi armed no_out.
Proof. split; [constructor | now left]. Qed.

Lemma plane_scan_adds_wider mk n lo lo' hi hi' armed e :
  (lo' <= lo)%nat -> (hi <= hi')%nat ->
  plane_scan_adds mk n lo hi armed e -> plane_scan_adds mk n lo' hi' armed e.
Proof.
  intros Hlo Hhi [Hh Hq]. split; [|exact Hq].
  eapply Forall_impl; [|exact Hh].
  intros ev (t & j & ykeep & -> & Hj). exists t, j, ykeep. split; [easy | lia].
Qed.

Lemma plane_scan_adds_unarmed mk n lo hi e :
  plane_scan_adds mk n lo hi false e -> res e = [] /\ stop e = false.
Proof. intros [_ [H | (H & _)]]; [exact H | discriminate]. Qed.

Section Kinds.

Variable B : Boost.
Variable rhs : RHS.
Variables tmax abstol : R.
Variables phis omegas : list R.
Variable stopping_criteria : list (option StoppingCriterion).
Variable vpars : list R.
Variables phis_stop vpars_stop flux forget_exact_path : bool.

Local Abbreviation body' :=
  (body B rhs abstol phis omegas stopping_criteria vpars phis_stop
     vpars_stop flux forget_exact_path).
Local Abbreviation loop' :=
  (loop B rhs tmax abstol phis omegas stopping_criteria vpars phis_stop
     vpars_stop flux forget_exact_path).

Lemma scan_vpars_adds d a b vl vc vs : forall i e,
  scan_vpars B rhs abstol phis vpars_stop d a b vl vc i vs no_out = Ok e ->
  plane_scan_adds VparPlane (length phis) i (i + length vs) vpars_stop e.
Proof.
  induction vs as [| vpar vs IH]; intros i e H.
  - injection H as <-. apply plane_scan_adds_no_out.
  - cbn [scan_vpars length] in *.
    assert (forall e', scan_vpars B rhs abstol phis vpars_stop d a b vl vc
                         (S i) vs no_out = Ok e' ->
              plane_scan_adds VparPlane (length phis) i (i + S (length vs))
                vpars_stop e') as IH'.
    { intros e' He'. eapply plane_scan_adds_wider; [| |apply IH, He']; lia. }
    destruct (crossed vl vc vpar); [|auto].
    apply bind_Ok in H as ([troot ykeep] & _ & H).
    assert (exists t j yk,
              join [troot; INR i + INR (length phis)] ykeep
              = join [t; kind_code (length phis) (VparPlane j)] yk /\
              (i <= j < i + S (length vs))%nat) as Hev
      by (exists troot, i, ykeep; split; [reflexivity | lia]).
    destruct vpars_stop.
    + injection H as <-. split; cbn.
      * constructor; [exact Hev | constructor].
      * right. eauto.
    + rewrite <- (app_out_no_out (push_hit _ _)) in H.
      rewrite scan_vpars_frame in H.
      apply bind_Ok in H as (e1 & He1 & H). injection H as <-.
      destruct (IH' _ He1) as [Hh Hq]. split; cbn.
      * constructor; [exact Hev | exact Hh].
      * exact Hq.
Qed.

Lemma scan_phis_adds d a b pl pc tl tc ps : forall i e,
  scan_phis B rhs abstol omegas phis_stop flux d a b pl pc tl tc i ps no_out
    = Ok e ->
  plane_scan_adds PhiPlane (length phis) i (i + length ps) phis_stop e.
Proof.
  induction ps as [| phi ps IH]; intros i e H.
  - injection H as <-. apply plane_scan_adds_no_out.
  - cbn [scan_phis length] in *.
    assert (forall e', scan_phis B rhs abstol omegas phis_stop flux d a b pl
                         pc tl tc (S i) ps no_out = Ok e' ->
              plane_scan_adds PhiPlane (length phis) i (i + S (length ps))
                phis_stop e') as IH'.
    { intros e' He'. eapply plane_scan_adds_wider; [| |apply IH, He']; lia. }
    apply bind_Ok in H as (omega & _ & H).
    destruct (plane_crossed _ _ _ _); [|auto].
    destruct (between _ _ _); [|discriminate].
    apply bind_Ok in H as ([troot ykeep] & _ & H).
    assert (exists t j yk,
              join [troot; INR i] ykeep
              = join [t; kind_code (length phis) (PhiPlane j)] yk /\
              (i <= j < i + S (length ps))%nat) as Hev
      by (exists troot, i, ykeep; split; [reflexivity | lia]).
    destruct phis_stop.
    + injection H as <-. split; cbn.
      * constructor; [exact Hev | constructor].
      * right. eauto.
    + rewrite <- (app_out_no_out (push_hit _ _)) in H.
      rewrite scan_phis_frame in H.
      apply bind_Ok in H as (e1 & He1 & H). injection H as <-.
      destruct (IH' _ He1) as [Hh Hq]. split; cbn.
      * constructor; [exact Hev | exact Hh].
      * exact Hq.
Qed.

Lemma scan_criteria_fired iter dt t y cs : forall i e,
  scan_criteria rhs iter dt t y i cs no_out = Ok e ->
  criterion_fired rhs iter dt t y cs i e.
Proof.
  induction cs as [| c cs IH]; intros i e H.
  - injection H as <-. now left.
  - assert (forall e', scan_criteria rhs iter dt t y (S i) cs no_out = Ok e' ->
              criterion_fired rhs iter dt t y (c :: cs) i e') as IH'.
    { intros e' He'. destruct (IH _ _ He') as [-> | Hf]; [now left|].
      destruct Hf as (j & crit & yk & k0 & k1 & k2 & k3 & Hj & Hrest).
      right. exists (S j), crit, yk, k0, k1, k2, k3.
      split; [exact Hj|]. now rewrite Nat.add_succ_r. }
    cbn [scan_criteria] in H. apply bind_Ok in H as (ykeep & Hk & H).
    destruct c as [criterion |]; [|auto].
    apply bind_Ok in H as (k0 & H0 & H).
    apply bind_Ok in H as (k1 & H1 & H).
    apply bind_Ok in H as (k2 & H2 & H).
    apply bind_Ok in H as (k3 & H3 & H).
    destruct (criterion _ _ _ _ _ _ _) eqn:Hc; [|auto].
    injection H as <-. right.
    exists 0%nat, criterion, ykeep, k0, k1, k2, k3.
    rewrite Nat.add_0_r. repeat split; assumption.
Qed.

(** One pass of the loop, by the kinds of what it adds. *)
Lemma body_kinds v v' :
  body' v = Ok v' ->
  exists base e_v e_p e_c,
    push_head B rhs forget_exact_path v = Ok base /\
    out_ v' = app_out (app_out (app_out base e_v) e_p) e_c /\
    dense_ v' = fst (do_step B rhs (dense_ v)) /\
    t_ v' = current_time B (dense_ v') /\
    y_ v' = current_state B (dense_ v') /\
    plane_scan_adds VparPlane (length phis) 0 (length vpars) vpars_stop e_v /\
    plane_scan_adds PhiPlane (length phis) 0 (length phis) phis_stop e_p /\
    criterion_fired rhs (iter_ v') (dt_ v') (t_ v') (y_ v') stopping_criteria
      0 e_c /\
    (t_last_ v = 0 -> e_p = no_out).
Proof.
  intros H. unfold body in H.
  apply bind_Ok in H as (base & Hbase & H). unfold advance in H.
  destruct (do_step B rhs (dense_ v)) as [d [a b]] eqn:Hstep.
  apply bind_Ok in H as ([[tc pc] vc] & _ & H).
  rewrite <- (app_out_no_out base), scan_vpars_frame in H.
  apply bind_Ok in H as (o1 & Ho1 & H).
  apply bind_Ok in Ho1 as (e_v & He_v & Ho1). injection Ho1 as <-.
  rewrite <- (app_out_no_out (app_out _ e_v)), scan_phis_frame in H.
  apply bind_Ok in H as (o2 & Ho2 & H).
  apply bind_Ok in Ho2 as (e_p & He_p & Ho2). injection Ho2 as <-.
  rewrite <- (app_out_no_out (app_out _ e_p)), scan_criteria_frame in H.
  apply bind_Ok in H as (o3 & Ho3 & H).
  apply bind_Ok in Ho3 as (e_c & He_c & Ho3). injection Ho3 as <-.
  injection H as <-. cbn [out_ dense_ t_ iter_ y_ dt_ fst].
  exists base, e_v, e_p, e_c.
  repeat (split; [assumption || reflexivity|]).
  split; [|split; [|split]].
  - apply (scan_vpars_adds _ _ _ _ _ _ _ _ He_v).
  - apply (scan_phis_adds _ _ _ _ _ _ _ _ _ _ He_p).
  - apply (scan_criteria_fired _ _ _ _ _ _ _ He_c).
  - intros Ht. rewrite Ht in He_p. eapply scan_phis_first; eauto.
Qed.

Lemma push_head_keeps_hits v base :
  push_head B rhs forget_exact_path v = Ok base ->
  res_phi_hits base = res_phi_hits (out_ v) /\ stop base = stop (out_ v) /\
  exists rows, res base = res (out_ v) ++ rows.
Proof.
  unfold push_head. destruct (_ || _).
  - intros H. apply bind_Ok in H as (ykeep & _ & H). injection H as <-.
    cbn. eauto.
  - intros H. injection H as <-. repeat split. exists []. now rewrite app_nil_r.
Qed.

End Kinds.

(** ** The event list and the ends of a trajectory *)

Lemma kind_index_join (t k : R) (ykeep : list R) :
  kind_index (join [t; k] ykeep) = k.
Proof. reflexivity. Qed.

Lemma plane_scan_adds_kinds mk n lo hi armed e :
  (forall j, 0 <= kind_code n (mk j)) ->
  plane_scan_adds mk n lo hi armed e ->
  Forall (fun ev => 0 <= kind_index ev) (res_phi_hits e).
Proof.
  intros Hmk [Hh _]. eapply Forall_impl; [|exact Hh].
  intros ev (t & j & ykeep & -> & _). rewrite kind_index_join. apply Hmk.
Qed.

Lemma kind_code_vpar n j : 0 <= kind_code n (VparPlane j).
Proof. cbn. pose proof (pos_INR j). pose proof (pos_INR n). lra. Qed.

Lemma kind_code_phi n j : 0 <= kind_code n (PhiPlane j).
Proof. cbn. apply pos_INR. Qed.

Lemma kind_code_injective (phis vpars : list R)
    (cs : list (option StoppingCriterion)) (k k' : kind) :
  listed phis vpars cs k -> listed phis vpars cs k' ->
  kind_code (length phis) k = kind_code (length phis) k' -> k = k'.
Proof.
  intros Hk Hk' H.
  destruct k as [i | i | i], k' as [j | j | j]; cbn in *;
    pose proof (pos_INR i); pose proof (pos_INR j);
    pose proof (pos_INR (length phis));
    try (apply lt_INR in Hk); try (apply lt_INR in Hk'); try lra;
    f_equal; apply INR_eq; lra.
Qed.

Section SolveEvents.

Variable B : Boost.
Variable U : Indeterminate.
Variable rhs : RHS.
Variable y : State.
Variables tmax dt dtmax abstol reltol : R.
Variables phis omegas : list R.
Variable stopping_criteria : list (option StoppingCriterion).
Variable vpars : list R.
Variables phis_stop vpars_stop flux forget_exact_path : bool.

Local Abbreviation body' :=
  (body B rhs abstol phis omegas stopping_criteria vpars phis_stop
     vpars_stop flux forget_exact_path).
Local Abbreviation solve' :=
  (solve B U rhs y tmax dt dtmax abstol reltol phis omegas stopping_criteria
     vpars phis_stop vpars_stop flux forget_exact_path).
Local Abbreviation d0 := (dense_0 B y dt dtmax abstol reltol).

(** A property of the locals at the head of every pass holds at the head of
    the last pass of a trace that returns. *)
Lemma solve_last_pass (P : locals B -> Prop) fuel r h :
  (forall pl vl,
     P (mkLocals (mkOut [] [] false) d0 0 y dt 0%Z pl vl 0
          (vpar_current_0 U) (t_current_0 U))) ->
  (forall v v', P v -> body' v = Ok v' ->
     Rltb (t_ v') tmax && negb (stop (out_ v')) = true -> P v') ->
  solve' fuel = Ok (r, h) ->
  exists vl vf,
    P vl /\ body' vl = Ok vf /\
    Rltb (t_ vf) tmax && negb (stop (out_ vf)) = false /\
    leave B rhs tmax vf = Ok (r, h).
Proof.
  intros H0 Hstep H. unfold solve in H.
  apply bind_Ok in H as (vf & Hrun & Hleave).
  unfold run in Hrun. apply bind_Ok in Hrun as (v0 & Henter & Hloop).
  unfold enter in Henter.
  apply bind_Ok in Henter as ([pl vl] & _ & Henter). injection Henter as <-.
  apply (loop_last _ _ _ _ _ _ _ _ _ _ _ _ P Hstep) in Hloop
    as (vl' & HP & Hb & Hc); [|apply H0].
  exists vl', vf. auto.
Qed.

Lemma body_hits v v' :
  body' v = Ok v' ->
  exists e_v e_p e_c,
    res_phi_hits (out_ v')
    = res_phi_hits (out_ v) ++ res_phi_hits e_v ++ res_phi_hits e_p
      ++ res_phi_hits e_c /\
    (exists rows,
       res (out_ v') = res (out_ v) ++ rows ++ res e_v ++ res e_p ++ res e_c) /\
    stop (out_ v') = stop (out_ v) || stop e_v || stop e_p || stop e_c /\
    plane_scan_adds VparPlane (length phis) 0 (length vpars) vpars_stop e_v /\
    plane_scan_adds PhiPlane (length phis) 0 (length phis) phis_stop e_p /\
    criterion_fired rhs (iter_ v') (dt_ v') (t_ v') (y_ v') stopping_criteria
      0 e_c /\
    (t_last_ v = 0 -> e_p = no_out) /\
    dense_ v' = fst (do_step B rhs (dense_ v)) /\
    t_ v' = current_time B (dense_ v').
Proof.
  intros Hb.
  destruct (body_kinds _ _ _ _ _ _ _ _ _ _ _ _ _ Hb)
    as (base & e_v & e_p & e_c & Hbase & Hout & Hd & Ht & _ & Hv & Hp & Hc
        & Hfirst).
  destruct (push_head_keeps_hits _ _ _ _ _ Hbase) as (Hh & Hs & rows & Hr).
  exists e_v, e_p, e_c. rewrite Hout. cbn [app_out res res_phi_hits stop].
  rewrite Hh, Hs, Hr, <- !app_assoc.
  split; [reflexivity|]. split; [now exists rows|]. split; [reflexivity|].
  tauto.
Qed.

Lemma solve_event_records fuel r h :
  solve' fuel = Ok (r, h) ->
  Forall (event_record phis vpars stopping_criteria) h.
Proof.
  intros H.
  assert (forall v v',
            Forall (event_record phis vpars stopping_criteria)
              (res_phi_hits (out_ v)) ->
            body' v = Ok v' ->
            Forall (event_record phis vpars stopping_criteria)
              (res_phi_hits (out_ v'))) as Hstep.
  { intros v v' HP Hb.
    destruct (body_hits _ _ Hb)
      as (e_v & e_p & e_c & -> & _ & _ & [Hv _] & [Hp _] & Hc & _).
    repeat (apply Forall_app; split); try assumption.
    - eapply Forall_impl; [|exact Hv].
      intros ev (t & j & ykeep & -> & Hj).
      exists t, (VparPlane j), ykeep. split; [reflexivity | cbn; lia].
    - eapply Forall_impl; [|exact Hp].
      intros ev (t & j & ykeep & -> & Hj).
      exists t, (PhiPlane j), ykeep. split; [reflexivity | cbn; lia].
    - destruct Hc as [-> | Hc]; [constructor|].
      destruct Hc as (j & crit & ykeep & k0 & k1 & k2 & k3 & Hj & _ & _ & _
                      & _ & _ & _ & ->).
      constructor; [|constructor].
      exists (t_ v'), (Criterion j), ykeep. split; [reflexivity|].
      cbn. eauto. }
  apply (solve_last_pass
           (fun v => Forall (event_record phis vpars stopping_criteria)
                       (res_phi_hits (out_ v)))) in H
    as (vl & vf & HP & Hb & _ & Hleave).
  - apply leave_hits in Hleave as ->. eauto.
  - intros; constructor.
  - intros v v' HP Hb _. eauto.
Qed.

(** X13: every event record of a trace is the time, the kind index and the
    state; the kind index is the position [i] of a phi plane, [i] plus the
    number of phi planes for the vpar plane at position [i], or [-1 - i] for
    the stopping criterion at position [i], which is not null; and the kind
    index tells these apart. *)
Theorem event_records_name_their_source fuel r h :
  solve B U rhs y tmax dt dtmax abstol reltol phis omegas stopping_criteria
    vpars phis_stop vpars_stop flux forget_exact_path fuel = Ok (r, h) ->
  Forall (event_record phis vpars stopping_criteria) h /\
  (forall k k',
     listed phis vpars stopping_criteria k ->
     listed phis vpars stopping_criteria k' ->
     kind_code (length phis) k = kind_code (length phis) k' -> k = k').
Proof.
  intros H. split; [eapply solve_event_records; eauto|].
  apply kind_code_injective.
Qed.

(** The events of the passes that did not end the trace have kinds 0 and
    above, and those passes leave [stop] unset. *)
Lemma running_pass v v' :
  stop (out_ v) = false ->
  Forall (fun ev => 0 <= kind_index ev) (res_phi_hits (out_ v)) ->
  body' v = Ok v' ->
  Rltb (t_ v') tmax && negb (stop (out_ v')) = true ->
  stop (out_ v') = false /\
  Forall (fun ev => 0 <= kind_index ev) (res_phi_hits (out_ v')).
Proof.
  intros Hs Hk Hb Hc.
  apply andb_prop in Hc as [_ Hc]. apply negb_true_iff in Hc.
  split; [exact Hc|].
  destruct (body_hits _ _ Hb)
    as (e_v & e_p & e_c & -> & _ & Hstop & Hv & Hp & Hcr & _).
  rewrite Hc in Hstop.
  repeat (apply Forall_app; split); try assumption.
  - eapply plane_scan_adds_kinds; [apply kind_code_vpar | exact Hv].
  - eapply plane_scan_adds_kinds; [apply kind_code_phi | exact Hp].
  - destruct Hcr as [-> | Hcr]; [constructor|].
    destruct Hcr as (j & crit & ykeep & k0 & k1 & k2 & k3 & _ & _ & _ & _
                     & _ & _ & _ & ->).
    cbn in Hstop. rewrite !orb_true_r in Hstop. discriminate.
Qed.

(** X14: the event record of a stopping criterion, with its negative kind
    index, is the last event record of the trace; the last sample of the
    trajectory has the same time and state; all event records before it are
    those of planes; and the criterion is one of the list that holds at
    that time and state. *)
Theorem criterion_event_ends_the_trace fuel r h ev :
  solve B U rhs y tmax dt dtmax abstol reltol phis omegas stopping_criteria
    vpars phis_stop vpars_stop flux forget_exact_path fuel = Ok (r, h) ->
  In ev h ->
  kind_index ev < 0 ->
  exists r' h' t ykeep (j : nat) crit iter dt' k0 k1 k2 k3,
    r = r' ++ [join [t] ykeep] /\
    h = h' ++ [ev] /\
    ev = join [t; -1 - INR j] ykeep /\
    Forall (fun e => 0 <= kind_index e) h' /\
    nth_error stopping_criteria j = Some (Some crit) /\
    idx ykeep 0 = Ok k0 /\ idx ykeep 1 = Ok k1 /\
    idx ykeep 2 = Ok k2 /\ idx ykeep 3 = Ok k3 /\
    crit iter dt' t k0 k1 k2 k3 = true.
Proof.
  intros H Hin Hneg.
  apply (solve_last_pass
           (fun v => stop (out_ v) = false /\
                     Forall (fun ev => 0 <= kind_index ev)
                       (res_phi_hits (out_ v)))) in H
    as (vl & vf & [Hs Hk] & Hb & _ & Hleave).
  - pose proof (leave_hits _ _ _ _ _ Hleave) as Hh.
    destruct (body_hits _ _ Hb)
      as (e_v & e_p & e_c & Hhits & (rows & Hres) & Hstop & Hv & Hp & Hcr
          & _).
    assert (Forall (fun ev => 0 <= kind_index ev)
              (res_phi_hits (out_ vl) ++ res_phi_hits e_v
               ++ res_phi_hits e_p)) as Hplanes.
    { repeat (apply Forall_app; split); try assumption.
      - eapply plane_scan_adds_kinds; [apply kind_code_vpar | exact Hv].
      - eapply plane_scan_adds_kinds; [apply kind_code_phi | exact Hp]. }
    destruct Hcr as [-> | Hcr].
    + exfalso. rewrite Hh, Hhits in Hin. cbn [no_out res_phi_hits] in Hin.
      rewrite app_nil_r in Hin. rewrite Forall_forall in Hplanes.
      apply Hplanes in Hin. lra.
    + destruct Hcr as (j & crit & ykeep & k0 & k1 & k2 & k3 & Hj & _ & H0
                       & H1 & H2 & H3 & Hc & ->).
      cbn [res res_phi_hits stop kind_code Nat.add] in *.
      rewrite !orb_true_r in Hstop.
      unfold leave in Hleave. rewrite Hstop in Hleave. cbn [negb] in Hleave.
      injection Hleave as <- _.
      rewrite Hh, Hhits, !app_assoc in Hin.
      apply in_app_or in Hin as [Hin | [<- | []]].
      * exfalso. rewrite <- !app_assoc in Hin.
        rewrite Forall_forall in Hplanes. apply Hplanes in Hin. lra.
      * exists (res (out_ vl) ++ rows ++ res e_v ++ res e_p),
          (res_phi_hits (out_ vl) ++ res_phi_hits e_v ++ res_phi_hits e_p),
          (t_ vf), ykeep, j, crit, (iter_ vf), (dt_ vf), k0, k1, k2, k3.
        rewrite Hres, Hh, Hhits, <- !app_assoc.
        repeat split; assumption.
  - intros; split; [reflexivity | constructor].
  - intros v v' [Hs Hk] Hb Hc. eapply running_pass; eauto.
Qed.

Lemma solve_ends_at_tmax fuel r h :
  phis_stop = false ->
  vpars_stop = false ->
  solve' fuel = Ok (r, h) ->
  Forall (fun ev => 0 <= kind_index ev) h ->
  exists r' d ykeep,
    canonical rhs (calc_state B d tmax) = Ok ykeep /\
    r = r' ++ [join [tmax] ykeep].
Proof.
  intros Hps Hvs H Hall.
  apply (solve_last_pass
           (fun v => stop (out_ v) = false /\
                     Forall (fun ev => 0 <= kind_index ev)
                       (res_phi_hits (out_ v)))) in H
    as (vl & vf & [Hs Hk] & Hb & _ & Hleave).
  - pose proof (leave_hits _ _ _ _ _ Hleave) as Hh.
    destruct (body_hits _ _ Hb)
      as (e_v & e_p & e_c & Hhits & _ & Hstop & Hv & Hp & Hcr & _).
    rewrite Hvs in Hv. rewrite Hps in Hp.
    apply plane_scan_adds_unarmed in Hv as [_ Hsv].
    apply plane_scan_adds_unarmed in Hp as [_ Hsp].
    assert (e_c = no_out) as ->.
    { destruct Hcr as [-> | Hcr]; [reflexivity|]. exfalso.
      destruct Hcr as (j & crit & ykeep & k0 & k1 & k2 & k3 & _ & _ & _ & _
                       & _ & _ & _ & ->).
      rewrite Hh, Hhits, !app_assoc in Hall.
      apply Forall_app in Hall as [_ Hall].
      inversion Hall as [| ? ? Hj _]; subst.
      unfold kind_index in Hj. cbn in Hj. pose proof (pos_INR j). lra. }
    rewrite Hs, Hsv, Hsp in Hstop. cbn in Hstop.
    unfold leave in Hleave. rewrite Hstop in Hleave. cbn [negb] in Hleave.
    apply bind_Ok in Hleave as (ykeep & Hk' & Hleave).
    injection Hleave as <- _. eauto.
  - intros; split; [reflexivity | constructor].
  - intros v v' [Hs Hk] Hb Hc. eapply running_pass; eauto.
Qed.


Lemma solve_first_sample fuel r h :
  solve' fuel = Ok (r, h) ->
  exists ykeep0 rest,
    canonical rhs y = Ok ykeep0 /\ r = join [0] ykeep0 :: rest.
Proof.
  pose (started := fun v : locals B =>
         exists ykeep0 rest, canonical rhs y = Ok ykeep0 /\
                             res (out_ v) = join [0] ykeep0 :: rest).
  intros H.
  assert (forall v v',
            (t_ v = 0 /\ res (out_ v) = [] /\ y_ v = y) \/ started v ->
            body' v = Ok v' -> started v') as Hstep.
  { intros v v' HP Hb.
    destruct (body_kinds _ _ _ _ _ _ _ _ _ _ _ _ _ Hb)
      as (base & e_v & e_p & e_c & Hbase & Hout & _).
    unfold started. rewrite Hout. cbn [app_out res].
    destruct HP as [(Ht & Hr & Hy) | (ykeep0 & rest & Hk & Hr)].
    - unfold push_head in Hbase. rewrite Ht, Reqb_refl, orb_true_r, Hy in Hbase.
      apply bind_Ok in Hbase as (ykeep0 & Hk & Hbase). injection Hbase as <-.
      cbn [push_res res]. rewrite Hr. cbn [app]. eauto.
    - destruct (push_head_keeps_hits _ _ _ _ _ Hbase) as (_ & _ & rows & ->).
      rewrite Hr. cbn [app]. eauto. }
  apply (solve_last_pass
           (fun v => (t_ v = 0 /\ res (out_ v) = [] /\ y_ v = y)
                     \/ started v)) in H
    as (vl & vf & HP & Hb & _ & Hleave).
  - destruct (Hstep _ _ HP Hb) as (ykeep0 & rest & Hk & Hr).
    exists ykeep0. unfold leave in Hleave. destruct (negb _).
    + apply bind_Ok in Hleave as (yk & _ & Hleave). injection Hleave as <- _.
      rewrite Hr. cbn [app]. eauto.
    + injection Hleave as <- _. eauto.
  - intros. left. auto.
  - intros v v' HP Hb _. right. eauto.
Qed.

(** X16: the first sample of every trajectory is the initial state at
    time 0, in canonical coordinates, also with [forget_exact_path] set. *)
Theorem trajectory_starts_at_the_initial_state fuel r h :
  solve B U rhs y tmax dt dtmax abstol reltol phis omegas stopping_criteria
    vpars phis_stop vpars_stop flux forget_exact_path fuel = Ok (r, h) ->
  exists ykeep0 rest,
    canonical rhs y = Ok ykeep0 /\ r = join [0] ykeep0 :: rest.
Proof. apply solve_first_sample. Qed.

(** X17: no phi plane is reported for the first step: a trace that reaches
    [tmax] with its first step returns no event record of a phi plane (the
    kind index of each is negative, a stopping criterion, or at least the
    number of phi planes, a vpar plane), whatever planes the step
    crossed. *)
Theorem first_step_reports_no_phi_plane fuel r h :
  tmax <= current_time B (fst (do_step B rhs d0)) ->
  solve B U rhs y tmax dt dtmax abstol reltol phis omegas stopping_criteria
    vpars phis_stop vpars_stop flux forget_exact_path fuel = Ok (r, h) ->
  Forall (fun ev => kind_index ev < 0 \/ INR (length phis) <= kind_index ev)
    h.
Proof.
  intros Hone H.
  apply (solve_last_pass
           (fun v => dense_ v = d0 /\ t_last_ v = 0 /\
                     res_phi_hits (out_ v) = [])) in H
    as (vl & vf & (Hd & Ht & Hnone) & Hb & _ & Hleave).
  - apply leave_hits in Hleave as ->.
    destruct (body_hits _ _ Hb)
      as (e_v & e_p & e_c & -> & _ & _ & [Hv _] & _ & Hcr & Hfirst & _).
    rewrite Hnone, (Hfirst Ht). cbn [app no_out res_phi_hits].
    apply Forall_app. split.
    + eapply Forall_impl; [|exact Hv].
      intros ev (t & j & ykeep & -> & _). right.
      rewrite kind_index_join. cbn. pose proof (pos_INR j). lra.
    + destruct Hcr as [-> | Hcr]; [constructor|].
      destruct Hcr as (j & crit & ykeep & k0 & k1 & k2 & k3 & _ & _ & _ & _
                       & _ & _ & _ & ->).
      constructor; [|constructor]. left.
      rewrite kind_index_join. cbn. pose proof (pos_INR j). lra.
  - intros; repeat split.
  - intros v v' (Hd & _) Hb Hc. exfalso.
    apply andb_prop in Hc as [Hc _]. apply Rltb_lt in Hc.
    destruct (body_hits _ _ Hb) as (_ & _ & _ & _ & _ & _ & _ & _ & _ & _
                                    & Hd' & Ht').
    rewrite Ht', Hd', Hd in Hc. lra.
Qed.

End SolveEvents.

(** ** How [solve] can fail *)

Section FailsOnly.

Variable P : error -> Prop.

Lemma fails_only_Ok {A : Type} (a : A) : fails_only P (Ok a).
Proof. intros e H. discriminate. Qed.

Lemma fails_only_bind {A C : Type} (c : result A) (k : A -> result C) :
  fails_only P c -> (forall a, c = Ok a -> fails_only P (k a)) ->
  fails_only P (bind c k).
Proof.
  intros Hc Hk. destruct c as [a | e]; cbn; [now apply Hk|].
  intros e' H. injection H as <-. now apply Hc.
Qed.

Local Abbreviation reads_within := (reads_within P).

Lemma idx_fails (v : list R) (i : nat) :
  reads_within (S i) v -> fails_only P (idx v i).
Proof.
  intros [H | H] e He; unfold idx in He;
    destruct (nth_error v i) eqn:E; try discriminate; injection He as <-.
  - exact H.
  - apply nth_error_None in E. lia.
Qed.

Lemma set_idx_fails (v : list R) (i : nat) (x : R) :
  reads_within (S i) v -> fails_only P (set_idx v i x).
Proof.
  intros [H | H] e He; unfold set_idx in He;
    destruct (i <? length v)%nat eqn:E; try discriminate; injection He as <-.
  - exact H.
  - apply Nat.ltb_ge in E. lia.
Qed.

Lemma reads_within_less (m m' : nat) (v : list R) :
  (m' <= m)%nat -> reads_within m v -> reads_within m' v.
Proof. intros Hm [H | H]; [now left | right; lia]. Qed.

Lemma set_idx_length (v : list R) (i : nat) (x : R) (v' : list R) :
  set_idx v i x = Ok v' -> length v' = length v.
Proof.
  unfold set_idx. destruct (i <? length v)%nat eqn:E; [|discriminate].
  apply Nat.ltb_lt in E. intros H.
  assert (v' = firstn i v ++ x :: skipn (S i) v) as -> by congruence.
  rewrite length_app, firstn_length_le by lia. cbn [length].
  rewrite length_skipn. lia.
Qed.

Lemma canonical_length (rhs : RHS) (y k : State) :
  canonical rhs y = Ok k -> length k = length y.
Proof.
  unfold canonical. destruct (_ || _)%bool.
  - intros H. apply bind_Ok in H as (y0 & _ & H).
    apply bind_Ok in H as (y1 & _ & H).
    destruct (to_canonical _ _ _) as [s theta].
    apply bind_Ok in H as (k' & Hk' & H).
    apply set_idx_length in Hk', H. congruence.
  - intros H. now injection H as <-.
Qed.

Lemma canonical_fails (rhs : RHS) (y : State) :
  reads_within 2 y -> fails_only P (canonical rhs y).
Proof.
  intros Hy. unfold canonical. destruct (_ || _)%bool; [|apply fails_only_Ok].
  apply fails_only_bind;
    [apply idx_fails; eapply reads_within_less; [|exact Hy]; lia|].
  intros y0 _.
  apply fails_only_bind; [apply idx_fails; exact Hy | intros y1 _].
  destruct (to_canonical _ _ _) as [s theta].
  apply fails_only_bind;
    [apply set_idx_fails; eapply reads_within_less; [|exact Hy]; lia|].
  intros k Hk. apply set_idx_fails.
  destruct Hy as [Hy | Hy]; [now left | right].
  apply set_idx_length in Hk. lia.
Qed.

Variable B : Boost.
Variable U : Indeterminate.
Variable rhs : RHS.
Variable y : State.
Variables tmax dt dtmax abstol reltol : R.
Variables phis omegas : list R.
Variable stopping_criteria : list (option StoppingCriterion).
Variable vpars : list R.
Variables phis_stop vpars_stop flux forget_exact_path : bool.

Hypothesis HRoot : P RootError.
Hypothesis HFuel : P OutOfFuel.
Hypothesis HAssert : P AssertionFailed.

Lemma refine_root_fails d f a b fa fb :
  (forall t, fails_only P (f t)) ->
  (forall t, reads_within 2 (calc_state B d t)) ->
  fails_only P (refine_root B rhs abstol d f a b fa fb).
Proof.
  intros Hf Hc. unfold refine_root.
  apply fails_only_bind.
  { destruct (toms748_solve _ _ _ _ _ _ _ _);
      [apply fails_only_Ok | intros e [= <-]; exact HRoot]. }
  intros root _.
  apply fails_only_bind; [apply Hf | intros f0 _].
  apply fails_only_bind; [apply Hf | intros f1 _].
  apply fails_only_bind; [apply canonical_fails, Hc | intros; apply fails_only_Ok].
Qed.

Lemma scan_vpars_fails d a b vl vc vs : forall i o,
  (forall t, reads_within 4 (calc_state B d t)) ->
  fails_only P (scan_vpars B rhs abstol phis vpars_stop d a b vl vc i vs o).
Proof.
  induction vs as [| vpar vs IH]; intros i o Hc; [apply fails_only_Ok|].
  cbn [scan_vpars]. destruct (crossed vl vc vpar); [|now apply IH].
  apply fails_only_bind.
  - apply refine_root_fails.
    + intros t. apply fails_only_bind; [apply idx_fails, Hc|].
      intros; apply fails_only_Ok.
    + intros t. eapply reads_within_less; [|apply Hc]. lia.
  - intros [troot ykeep] _.
    destruct vpars_stop; [apply fails_only_Ok | now apply IH].
Qed.

Lemma scan_phis_fails d a b pl pc tl tc ps : forall i o,
  P OutOfBounds \/ (i + length ps <= length omegas)%nat ->
  (forall t, reads_within (if flux then 4 else 2) (calc_state B d t)) ->
  fails_only P (scan_phis B rhs abstol omegas phis_stop flux d a b pl pc tl tc
                  i ps o).
Proof.
  induction ps as [| phi ps IH]; intros i o Hom Hc; [apply fails_only_Ok|].
  cbn [scan_phis]. cbn [length] in Hom.
  assert (P OutOfBounds \/ (S i + length ps <= length omegas)%nat) as Hom'
    by (destruct Hom; [now left | right; lia]).
  apply fails_only_bind.
  { apply idx_fails. destruct Hom; [now left | right; lia]. }
  intros omega _.
  destruct (plane_crossed _ _ _ _) eqn:Hcross; [|now apply IH].
  destruct (between _ _ _); [|intros e [= <-]; exact HAssert].
  apply fails_only_bind.
  - apply refine_root_fails.
    + intros t. destruct flux.
      * apply fails_only_bind;
          [apply idx_fails; eapply reads_within_less; [|apply Hc]; lia|].
        intros; apply fails_only_Ok.
      * apply fails_only_bind;
          [apply idx_fails; eapply reads_within_less; [|apply Hc]; lia|].
        intros t0 _.
        apply fails_only_bind; [apply idx_fails, Hc|].
        intros; apply fails_only_Ok.
    + intros t. eapply reads_within_less; [|apply Hc]. destruct flux; lia.
  - intros [troot ykeep] _.
    destruct phis_stop; [apply fails_only_Ok | now apply IH].
Qed.

Lemma scan_criteria_fails iter dt' t y' cs : forall i o,
  reads_within 2 y' ->
  (existsb is_some cs = true -> reads_within 4 y') ->
  fails_only P (scan_criteria rhs iter dt' t y' i cs o).
Proof.
  induction cs as [| c cs IH]; intros i o H2 H4; [apply fails_only_Ok|].
  cbn [scan_criteria].
  apply fails_only_bind; [now apply canonical_fails | intros ykeep Hk].
  apply canonical_length in Hk.
  destruct c as [criterion |].
  - assert (reads_within 4 ykeep) as Hy.
    { destruct (H4 eq_refl) as [H | H]; [now left | right; lia]. }
    apply fails_only_bind;
      [apply idx_fails; eapply reads_within_less; [|exact Hy]; lia|].
    intros k0 _.
    apply fails_only_bind;
      [apply idx_fails; eapply reads_within_less; [|exact Hy]; lia|].
    intros k1 _.
    apply fails_only_bind;
      [apply idx_fails; eapply reads_within_less; [|exact Hy]; lia|].
    intros k2 _.
    apply fails_only_bind; [apply idx_fails; exact Hy | intros k3 _].
    destruct (criterion _ _ _ _ _ _ _); [apply fails_only_Ok|].
    apply IH; [exact H2 | intros _; exact (H4 eq_refl)].
  - apply IH; [exact H2 | exact H4].
Qed.

Variable n : nat.
Hypothesis Hsized :
  P OutOfBounds \/
  (sized B n y /\
   (components_read flux vpars stopping_criteria <= n)%nat /\
   (length phis <= length omegas)%nat).

Lemma sized_reads (m : nat) (v : State) :
  (m <= components_read flux vpars stopping_criteria)%nat ->
  P OutOfBounds \/ length v = n -> reads_within m v.
Proof.
  intros Hm [H | H]; [now left|].
  destruct Hsized as [H' | (_ & Hn & _)]; [now left | right; lia].
Qed.

Lemma two_read : (2 <= components_read flux vpars stopping_criteria)%nat.
Proof. unfold components_read. destruct (_ || _)%bool; lia. Qed.

Lemma calc_state_sized d t : P OutOfBounds \/ length (calc_state B d t) = n.
Proof. destruct Hsized as [H | ((_ & _ & H) & _)]; [now left | right; apply H]. Qed.

Lemma current_state_sized d : P OutOfBounds \/ length (current_state B d) = n.
Proof. destruct Hsized as [H | ((_ & H & _) & _)]; [now left | right; apply H]. Qed.

Lemma initial_state_sized : P OutOfBounds \/ length y = n.
Proof. destruct Hsized as [H | ((H & _) & _)]; [now left | now right]. Qed.

Lemma four_read_flux (v : State) :
  flux = true -> P OutOfBounds \/ length v = n -> reads_within 4 v.
Proof.
  intros Hf. apply sized_reads. unfold components_read. now rewrite Hf.
Qed.

Lemma four_read_vpars (v : State) :
  nonempty vpars = true -> P OutOfBounds \/ length v = n -> reads_within 4 v.
Proof.
  intros Hf. apply sized_reads. unfold components_read.
  now rewrite Hf, orb_true_r.
Qed.

Lemma four_read_criteria (v : State) :
  existsb is_some stopping_criteria = true ->
  P OutOfBounds \/ length v = n -> reads_within 4 v.
Proof.
  intros Hf. apply sized_reads. unfold components_read.
  now rewrite Hf, orb_true_r.
Qed.

Lemma flux_read (v : State) :
  P OutOfBounds \/ length v = n -> reads_within (if flux then 4 else 2) v.
Proof.
  intros Hv.
  assert (flux = true \/ flux = false) as [Hf | Hf] by (destruct flux; auto);
    rewrite Hf.
  - now apply four_read_flux.
  - apply (sized_reads _ _ two_read Hv).
Qed.

Lemma omegas_cover : P OutOfBounds \/ (0 + length phis <= length omegas)%nat.
Proof. destruct Hsized as [H | (_ & _ & H)]; [now left | right; cbn; lia]. Qed.

Lemma flux_state_fails (v : State) :
  P OutOfBounds \/ length v = n ->
  fails_only P
    (if flux then y2 <- idx v 2 ;; y3 <- idx v 3 ;; Ok (y2, y3)
     else y0 <- idx v 0 ;; y1 <- idx v 1 ;; Ok (get_phi y0 y1 PI, 0)).
Proof.
  intros Hv. pose proof (flux_read v Hv) as Hr. clear Hv.
  destruct flux.
  - apply fails_only_bind;
      [apply idx_fails; eapply reads_within_less; [|exact Hr]; lia|].
    intros y2 _.
    apply fails_only_bind; [apply idx_fails, Hr | intros; apply fails_only_Ok].
  - apply fails_only_bind;
      [apply idx_fails; eapply reads_within_less; [|exact Hr]; lia|].
    intros y0 _.
    apply fails_only_bind; [apply idx_fails, Hr | intros; apply fails_only_Ok].
Qed.

Lemma body_fails v :
  P OutOfBounds \/ length (y_ v) = n ->
  fails_only P (body B rhs abstol phis omegas stopping_criteria vpars
                  phis_stop vpars_stop flux forget_exact_path v).
Proof.
  intros Hy. unfold body. apply fails_only_bind.
  { unfold push_head. destruct (_ || _)%bool; [|apply fails_only_Ok].
    apply fails_only_bind;
      [apply canonical_fails, (sized_reads _ _ two_read Hy)|].
    intros; apply fails_only_Ok. }
  intros o _. unfold advance.
  destruct (do_step B rhs (dense_ v)) as [d [a b]].
  pose proof (current_state_sized d) as Hcur.
  apply fails_only_bind.
  { pose proof (flux_read _ Hcur) as Hr. clear Hcur Hy.
    destruct flux.
    - apply fails_only_bind;
        [apply idx_fails; eapply reads_within_less; [|exact Hr]; lia|].
      intros y2 _.
      apply fails_only_bind; [apply idx_fails, Hr | intros; apply fails_only_Ok].
    - apply fails_only_bind;
        [apply idx_fails; eapply reads_within_less; [|exact Hr]; lia|].
      intros y0 _.
      apply fails_only_bind; [apply idx_fails, Hr | intros; apply fails_only_Ok]. }
  intros [[tc pc] vc] _.
  apply fails_only_bind.
  { destruct (nonempty vpars) eqn:Hvpars.
    - apply scan_vpars_fails. intros t.
      apply (four_read_vpars _ Hvpars), calc_state_sized.
    - clear Hy Hcur. destruct vpars; [apply fails_only_Ok | discriminate]. }
  intros o1 _.
  apply fails_only_bind.
  { apply scan_phis_fails; [apply omegas_cover|].
    intros t. apply flux_read, calc_state_sized. }
  intros o2 _.
  apply fails_only_bind; [|intros; apply fails_only_Ok].
  apply scan_criteria_fails.
  - apply (sized_reads _ _ two_read Hcur).
  - intros Hsome. now apply four_read_criteria.
Qed.

Lemma loop_fails fuel : forall v,
  P OutOfBounds \/ length (y_ v) = n ->
  fails_only P (loop B rhs tmax abstol phis omegas stopping_criteria vpars
                  phis_stop vpars_stop flux forget_exact_path fuel v).
Proof.
  induction fuel as [| fuel IH]; intros v Hy.
  - intros e [= <-]. exact HFuel.
  - cbn [loop]. apply fails_only_bind; [now apply body_fails|].
    intros v' Hb.
    destruct (_ && _)%bool; [|apply fails_only_Ok].
    apply IH.
    destruct (body_kinds _ _ _ _ _ _ _ _ _ _ _ _ _ Hb)
      as (_ & _ & _ & _ & _ & _ & _ & _ & -> & _).
    apply current_state_sized.
Qed.

Lemma solve_fails fuel :
  fails_only P (solve B U rhs y tmax dt dtmax abstol reltol phis omegas
                  stopping_criteria vpars phis_stop vpars_stop flux
                  forget_exact_path fuel).
Proof.
  unfold solve, run.
  apply fails_only_bind.
  - apply fails_only_bind.
    + unfold enter. apply fails_only_bind; [|intros [pl vl] _; apply fails_only_Ok].
      apply flux_state_fails, initial_state_sized.
    + intros v0 Hv0. apply loop_fails.
      unfold enter in Hv0. apply bind_Ok in Hv0 as ([pl vl] & _ & Hv0).
      injection Hv0 as <-. cbn [y_]. apply initial_state_sized.
  - intros v _. unfold leave. destruct (negb _); [|apply fails_only_Ok].
    apply fails_only_bind; [|intros; apply fails_only_Ok].
    apply canonical_fails, (sized_reads _ _ two_read (calc_state_sized _ _)).
Qed.

End FailsOnly.


(** X19: [solve] reads every array within its bounds when the states have
    the [Size] components of the class, [Size] is at least the number of
    components the trace reads (four, or two for a Cartesian trace with no
    vpar plane and no stopping criterion), and [omegas] is at least as long
    as [phis]: the failures left are the root solver's and the assertion at
    731 (and, in the model, the bound on the number of passes). *)
Theorem solve_reads_in_bounds (B : Boost) (U : Indeterminate) (rhs : RHS)
    (y : State) (tmax dt dtmax abstol reltol : R) (phis omegas : list R)
    (stopping_criteria : list (option StoppingCriterion)) (vpars : list R)
    (phis_stop vpars_stop flux forget_exact_path : bool) (fuel : nat) :
  sized B (Size rhs) y ->
  (components_read flux vpars stopping_criteria <= Size rhs)%nat ->
  (length phis <= length omegas)%nat ->
  fails_only
    (fun e => e = RootError \/ e = AssertionFailed \/ e = OutOfFuel)
    (solve B U rhs y tmax dt dtmax abstol reltol phis omegas
       stopping_criteria vpars phis_stop vpars_stop flux forget_exact_path
       fuel).
Proof.
  intros Hs Hc Ho.
  apply solve_fails with (n := Size rhs); auto.
Qed.

(** ** [phis] without their [omegas] *)

Section Short.

Variable B : Boost.
Variable U : Indeterminate.
Variable rhs : RHS.
Variable y : State.
Variables tmax dt dtmax abstol reltol : R.
Variables phis omegas : list R.
Variable stopping_criteria : list (option StoppingCriterion).
Variable vpars : list R.
Variables phis_stop vpars_stop flux forget_exact_path : bool.

Local Abbreviation body' :=
  (body B rhs abstol phis omegas stopping_criteria vpars phis_stop
     vpars_stop flux forget_exact_path).
Local Abbreviation solve' :=
  (solve B U rhs y tmax dt dtmax abstol reltol phis omegas stopping_criteria
     vpars phis_stop vpars_stop flux forget_exact_path).

(** On the first pass every phi plane is looked at, and so is its omega. *)
Lemma scan_phis_first_short d a b pl pc tc ps : forall i o,
  (i <= length omegas < i + length ps)%nat ->
  scan_phis B rhs abstol omegas phis_stop flux d a b pl pc 0 tc i ps o
  = Err OutOfBounds.
Proof.
  induction ps as [| phi ps IH]; intros i o Hi; cbn [length] in Hi; [lia|].
  cbn [scan_phis].
  destruct (Nat.eq_dec i (length omegas)) as [-> | Hne].
  - now rewrite idx_ge.
  - destruct (idx_lt omegas i) as [omega ->]; [lia|].
    cbn [bind]. unfold plane_crossed. rewrite Reqb_refl. cbn [negb andb].
    apply IH. lia.
Qed.

Lemma first_pass_fails v :
  t_last_ v = 0 -> (length omegas < length phis)%nat ->
  exists e, body' v = Err e /\ (e = OutOfBounds \/ e = RootError) /\
            (vpars = [] -> e = OutOfBounds).
Proof.
  intros Ht Hshort.
  assert (forall o d a b pc tc,
            scan_phis B rhs abstol omegas phis_stop flux d a b (phi_last_ v)
              pc (t_last_ v) tc 0 phis o = Err OutOfBounds) as Hscan
    by (intros; rewrite Ht; apply scan_phis_first_short; lia).
  unfold body.
  assert (fails_only (fun e => e = OutOfBounds)
            (push_head B rhs forget_exact_path v)) as Hhead.
  { unfold push_head. destruct (_ || _)%bool; [|apply fails_only_Ok].
    apply fails_only_bind; [|intros; apply fails_only_Ok].
    apply canonical_fails. now left. }
  destruct (push_head B rhs forget_exact_path v) as [base | e0].
  2: { exists e0. cbn [bind]. pose proof (Hhead e0 eq_refl). auto. }
  cbn [bind]. unfold advance.
  destruct (do_step B rhs (dense_ v)) as [d [a b]].
  match goal with
  | |- exists e, bind ?c _ = _ /\ _ =>
    assert (fails_only (fun e => e = OutOfBounds) c) as Hcur;
      [|destruct c as [[[tc pc] vc] | e0]]
  end.
  { destruct flux.
    - apply fails_only_bind; [apply idx_fails; now left | intros y2 _].
      apply fails_only_bind; [apply idx_fails; now left|].
      intros; apply fails_only_Ok.
    - apply fails_only_bind; [apply idx_fails; now left | intros y0 _].
      apply fails_only_bind; [apply idx_fails; now left|].
      intros; apply fails_only_Ok. }
  2: { exists e0. cbn [bind]. pose proof (Hcur e0 eq_refl). auto. }
  cbn [bind].
  destruct (scan_vpars B rhs abstol phis vpars_stop d a b (vpar_last_ v) vc 0
              vpars base) as [o1 | e0] eqn:Hv.
  - cbn [bind]. rewrite Hscan. exists OutOfBounds. cbn [bind]. auto.
  - exists e0. cbn [bind]. split; [reflexivity|]. split.
    + apply (scan_vpars_fails (fun e => e = OutOfBounds \/ e = RootError))
        in Hv; [exact Hv | now right | intros t; now left; left].
    + intros Hnil. rewrite Hnil in Hv. discriminate.
Qed.

(** X20: a trace given more phi planes than omegas returns nothing: on its
    first pass [solve] reads [omegas[i]] for every phi plane, past the end of
    [omegas]; when no vpar plane is watched that read is the failure (before
    it only the root solver at a vpar plane can fail). *)
Theorem phis_without_omegas fuel :
  (length omegas < length phis)%nat ->
  (exists e,
     solve B U rhs y tmax dt dtmax abstol reltol phis omegas
       stopping_criteria vpars phis_stop vpars_stop flux forget_exact_path
       (S fuel) = Err e /\
     (e = OutOfBounds \/ e = RootError)) /\
  (vpars = [] ->
   solve B U rhs y tmax dt dtmax abstol reltol phis omegas stopping_criteria
     vpars phis_stop vpars_stop flux forget_exact_path (S fuel)
   = Err OutOfBounds).
Proof.
  intros Hshort.
  assert (exists e, solve' (S fuel) = Err e /\
                    (e = OutOfBounds \/ e = RootError) /\
                    (vpars = [] -> e = OutOfBounds)) as (e & He & Hkind & Hoob).
  { unfold solve, run.
    assert (fails_only (fun e => e = OutOfBounds)
              (enter B U y dt dtmax abstol reltol flux)) as Henter.
    { unfold enter.
      apply fails_only_bind; [|intros [pl vl] _; apply fails_only_Ok].
      destruct flux.
      - apply fails_only_bind; [apply idx_fails; now left | intros y2 _].
        apply fails_only_bind; [apply idx_fails; now left|].
        intros; apply fails_only_Ok.
      - apply fails_only_bind; [apply idx_fails; now left | intros y0 _].
        apply fails_only_bind; [apply idx_fails; now left|].
        intros; apply fails_only_Ok. }
    destruct (enter B U y dt dtmax abstol reltol flux) as [v0 | e] eqn:Hv0.
    - unfold enter in Hv0. apply bind_Ok in Hv0 as ([pl vl] & _ & Hv0).
      injection Hv0 as <-.
      destruct (first_pass_fails
                  (mkLocals (mkOut [] [] false)
                     (initialize B (make_dense_output B abstol reltol dtmax)
                        y 0 dt) 0 y dt 0%Z pl vl 0 (vpar_current_0 U)
                     (t_current_0 U)) eq_refl Hshort)
        as (e & Hb & He).
      exists e. cbn [bind loop]. rewrite Hb. cbn [bind]. auto.
    - exists e. cbn [bind]. pose proof (Henter e eq_refl). auto. }
  split; [|intros Hnil; rewrite He; f_equal; auto].
  exists e. split; [exact He | exact Hkind].
Qed.

End Short.

(** ** When a plane counts as crossed *)

(** X21: a vpar plane counts as crossed in a step exactly when its value
    lies strictly between the parallel velocities at the two ends of the
    step; a step that ends or starts exactly on the plane does not count. *)
Theorem vpar_plane_crossed_iff (vpar_last vpar_current vpar : R) :
  crossed vpar_last vpar_current vpar = true
  <-> vpar_last < vpar < vpar_current \/ vpar_current < vpar < vpar_last.
Proof.
  unfold crossed, Reqb, sgn.
  destruct (Req_dec_T (vpar_last - vpar) 0);
    destruct (Req_dec_T (vpar_current - vpar) 0);
    destruct (Rlt_dec 0 (vpar_last - vpar));
    destruct (Rlt_dec (vpar_last - vpar) 0);
    destruct (Rlt_dec 0 (vpar_current - vpar));
    destruct (Rlt_dec (vpar_current - vpar) 0);
    cbn; split; intros H; try discriminate; try reflexivity; lra.
Qed.

Lemma floors_differ_iff (u w : R) :
  Zfloor u <> Zfloor w
  <-> exists k : Z, u < IZR k <= w \/ w < IZR k <= u.
Proof.
  pose proof (Zfloor_bound u) as Hu. pose proof (Zfloor_bound w) as Hw.
  split.
  - intros Hne.
    destruct (Z_lt_le_dec (Zfloor u) (Zfloor w)) as [Hlt | Hge].
    + exists (Zfloor w). left. split; [|lra].
      assert (IZR (Zfloor u) + 1 <= IZR (Zfloor w))
        by (rewrite <- (plus_IZR _ 1); apply IZR_le; lia).
      lra.
    + exists (Zfloor u). right. split; [|lra].
      assert (IZR (Zfloor w) + 1 <= IZR (Zfloor u))
        by (rewrite <- (plus_IZR _ 1); apply IZR_le; lia).
      lra.
  - intros [k [[H1 H2] | [H1 H2]]] Heq.
    + assert (IZR (Zfloor u) < IZR k) as Ha by lra.
      assert (IZR k < IZR (Zfloor w) + 1) as Hb by lra.
      rewrite <- (plus_IZR _ 1) in Hb.
      apply lt_IZR in Ha, Hb. lia.
    + assert (IZR (Zfloor w) < IZR k) as Ha by lra.
      assert (IZR k < IZR (Zfloor u) + 1) as Hb by lra.
      rewrite <- (plus_IZR _ 1) in Hb.
      apply lt_IZR in Ha, Hb. lia.
Qed.

(** X22: after the first step ([t_last] not 0), a phi plane counts as
    crossed in a step exactly when one of its copies [phi + 2 PI k] lies in
    the half-open interval between the phases at the two ends of the step
    that leaves out the lower phase and holds the higher one:
    [(phase_last, phase_current]] for a rising phase, with the start of the
    step left out and its end held, and [(phase_current, phase_last]] for a
    falling phase, with the end of the step left out and its start held. *)
Theorem phi_plane_crossed_iff (t_last phase_last phase_current phi : R) :
  plane_crossed t_last phase_last phase_current phi = true
  <-> t_last <> 0 /\
      exists k : Z,
        phase_last < phi + 2 * PI * IZR k <= phase_current \/
        phase_current < phi + 2 * PI * IZR k <= phase_last.
Proof.
  pose proof PI_RGT_0 as Hpi.
  assert (forall a k, (a - phi) / (2 * PI) < IZR k <-> a < phi + 2 * PI * IZR k)
    as Hlt.
  { intros a k. split; intros H.
    - apply (Rmult_lt_compat_r (2 * PI)) in H; [|lra].
      unfold Rdiv in H. rewrite Rmult_assoc, Rinv_l, Rmult_1_r in H; lra.
    - apply (Rmult_lt_reg_r (2 * PI)); [lra|].
      unfold Rdiv. rewrite Rmult_assoc, Rinv_l, Rmult_1_r; lra. }
  assert (forall a k, IZR k <= (a - phi) / (2 * PI) <-> phi + 2 * PI * IZR k <= a)
    as Hle.
  { intros a k. split; intros H.
    - apply (Rmult_le_compat_r (2 * PI)) in H; [|lra].
      unfold Rdiv in H. rewrite Rmult_assoc, Rinv_l, Rmult_1_r in H; lra.
    - apply (Rmult_le_reg_r (2 * PI)); [lra|].
      unfold Rdiv. rewrite Rmult_assoc, Rinv_l, Rmult_1_r; lra. }
  unfold plane_crossed, floor, Reqb.
  rewrite andb_true_iff, !negb_true_iff, Z.eqb_neq, floors_differ_iff.
  split.
  - intros [Ht (k & Hk)]. split.
    + destruct (Req_dec_T t_last 0); [discriminate | assumption].
    + exists k. rewrite <- !Hlt, <- !Hle. exact Hk.
  - intros [Ht (k & Hk)]. split.
    + destruct (Req_dec_T t_last 0); [contradiction | reflexivity].
    + exists k. rewrite !Hlt, !Hle. exact Hk.
Qed.

(** ** The entry points *)

(** X23: [particle_guiding_center_boozer_perturbed_tracing] never reads its
    argument [noK] (with [vacuum] unset it takes
    [GuidingCenterNoKBoozerPerturbedRHS] either way), and
    [particle_guiding_center_boozer_tracing] reads it only when [vacuum] is
    unset. *)
Theorem noK_is_read_only_without_vacuum (B : Boost) (U : Indeterminate)
    (field : BoozerMagneticField) (stz_init : R * R * R)
    (m q vtotal vtang mu tmax abstol reltol : R) (vacuum noK noK' : bool)
    (zetas omegas : list R)
    (stopping_criteria : list (option StoppingCriterion)) (vpars : list R)
    (phis_stop vpars_stop : bool) (Phihat omega : R) (Phim Phin : Z)
    (phase : R) (forget_exact_path : bool) (axis : Z) (fuel : nat) :
  particle_guiding_center_boozer_perturbed_tracing B U field stz_init m q
    vtotal vtang mu tmax abstol reltol vacuum noK zetas omegas
    stopping_criteria vpars phis_stop vpars_stop Phihat omega Phim Phin
    phase forget_exact_path axis fuel
  = particle_guiding_center_boozer_perturbed_tracing B U field stz_init m q
      vtotal vtang mu tmax abstol reltol vacuum noK' zetas omegas
      stopping_criteria vpars phis_stop vpars_stop Phihat omega Phim Phin
      phase forget_exact_path axis fuel
  /\
  particle_guiding_center_boozer_tracing B U field stz_init m q vtotal vtang
    tmax abstol reltol true noK zetas omegas stopping_criteria vpars
    phis_stop vpars_stop forget_exact_path axis fuel
  = particle_guiding_center_boozer_tracing B U field stz_init m q vtotal
      vtang tmax abstol reltol true noK' zetas omegas stopping_criteria
      vpars phis_stop vpars_stop forget_exact_path axis fuel.
Proof.
  destruct stz_init as [[s0 theta0] zeta0]. split; reflexivity.
Qed.

(** X24: the two entry points that build [omegas] themselves read every
    array within its bounds: [particle_fullorbit_tracing] always, and
    [fieldline_tracing], whose states have three components, when its list of
    stopping criteria holds no criterion; the failures left are the root
    solver's and the assertion at 731 (and, in the model, the bound on the
    number of passes). *)
Theorem cartesian_traces_read_in_bounds (B : Boost) (U : Indeterminate)
    (field : MagneticField) (x0 y0 z0 vx vy vz m q tmax abstol reltol : R)
    (phis : list R) (stopping_criteria : list (option StoppingCriterion))
    (fuel : nat) :
  (sized B 3 [x0; y0; z0] ->
   existsb is_some stopping_criteria = false ->
   fails_only
     (fun e => e = RootError \/ e = AssertionFailed \/ e = OutOfFuel)
     (fieldline_tracing B U field (x0, y0, z0) tmax abstol reltol phis
        stopping_criteria fuel)) /\
  (sized B 6 [x0; y0; z0; vx; vy; vz] ->
   fails_only
     (fun e => e = RootError \/ e = AssertionFailed \/ e = OutOfFuel)
     (particle_fullorbit_tracing B U field (x0, y0, z0) (vx, vy, vz) m q tmax
        abstol reltol phis stopping_criteria fuel)).
Proof.
  split.
  - intros Hs Hc. unfold fieldline_tracing.
    apply solve_fails with (n := 3%nat); auto.
    right. split; [exact Hs|]. split.
    + unfold components_read. rewrite Hc. cbn. lia.
    + rewrite repeat_length. lia.
  - intros Hs. unfold particle_fullorbit_tracing.
    apply solve_fails with (n := 6%nat); auto.
    right. split; [exact Hs|]. split.
    + unfold components_read. destruct (_ || _)%bool; lia.
    + rewrite repeat_length. lia.
Qed.

Lemma to_from_canonical (c : Z) (s theta : R) :
  (c = 0 \/ c = 1 \/ c = 2)%Z -> 0 < s ->
  exists k : Z,
    to_canonical c (fst (from_canonical c s theta))
      (snd (from_canonical c s theta))
    = (s, theta + 2 * PI * IZR k).
Proof.
  intros Hc Hs.
  destruct Hc as [-> | [-> | ->]];
    unfold from_canonical, to_canonical; cbn [Z.eqb Pos.eqb fst snd].
  - exists 0%Z. f_equal. lra.
  - destruct (atan2_polar (sqrt s) theta (sqrt_lt_R0 _ Hs)) as [k ->].
    exists k. f_equal.
    replace ((sqrt s * cos theta) ^ 2 + (sqrt s * sin theta) ^ 2)
      with ((sqrt s * sqrt s) * ((sin theta)² + (cos theta)²))
      by (unfold Rsqr; ring).
    rewrite sin2_cos2, sqrt_sqrt; lra.
  - destruct (atan2_polar s theta Hs) as [k ->].
    exists k. f_equal.
    replace ((s * cos theta) ^ 2 + (s * sin theta) ^ 2)
      with (s ^ 2 * ((sin theta)² + (cos theta)²)) by (unfold Rsqr; ring).
    rewrite sin2_cos2, Rmult_1_r. apply sqrt_pow2. lra.
Qed.

Lemma canonical_of_chart (rhs : RHS) (s theta : R) (rest : list R) :
  (axis rhs = 0 \/ axis rhs = 1 \/ axis rhs = 2)%Z -> 0 < s ->
  exists k : Z,
    canonical rhs (fst (from_canonical (axis rhs) s theta)
                   :: snd (from_canonical (axis rhs) s theta) :: rest)
    = Ok (s :: theta + 2 * PI * IZR k :: rest).
Proof.
  intros Hc Hs.
  destruct (to_from_canonical (axis rhs) s theta Hc Hs) as [k Hk].
  unfold canonical.
  destruct ((axis rhs =? 1) || (axis rhs =? 2))%Z eqn:Hax.
  - exists k. cbn [idx nth_error bind]. rewrite Hk. reflexivity.
  - assert (axis rhs = 0%Z) as H0.
    { apply orb_false_iff in Hax as [H1 H2].
      apply Z.eqb_neq in H1, H2. lia. }
    exists 0%Z. rewrite H0. unfold from_canonical. cbn [Z.eqb fst snd].
    do 3 f_equal. lra.
Qed.

(** X25: a Boozer trace starts at the point it is given: with [s0 > 0] and
    a chart 0, 1 or 2, the first sample that
    [particle_guiding_center_boozer_tracing] returns is
    [(0, s0, theta0 + 2 PI k, zeta0, vtang)] for an integer [k], and that of
    [particle_guiding_center_boozer_perturbed_tracing] is the same with the
    time 0 as its last component: the chart the entry point maps the initial
    point to is undone when the sample is recorded. *)
Theorem boozer_trace_starts_at_the_initial_point (B : Boost)
    (U : Indeterminate) (field : BoozerMagneticField) (s0 theta0 zeta0 : R)
    (m q vtotal vtang mu tmax abstol reltol : R) (vacuum noK : bool)
    (zetas omegas : list R)
    (stopping_criteria : list (option StoppingCriterion)) (vpars : list R)
    (phis_stop vpars_stop : bool) (Phihat omega : R) (Phim Phin : Z)
    (phase : R) (forget_exact_path : bool) (c : Z) (fuel : nat) :
  (c = 0 \/ c = 1 \/ c = 2)%Z ->
  0 < s0 ->
  (forall r h,
     particle_guiding_center_boozer_tracing B U field (s0, theta0, zeta0) m q
       vtotal vtang tmax abstol reltol vacuum noK zetas omegas
       stopping_criteria vpars phis_stop vpars_stop forget_exact_path c
       fuel = Ok (r, h) ->
     exists (k : Z) rest,
       r = [0; s0; theta0 + 2 * PI * IZR k; zeta0; vtang] :: rest) /\
  (forall r h,
     particle_guiding_center_boozer_perturbed_tracing B U field
       (s0, theta0, zeta0) m q vtotal vtang mu tmax abstol reltol vacuum noK
       zetas omegas stopping_criteria vpars phis_stop vpars_stop Phihat omega
       Phim Phin phase forget_exact_path c fuel = Ok (r, h) ->
     exists (k : Z) rest,
       r = [0; s0; theta0 + 2 * PI * IZR k; zeta0; vtang; 0] :: rest).
Proof.
  intros Hax Hs.
  assert (forall rhs tail r h dt dtmax,
            axis rhs = c ->
            solve B U rhs
              (fst (from_canonical c s0 theta0)
               :: snd (from_canonical c s0 theta0) :: tail)
              tmax dt dtmax abstol reltol zetas omegas stopping_criteria
              vpars phis_stop vpars_stop true forget_exact_path fuel
            = Ok (r, h) ->
            exists (k : Z) rest,
              r = (0 :: s0 :: theta0 + 2 * PI * IZR k :: tail) :: rest)
    as Hsolve.
  { intros rhs tail r h dt dtmax Hrhs H.
    apply solve_first_sample in H as (ykeep0 & rest & Hk & ->).
    rewrite <- Hrhs in Hax, Hk.
    destruct (canonical_of_chart rhs s0 theta0 tail Hax Hs) as [k Hk'].
    rewrite Hk' in Hk. injection Hk as <-. now exists k, rest. }
  split; intros r h H.
  - unfold particle_guiding_center_boozer_tracing in H.
    destruct (from_canonical c s0 theta0) as [y0 y1] eqn:Hfrom.
    cbn [fst snd] in Hsolve.
    destruct vacuum; [|destruct noK];
      eapply Hsolve in H; try reflexivity; exact H.
  - unfold particle_guiding_center_boozer_perturbed_tracing in H.
    destruct (from_canonical c s0 theta0) as [y0 y1] eqn:Hfrom.
    cbn [fst snd] in Hsolve.
    destruct vacuum; eapply Hsolve in H; try reflexivity; exact H.
Qed.

(** ** Examples for the properties of the event list *)

(** The mirror trace to [tmax = 1] with the plane [zeta = 1] and the plane
    [vpar = 0] watched: its one step, from [t = 0] to [t = 2], crosses both
    at [t = 1], and only the vpar plane is reported. *)
Lemma mirror_plane_missed :
  solve (curve_stepper 2 mirror_curve) (Build_Indeterminate 0 0) mirror_rhs
    (mirror_curve 0) 1 (/ 1000) 1 (/ 1000) (/ 1000) [1] [0] [] [0] false
    false true false 1
  = Ok ([[0; / 2; 0; 0; 1]; [1; / 2; 0; 1; 0]], [[1; 1; / 2; 0; 1; 0]]).
Proof. run_mirror; repeat f_equal; lra. Qed.

Lemma event_records_name_their_source_witness :
  Forall (event_record [] [0] [Some always])
    [[1; 0; / 2; 0; 1; 0]; [2; -1; / 2; 0; 2; -1]] /\
  (forall k k',
     listed [] [0] [Some always] k -> listed [] [0] [Some always] k' ->
     kind_code (length (@nil R)) k = kind_code (length (@nil R)) k' ->
     k = k').
Proof.
  exact (event_records_name_their_source (curve_stepper 2 mirror_curve)
           (Build_Indeterminate 0 0) mirror_rhs (mirror_curve 0) 1 (/ 1000)
           1 (/ 1000) (/ 1000) [] [] [Some always] [0] false false true false
           1 _ _ mirror_criterion).
Defined.

Lemma criterion_event_ends_the_trace_witness :
  exists r' h' t ykeep (j : nat) crit iter dt' k0 k1 k2 k3,
    [[0; / 2; 0; 0; 1]; [2; / 2; 0; 2; -1]] = r' ++ [join [t] ykeep] /\
    [[1; 0; / 2; 0; 1; 0]; [2; -1; / 2; 0; 2; -1]]
    = h' ++ [[2; -1; / 2; 0; 2; -1]] /\
    [2; -1; / 2; 0; 2; -1] = join [t; -1 - INR j] ykeep /\
    Forall (fun e => 0 <= kind_index e) h' /\
    nth_error [Some always] j = Some (Some crit) /\
    idx ykeep 0 = Ok k0 /\ idx ykeep 1 = Ok k1 /\
    idx ykeep 2 = Ok k2 /\ idx ykeep 3 = Ok k3 /\
    crit iter dt' t k0 k1 k2 k3 = true.
Proof.
  apply (criterion_event_ends_the_trace (curve_stepper 2 mirror_curve)
           (Build_Indeterminate 0 0) mirror_rhs (mirror_curve 0) 1 (/ 1000)
           1 (/ 1000) (/ 1000) [] [] [Some always] [0] false false true false
           1 _ _ [2; -1; / 2; 0; 2; -1] mirror_criterion).
  - right. left. reflexivity.
  - unfold kind_index. cbn. lra.
Defined.


Lemma trajectory_starts_at_the_initial_state_witness :
  exists ykeep0 rest,
    canonical mirror_rhs (mirror_curve 0) = Ok ykeep0 /\
    [[0; / 2; 0; 0; 1]; [2; / 2; 0; 2; -1]] = join [0] ykeep0 :: rest.
Proof.
  exact (trajectory_starts_at_the_initial_state
           (curve_stepper 2 mirror_curve) (Build_Indeterminate 0 0)
           mirror_rhs (mirror_curve 0) 1 (/ 1000) 1 (/ 1000) (/ 1000) [] []
           [Some always] [0] false false true false 1 _ _ mirror_criterion).
Defined.

Lemma first_step_reports_no_phi_plane_witness :
  Forall (fun ev => kind_index ev < 0 \/ INR (length [1]) <= kind_index ev)
    [[1; 1; / 2; 0; 1; 0]].
Proof.
  apply (first_step_reports_no_phi_plane (curve_stepper 2 mirror_curve)
           (Build_Indeterminate 0 0) mirror_rhs (mirror_curve 0) 1 (/ 1000)
           1 (/ 1000) (/ 1000) [1] [0] [] [0] false false true false 1
           [[0; / 2; 0; 0; 1]; [1; / 2; 0; 1; 0]] [[1; 1; / 2; 0; 1; 0]]);
    [cbn; lra | exact mirror_plane_missed].
Defined.


Lemma turns_floor (k j : Z) (x : R) :
  2 * PI * IZR j <= x < 2 * PI * (IZR j + 1) ->
  floor ((2 * PI * IZR k + x - 0) / (2 * PI)) = (k + j)%Z.
Proof.
  intros Hx. pose proof PI_RGT_0 as Hpi.
  replace ((2 * PI * IZR k + x - 0) / (2 * PI)) with (IZR k + x / (2 * PI))
    by (field; lra).
  assert (IZR j <= x / (2 * PI) < IZR j + 1) as Hq.
  { split.
    - apply (Rmult_le_reg_r (2 * PI)); [lra|].
      unfold Rdiv. rewrite Rmult_assoc, Rinv_l; lra.
    - apply (Rmult_lt_reg_r (2 * PI)); [lra|].
      unfold Rdiv. rewrite Rmult_assoc, Rinv_l; lra. }
  apply Zfloor_eq. rewrite plus_IZR. lra.
Qed.

Lemma turns_round (k : Z) (a b : R) :
  (0 <= k)%Z -> a + b = 0 ->
  round (((2 * PI * IZR k + a + (2 * PI * IZR k + b)) / 2 - 0) / (2 * PI)) = k.
Proof.
  intros Hk Hab. pose proof PI_RGT_0 as Hpi.
  replace (((2 * PI * IZR k + a + (2 * PI * IZR k + b)) / 2 - 0) / (2 * PI))
    with (IZR k + (a + b) / (4 * PI)) by (field; lra).
  rewrite Hab. unfold Rdiv. rewrite Rmult_0_l, Rplus_0_r.
  unfold round. apply IZR_le in Hk.
  destruct (Rle_dec 0 (IZR k)) as [_ | Hn]; [|lra].
  apply Zfloor_eq. lra.
Qed.

(** Beyond the range the assertion fails: a plane at 0 crossed at the end of
    its [2^30]-th turn, where [fak = 2^30] fits an [int] and [fak*2] does
    not. *)
Lemma assertion_fails_beyond_int_range :
  let phase_last := 2 * PI * IZR (2 ^ 30) + -1 in
  let phase_current := 2 * PI * IZR (2 ^ 30) + 1 in
  plane_crossed 1 phase_last phase_current 0 = true /\
  round (((phase_last + phase_current) / 2 - 0) / (2 * PI)) = (2 ^ 30)%Z /\
  phase_shift phase_last phase_current 0 = IZR (- 2 ^ 31) * PI + 0 /\
  between phase_last (phase_shift phase_last phase_current 0) phase_current
  = false.
Proof.
  intros phase_last phase_current.
  pose proof PI_RGT_0 as Hpi. pose proof PI2_1 as Hpi2.
  assert (round (((phase_last + phase_current) / 2 - 0) / (2 * PI))
          = (2 ^ 30)%Z) as Hr
    by (apply turns_round; [lia | lra]).
  assert (phase_shift phase_last phase_current 0 = IZR (- 2 ^ 31) * PI + 0)
    as Hs by (unfold phase_shift; rewrite Hr; reflexivity).
  split; [|split; [exact Hr | split; [exact Hs|]]].
  - unfold plane_crossed. rewrite Reqb_false by lra.
    unfold phase_last, phase_current.
    rewrite (turns_floor _ (-1)), (turns_floor _ 0) by lra.
    reflexivity.
  - rewrite Hs. unfold between, Rleb, phase_last, phase_current.
    assert (0 < IZR (2 ^ 30)) as H30 by (apply IZR_lt; lia).
    assert (IZR (- 2 ^ 31) < 0) as H31 by (apply IZR_lt; lia).
    assert (IZR (- 2 ^ 31) * PI + 0 < 2 * PI * IZR (2 ^ 30) + -1) by nra.
    repeat match goal with
           | |- context [Rle_dec ?a ?b] => destruct (Rle_dec a b)
           end; cbn [andb orb]; try reflexivity; lra.
Qed.

(** A trace that fails so: a flux trace whose [zeta] passes the plane at 0
    at the end of its [2^30]-th turn, in its second step. *)
Lemma solve_assertion_failure :
  solve
    (curve_stepper 1
       (fun t => [/ 2; 0; 2 * PI * IZR (2 ^ 30) + (2 * t - 3); 1]))
    (Build_Indeterminate 0 0) mirror_rhs
    [/ 2; 0; 2 * PI * IZR (2 ^ 30) + (2 * 0 - 3); 1]
    2 (/ 1000) 1 (/ 1000) (/ 1000) [0] [0] [] [] false false true false 2
  = Err AssertionFailed.
Proof.
  pose proof PI_RGT_0 as Hpi.
  destruct assertion_fails_beyond_int_range as (Hc & _ & _ & Hb).
  unfold solve, run, enter.
  cbn -[PI IZR Z.pow floor round between phase_shift plane_crossed Reqb Rltb
        scan_phis].
  unfold body, push_head, advance.
  cbn -[PI IZR Z.pow floor round between phase_shift plane_crossed Reqb Rltb
        scan_phis].
  rewrite scan_phis_first_ok by (cbn; lia).
  cbn -[PI IZR Z.pow floor round between phase_shift plane_crossed Reqb Rltb
        scan_phis].
  rewrite Rltb_true by lra.
  cbn -[PI IZR Z.pow floor round between phase_shift plane_crossed Reqb Rltb].
  replace (0 + 1) with 1 by lra.
  replace (2 * PI * IZR (2 ^ 30) + (2 * 1 - 3) - 0 * 1)
    with (2 * PI * IZR (2 ^ 30) + -1) by lra.
  replace (2 * PI * IZR (2 ^ 30) + (2 * (1 + 1) - 3) - 0 * (1 + 1))
    with (2 * PI * IZR (2 ^ 30) + 1) by lra.
  rewrite Hc, Hb. reflexivity.
Qed.

Lemma mirror_sized (t : R) :
  sized (curve_stepper 2 mirror_curve) 4 (mirror_curve t).
Proof. repeat split. Qed.

Lemma solve_reads_in_bounds_witness :
  fails_only
    (fun e => e = RootError \/ e = AssertionFailed \/ e = OutOfFuel)
    (solve (curve_stepper 2 mirror_curve) (Build_Indeterminate 0 0)
       mirror_rhs (mirror_curve 0) 1 (/ 1000) 1 (/ 1000) (/ 1000) [1] [0]
       [Some always] [0] false false true false 1).
Proof.
  apply solve_reads_in_bounds; [apply mirror_sized | cbn; lia | cbn; lia].
Defined.

Lemma phis_without_omegas_witness :
  (exists e,
     solve (curve_stepper 2 mirror_curve) (Build_Indeterminate 0 0)
       mirror_rhs (mirror_curve 0) 1 (/ 1000) 1 (/ 1000) (/ 1000) [1] []
       [] [] false false true false 1 = Err e /\
     (e = OutOfBounds \/ e = RootError)) /\
  (@nil R = [] ->
   solve (curve_stepper 2 mirror_curve) (Build_Indeterminate 0 0)
     mirror_rhs (mirror_curve 0) 1 (/ 1000) 1 (/ 1000) (/ 1000) [1] []
     [] [] false false true false 1 = Err OutOfBounds).
Proof.
  apply (phis_without_omegas (curve_stepper 2 mirror_curve)
           (Build_Indeterminate 0 0) mirror_rhs (mirror_curve 0) 1 (/ 1000)
           1 (/ 1000) (/ 1000) [1] [] [] [] false false true false 0).
  cbn. lia.
Defined.

Lemma cartesian_traces_read_in_bounds_witness :
  fails_only
    (fun e => e = RootError \/ e = AssertionFailed \/ e = OutOfFuel)
    (fieldline_tracing (curve_stepper (PI / 2) circle_curve)
       (Build_Indeterminate 0 0) wire_field (1, 0, 0) PI (/ 1000) (/ 1000)
       [3 * PI / 4] [None] 2) /\
  fails_only
    (fun e => e = RootError \/ e = AssertionFailed \/ e = OutOfFuel)
    (particle_fullorbit_tracing
       (curve_stepper 1 (fun t => [1; 0; t; 0; 0; 1]))
       (Build_Indeterminate 0 0) wire_field (1, 0, 0) (0, 0, 1) 1 1 1
       (/ 1000) (/ 1000) [] [Some never] 2).
Proof.
  split.
  - apply (proj1 (cartesian_traces_read_in_bounds
                    (curve_stepper (PI / 2) circle_curve)
                    (Build_Indeterminate 0 0) wire_field 1 0 0 0 0 0 1 1 PI
                    (/ 1000) (/ 1000) [3 * PI / 4] [None] 2));
      [repeat split | reflexivity].
  - apply (proj2 (cartesian_traces_read_in_bounds
                    (curve_stepper 1 (fun t => [1; 0; t; 0; 0; 1]))
                    (Build_Indeterminate 0 0) wire_field 1 0 0 0 0 1 1 1 1
                    (/ 1000) (/ 1000) [] [Some never] 2)).
    repeat split.
Defined.

(** The Boozer trace of the mirror orbit through its entry point, in the
    chart 0. *)
Lemma boozer_entry_run :
  particle_guiding_center_boozer_tracing (curve_stepper 2 mirror_curve)
    (Build_Indeterminate 0 0) unit_boozer_field (/ 2, 0, 0) 1 1 1 1 1
    (/ 1000) (/ 1000) true false [] [] [Some always] [0] false false false
    0 1
  = Ok ([[0; / 2; 0; 0; 1]; [2; / 2; 0; 2; -1]],
        [[1; 0; / 2; 0; 1; 0]; [2; -1; / 2; 0; 2; -1]]).
Proof.
  unfold particle_guiding_center_boozer_tracing, from_canonical.
  cbn [Z.eqb]. run_mirror; repeat f_equal; lra.
Qed.

Lemma boozer_trace_starts_at_the_initial_point_witness :
  exists (k : Z) rest,
    [[0; / 2; 0; 0; 1]; [2; / 2; 0; 2; -1]]
    = [0; / 2; 0 + 2 * PI * IZR k; 0; 1] :: rest.
Proof.
  assert (0 < / 2) as Hs by lra.
  exact (proj1 (boozer_trace_starts_at_the_initial_point
                  (curve_stepper 2 mirror_curve) (Build_Indeterminate 0 0)
                  unit_boozer_field (/ 2) 0 0 1 1 1 1 0 1 (/ 1000) (/ 1000)
                  true false [] [] [Some always] [0] false false 0 0 0%Z 0%Z
                  0 false 0 1 (or_introl eq_refl) Hs)
           _ _ boozer_entry_run).
Defined.

(** ** Where the unset locals are read *)

Section Unset.

Variable B : Boost.
Variable rhs : RHS.
Variable y : State.
Variables tmax dt dtmax abstol reltol : R.
Variable omegas : list R.
Variable stopping_criteria : list (option StoppingCriterion).
Variables phis_stop vpars_stop forget_exact_path : bool.

Local Abbreviation body0 :=
  (body B rhs abstol [] omegas stopping_criteria [] phis_stop vpars_stop
     false forget_exact_path).
Local Abbreviation loop0 :=
  (loop B rhs tmax abstol [] omegas stopping_criteria [] phis_stop
     vpars_stop false forget_exact_path).

Lemma body_agree (v w : locals B) :
  same_but_unset v w -> agree same_but_unset (body0 v) (body0 w).
Proof.
  destruct v as [o d t y' dt' iter pl vl tl vc tc].
  destruct w as [o' d' t' y'' dt'' iter' pl' vl' tl' vc' tc'].
  unfold same_but_unset. cbn [out_ dense_ t_ y_ dt_ iter_ phi_last_].
  intros (<- & <- & <- & <- & <- & <- & <-).
  unfold body, push_head, advance.
  cbn [out_ dense_ t_ y_ dt_ iter_ phi_last_ vpar_last_ t_last_
       vpar_current_ t_current_].
  destruct (if negb forget_exact_path || Reqb t 0
            then ykeep <- canonical rhs y' ;; Ok (push_res o (join [t] ykeep))
            else Ok o) as [base | e]; [|reflexivity].
  cbn [bind].
  destruct (do_step B rhs d) as [d1 [a b]].
  destruct (idx (current_state B d1) 0) as [y0 | e]; [|reflexivity].
  destruct (idx (current_state B d1) 1) as [y1 | e]; [|reflexivity].
  cbn [bind scan_vpars scan_phis].
  destruct (scan_criteria rhs (iter + 1) (b - a) (current_time B d1)
              (current_state B d1) 0 stopping_criteria base) as [o2 | e];
    [|reflexivity].
  cbn. repeat split.
Qed.

Lemma loop_agree fuel : forall v w : locals B,
  same_but_unset v w -> agree same_but_unset (loop0 fuel v) (loop0 fuel w).
Proof.
  induction fuel as [| fuel IH]; intros v w Hvw; [reflexivity|].
  cbn [loop]. pose proof (body_agree v w Hvw) as Hb.
  destruct (body0 v) as [v' | e], (body0 w) as [w' | e'];
    cbn [agree] in Hb; try contradiction; [|now subst].
  cbn [bind].
  destruct Hb as (Ho & Hd & Ht & Hrest).
  rewrite <- Ho, <- Ht.
  destruct (_ && _)%bool; [apply IH | cbn]; repeat split; tauto.
Qed.

Lemma solve_without_planes_determinate (U U' : Indeterminate) (fuel : nat) :
  solve B U rhs y tmax dt dtmax abstol reltol [] omegas stopping_criteria []
    phis_stop vpars_stop false forget_exact_path fuel
  = solve B U' rhs y tmax dt dtmax abstol reltol [] omegas stopping_criteria
      [] phis_stop vpars_stop false forget_exact_path fuel.
Proof.
  unfold solve, run, enter.
  destruct (y0 <- idx y 0 ;; y1 <- idx y 1 ;; Ok (get_phi y0 y1 PI, 0))
    as [[pl vl] | e]; [|reflexivity].
  cbn [bind].
  match goal with
  | |- bind (loop0 _ ?v) _ = bind (loop0 _ ?w) _ =>
    assert (agree same_but_unset (loop0 fuel v) (loop0 fuel w)) as Hl
      by (apply loop_agree; repeat split)
  end.
  match type of Hl with
  | agree _ ?c ?c' =>
    destruct c as [vf | e], c' as [wf | e'];
      cbn [agree] in Hl; try contradiction; [|now subst]
  end.
  cbn [bind]. destruct Hl as (Ho & Hd & _).
  unfold leave. now rewrite Ho, Hd.
Qed.

End Unset.

(** X26: the values that the locals [vpar_current] and [t_current] hold
    before they are set reach the result of [solve] only in a Cartesian trace
    that watches a plane: a flux trace, and a Cartesian trace with neither
    phi planes nor vpar planes, return the same whatever those values
    are. *)
Theorem unset_locals_matter_only_with_planes (B : Boost) (rhs : RHS)
    (y : State) (tmax dt dtmax abstol reltol : R) (phis omegas : list R)
    (stopping_criteria : list (option StoppingCriterion)) (vpars : list R)
    (phis_stop vpars_stop forget_exact_path : bool) (U U' : Indeterminate)
    (fuel : nat) :
  solve B U rhs y tmax dt dtmax abstol reltol phis omegas stopping_criteria
    vpars phis_stop vpars_stop true forget_exact_path fuel
  = solve B U' rhs y tmax dt dtmax abstol reltol phis omegas
      stopping_criteria vpars phis_stop vpars_stop true forget_exact_path
      fuel
  /\
  solve B U rhs y tmax dt dtmax abstol reltol [] omegas stopping_criteria []
    phis_stop vpars_stop false forget_exact_path fuel
  = solve B U' rhs y tmax dt dtmax abstol reltol [] omegas stopping_criteria
      [] phis_stop vpars_stop false forget_exact_path fuel.
Proof.
  split; [apply solve_flux_determinate | apply solve_without_planes_determinate].
Qed.


Lemma fieldline_trace_without_planes_run :
  fieldline_tracing (curve_stepper (PI / 2) circle_curve)
    (Build_Indeterminate 0 0) wire_field (1, 0, 0) (PI / 2) (/ 1000)
    (/ 1000) [] [] 1
  = Ok ([[0; 1; 0; 0]; [PI / 2; cos (PI / 2); sin (PI / 2); 0]], []).
Proof.
  pose proof PI_RGT_0 as Hpi.
  unfold fieldline_tracing, solve, run, enter.
  cbn -[get_phi PI cos sin Reqb Rltb].
  unfold body, push_head, advance.
  cbn -[get_phi PI cos sin Reqb Rltb].
  rewrite Rltb_false by lra.
  cbn -[get_phi PI cos sin Reqb Rltb].
  reflexivity.
Qed.


(** X28: every right-hand side reads the state within its [Size]
    components and returns [Size] rates. *)
Theorem rhs_call_in_bounds (rhs : RHS) (ys : State) :
  length ys = Size rhs ->
  exists dydt, call rhs ys = Ok dydt /\ length dydt = Size rhs.
Proof.
  intros Hlen.
  destruct rhs; cbn [Size] in Hlen;
    repeat (destruct ys as [| ? ys]; try discriminate Hlen);
    unfold call, GuidingCenterVacuumRHS_call,
      GuidingCenterVacuumBoozerRHS_call,
      GuidingCenterVacuumBoozerPerturbedRHS_call,
      GuidingCenterNoKBoozerPerturbedRHS_call,
      GuidingCenterNoKBoozerRHS_call, GuidingCenterBoozerRHS_call,
      FullorbitRHS_call, FieldlineRHS_call;
    cbn [idx nth_error bind Size];
    repeat match goal with
           | |- context [match ?x with pair _ _ => _ end] => destruct x
           end;
    eexists; split; reflexivity.
Qed.

Lemma rhs_call_in_bounds_witness :
  exists dydt,
    call mirror_rhs [/ 2; 0; 0; 1] = Ok dydt /\ length dydt = Size mirror_rhs.
Proof. apply (rhs_call_in_bounds mirror_rhs [/ 2; 0; 0; 1]). reflexivity. Defined.
